(** * layer-aware-pointer-events: the point query, the tree builder and the
    redispatch engine of [lib/index.ts], embedded and verified.

    Elements are object identities, here natural numbers.  The browser is a
    record of the capabilities the library calls: the hit test
    [elementsFromPoint], [parentNode], [shadowRoot], the computed
    [pointer-events] style and [document.documentElement].  Loops whose
    termination rests on the shape of the live DOM ([while (node.parentNode)],
    the recursion over shadow roots, the recursion over a parent map) take a
    fuel argument; a thrown [Error] and an exhausted fuel are distinct
    outcomes. *)

From stdpp Require Import gmap strings list relations sorting.
From Stdlib Require Import ZArith.

(** ** Outcomes: a returned value, a thrown [Error], or an unfinished run *)

Inductive result (A : Type) : Type :=
| Ok (a : A)
| Throw (msg : string)
| OutOfFuel.
Arguments Ok {A} a.
Arguments Throw {A} msg.
Arguments OutOfFuel {A}.

#[global] Instance result_ret : MRet result := fun A a => Ok a.
#[global] Instance result_bind : MBind result := fun A B f m =>
  match m with
  | Ok a => f a
  | Throw msg => Throw msg
  | OutOfFuel => OutOfFuel
  end.

Definition throws {A} (r : result A) : Prop := ∃ msg, r = Throw msg.

(** ** The DOM as the library sees it *)

Abbreviation Element := nat (only parsing).

(** A node is the global [document], a [ShadowRoot] (named by its host), an
    element, or anything else (a detached [DocumentFragment], a foreign
    document, [window] as an event target). *)
Inductive Node : Type :=
| Document
| ShadowRootOf (host : Element)
| ElementNode (e : Element)
| OtherNode (n : nat).

#[global] Instance Node_eq_dec : EqDecision Node.
Proof. solve_decision. Defined.

Record DOM : Type := {
  (** [document.documentElement], [null] for a document without a root *)
  documentElement : option Element;
  (** [element.parentNode]; documents, shadow roots and fragments have none *)
  elementParentNode : Element → option Node;
  (** [hasOpenShadowRoot(element)], that is [!!element.shadowRoot] *)
  hasOpenShadowRoot : Element → bool;
  (** [scope.elementsFromPoint(x, y)], topmost first *)
  elementsFromPoint : Node → Z → Z → list Element;
  (** [getComputedStyle(element).pointerEvents] *)
  pointerEvents : Element → string;
}.

Definition parentNode (dom : DOM) (node : Node) : option Node :=
  match node with
  | ElementNode e => elementParentNode dom e
  | _ => None
  end.

(** [element.parentElement]: the parent node when it is an element. *)
Definition parentElement (dom : DOM) (e : Element) : option Element :=
  match elementParentNode dom e with
  | Some (ElementNode p) => Some p
  | _ => None
  end.

Definition isElement (value : option Node) : option Element :=
  match value with
  | Some (ElementNode e) => Some e
  | _ => None
  end.

Definition isShadowRoot (value : Node) : bool :=
  match value with
  | ShadowRootOf _ => true
  | _ => false
  end.

Definition isDocumentOrShadowRoot (value : Node) : bool :=
  bool_decide (value = Document) || isShadowRoot value.

(** [while (node.parentNode) node = node.parentNode; return node] *)
Fixpoint findRootNode (fuel : nat) (dom : DOM) (node : Node) : result Node :=
  match parentNode dom node with
  | None => Ok node
  | Some p =>
      match fuel with
      | 0 => OutOfFuel
      | S fuel' => findRootNode fuel' dom p
      end
  end.

(** [a === b] for [a : Element | undefined] and [b : Element | null]:
    [undefined] and [null] are not strictly equal, so two absent values
    differ. *)
Definition strictEq (a b : option Element) : bool :=
  match a, b with
  | Some a, Some b => bool_decide (a = b)
  | _, _ => false
  end.

(** [higherElements.splice(0, 1)] under its two guards. *)
Definition trimHost (dom : DOM) (host : Element) (higherElements : list Element)
  : list Element :=
  if String.eqb (pointerEvents dom host) "none"%string then
    if strictEq (head higherElements) (Some host) then drop 1 higherElements
    else higherElements
  else higherElements.

(** ** Normalized point query *)

Fixpoint engineIndependentElementsFromPoint
    (fuel : nat) (dom : DOM) (x y : Z) (documentOrShadowRoot : Node)
  : result (list Element) :=
  match fuel with
  | 0 => OutOfFuel
  | S fuel' =>
      let elements := elementsFromPoint dom documentOrShadowRoot x y in
      let lastElement := last elements in
      match documentOrShadowRoot with
      | ShadowRootOf host =>
          if negb (strictEq lastElement (documentElement dom)) then
            higherDom ← findRootNode fuel' dom (ElementNode host);
            if negb (isDocumentOrShadowRoot higherDom) then
              Throw "Expected root node to be a DocumentOrShadowRoot"%string
            else
              higherElements ←
                engineIndependentElementsFromPoint fuel' dom x y higherDom;
              Ok (elements ++ trimHost dom host higherElements)
          else Ok elements
      | _ => Ok elements
      end
  end.

(** ** Tree builder *)

Record ElementTree : Type := {
  root : Element;
  elementsByParent : gmap Element (list Element);
}.

(** The four variables [elementTreeFromPoint] closes over. *)
Record BuildState : Type := {
  st_root : option Element;
  st_elementsByParent : gmap Element (list Element);
  processedElements : gset Element;
  processedShadowRootElements : gset Element;
}.

Definition initialState : BuildState :=
  {| st_root := None; st_elementsByParent := ∅;
     processedElements := ∅; processedShadowRootElements := ∅ |}.

Definition addToKeyedList (keyedList : gmap Element (list Element))
    (parent child : Element) : gmap Element (list Element) :=
  <[parent := default [] (keyedList !! parent) ++ [child]]> keyedList.

(** [addToKeyedList(elementsByParent, parent, element);
     processedElements.add(element)] *)
Definition attach (parent element : Element) (st : BuildState) : BuildState :=
  {| st_root := st_root st;
     st_elementsByParent :=
       addToKeyedList (st_elementsByParent st) parent element;
     processedElements := {[element]} ∪ processedElements st;
     processedShadowRootElements := processedShadowRootElements st |}.

(** [root = element] *)
Definition setRoot (element : Element) (st : BuildState) : BuildState :=
  {| st_root := Some element;
     st_elementsByParent := st_elementsByParent st;
     processedElements := processedElements st;
     processedShadowRootElements := processedShadowRootElements st |}.

(** [processedShadowRootElements.add(element)] *)
Definition markShadowRoot (element : Element) (st : BuildState) : BuildState :=
  {| st_root := st_root st;
     st_elementsByParent := st_elementsByParent st;
     processedElements := processedElements st;
     processedShadowRootElements :=
       {[element]} ∪ processedShadowRootElements st |}.

(** [array.pop()]: the last entry and the array without it. *)
Definition pop {A} (l : list A) : option (A * list A) :=
  match last l with
  | Some a => Some (a, take (length l - 1) l)
  | None => None
  end.

(** The [while (true)] loop that steps up the visibility chain: [parent] and
    [mutableHigherPotentialParents] are its two mutable variables. *)
Fixpoint stepUp (fuel : nat) (dom : DOM) (potentialParents : gset Element)
    (element : Element) (parent : option Element)
    (mutableHigherPotentialParents : list Element) (st : BuildState)
  : result BuildState :=
  match parent with
  | Some p =>
      if decide (p ∈ potentialParents) then Ok (attach p element st)
      else
        match fuel with
        | 0 => OutOfFuel
        | S fuel' =>
            stepUp fuel' dom potentialParents element (parentElement dom p)
              mutableHigherPotentialParents st
        end
  | None =>
      match pop mutableHigherPotentialParents with
      | Some (p, rest) =>
          match fuel with
          | 0 => OutOfFuel
          | S fuel' =>
              stepUp fuel' dom potentialParents element (Some p) rest st
          end
      | None => Ok (setRoot element st)
      end
  end.

(** The [for (const [i, element] of elements.entries())] loop of [recurse].
    At each entry the list still to visit is [elements.slice(i + 1)]; the
    recursive call into a shadow root is the argument [recurse]. *)
Fixpoint forEachElement
    (recurse : Node → list Element → BuildState → result BuildState)
    (fuel : nat) (dom : DOM) (higherPotentialParents : list Element)
    (elements : list Element) (st : BuildState) : result BuildState :=
  match elements with
  | [] => Ok st
  | element :: rest =>
      if decide (element ∈ processedElements st) then
        forEachElement recurse fuel dom higherPotentialParents rest st
      else if hasOpenShadowRoot dom element
              && negb (bool_decide (element ∈ processedShadowRootElements st))
      then
        st' ← recurse (ShadowRootOf element)
                 (higherPotentialParents ++ [element])
                 (markShadowRoot element st);
        forEachElement recurse fuel dom higherPotentialParents rest st'
      else
        st' ← stepUp fuel dom (list_to_set rest) element
                 (parentElement dom element) higherPotentialParents st;
        forEachElement recurse fuel dom higherPotentialParents rest st'
  end.

Fixpoint recurse (fuel : nat) (dom : DOM) (x y : Z) (scope : Node)
    (higherPotentialParents : list Element) (st : BuildState)
  : result BuildState :=
  match fuel with
  | 0 => OutOfFuel
  | S fuel' =>
      elements ← engineIndependentElementsFromPoint fuel dom x y scope;
      forEachElement (recurse fuel' dom x y) fuel dom
        higherPotentialParents elements st
  end.

Definition elementTreeFromPoint (fuel : nat) (dom : DOM) (x y : Z)
    (topDocumentOrShadowRoot : Node) : result (option ElementTree) :=
  st ← recurse fuel dom x y topDocumentOrShadowRoot [] initialState;
  Ok (match st_root st with
      | Some r =>
          Some {| root := r; elementsByParent := st_elementsByParent st |}
      | None => None
      end).

(** ** Flattening and the default path *)

(** [array.flatMap(f)] for an [f] that may fail. *)
Fixpoint flatMapM {A B} (f : A → result (list B)) (l : list A)
  : result (list B) :=
  match l with
  | [] => Ok []
  | a :: l' => bs ← f a; rest ← flatMapM f l'; Ok (bs ++ rest)
  end.

Fixpoint flattenElementTree (fuel : nat)
    (elementsByParent : gmap Element (list Element)) (root : Element)
  : result (list Element) :=
  match fuel with
  | 0 => OutOfFuel
  | S fuel' =>
      children ← flatMapM (flattenElementTree fuel' elementsByParent)
                    (default [] (elementsByParent !! root));
      Ok (children ++ [root])
  end.

Fixpoint getDefaultPathElementSet (fuel : nat)
    (elementsByParent : gmap Element (list Element)) (root : Element)
  : result (gset Element) :=
  match fuel with
  | 0 => OutOfFuel
  | S fuel' =>
      let firstChild := (elementsByParent !! root) ≫= head in
      subElements ←
        match firstChild with
        | Some c => getDefaultPathElementSet fuel' elementsByParent c
        | None => Ok ∅
        end;
      Ok ({[root]} ∪ subElements)
  end.

(** ** Redispatch engine *)

Inductive EventClass : Type :=
| MouseEventClass | DragEventClass | PointerEventClass | WheelEventClass.

(** The members of [MouseEventInit] the engine itself reads or writes; the
    remaining members are produced by the builder and ride along untouched. *)
Record MouseEventInit : Type := {
  bubbles : bool;
  cancelable : bool;
  clientX : Z;
  clientY : Z;
}.

(** An event as the listener finds it.  [eventInit] holds its own [bubbles],
    [cancelable], [clientX] and [clientY]; [inPassiveListener] is the flag
    the host sets while a listener registered as passive runs. *)
Record MouseEvent : Type := {
  constructor : EventClass;
  type : string;
  eventInit : MouseEventInit;
  defaultPrevented : bool;
  currentTarget : option Node;
  x : Z;
  y : Z;
  inPassiveListener : bool;
}.

(** [eventInitDict.bubbles = false] *)
Definition setBubbles (b : bool) (d : MouseEventInit) : MouseEventInit :=
  {| bubbles := b; cancelable := cancelable d;
     clientX := clientX d; clientY := clientY d |}.

(** [new (ctor.bind.apply(ctor, [null, type, initDict]))()] *)
Definition constructMouseEvent (original : MouseEvent) (type : string)
    (initDict : MouseEventInit) : MouseEvent :=
  {| constructor := constructor original; type := type; eventInit := initDict;
     defaultPrevented := false; currentTarget := None;
     x := clientX initDict; y := clientY initDict;
     inPassiveListener := false |}.

(** [event.preventDefault()]: the canceled flag is set when the event is
    cancelable and the running listener is not passive; otherwise the call
    does nothing. *)
Definition preventDefault (event : MouseEvent) : MouseEvent :=
  if cancelable (eventInit event) && negb (inPassiveListener event) then
    {| constructor := constructor event; type := type event;
       eventInit := eventInit event; defaultPrevented := true;
       currentTarget := currentTarget event; x := x event; y := y event;
       inPassiveListener := inPassiveListener event |}
  else event.

Section Redispatch.
(** Everything the listeners may read and change. *)
Context {World : Type}.
(** [element.dispatchEvent(clone)] followed by reading
    [clone.defaultPrevented]. *)
Context (dispatchEvent : Element → MouseEvent → World → World * bool).
(** The second parameter of the listener; its default,
    [getMouseEventInitProperties], copies the properties of the event. *)
Context (mouseEventInitDictBuilder : MouseEvent → MouseEventInit).

(** What an invocation leaves behind: the listeners' world, the synthesized
    dispatches in order (target, and whether that clone came back with its
    default prevented), and the original event. *)
Record Effects : Type := {
  world : World;
  dispatched : list (Element * bool);
  original : MouseEvent;
}.

(** The [for (const element of subtree)] loop. *)
Fixpoint dispatchLoop (defaultPathElementSet : gset Element)
    (event : MouseEvent) (type : string) (eventInitDict : MouseEventInit)
    (subtree : list Element) (w : World) : Effects :=
  match subtree with
  | [] => {| world := w; dispatched := []; original := event |}
  | element :: rest =>
      if decide (element ∈ defaultPathElementSet) then
        dispatchLoop defaultPathElementSet event type eventInitDict rest w
      else
        let clone := constructMouseEvent event type eventInitDict in
        let '(w', prevented) := dispatchEvent element clone w in
        if prevented then
          {| world := w'; dispatched := [(element, true)];
             original := preventDefault event |}
        else
          let r := dispatchLoop defaultPathElementSet event type
                     eventInitDict rest w' in
          {| world := world r;
             dispatched := (element, false) :: dispatched r;
             original := original r |}
  end.

Definition dispatchToUnderlyingElements (fuel : nat) (dom : DOM)
    (event : MouseEvent) (w : World) : result Effects :=
  if defaultPrevented event then
    Ok {| world := w; dispatched := []; original := event |}
  else
    match isElement (currentTarget event) with
    | None => Throw "Expected event.currentTarget to be an Element"%string
    | Some currentTarget =>
        d ← findRootNode fuel dom (ElementNode currentTarget);
        if negb (isDocumentOrShadowRoot d) then
          Throw "Expected root node to be a DocumentOrShadowRoot"%string
        else
          tree ← elementTreeFromPoint fuel dom (x event) (y event) d;
          match tree with
          | None => Ok {| world := w; dispatched := []; original := event |}
          | Some tree =>
              subtree ← flattenElementTree fuel (elementsByParent tree)
                          currentTarget;
              defaultPathElementSet ←
                getDefaultPathElementSet fuel (elementsByParent tree)
                  currentTarget;
              let eventInitDict :=
                setBubbles false (mouseEventInitDictBuilder event) in
              Ok (dispatchLoop defaultPathElementSet event (type event)
                    eventInitDict subtree w)
          end
    end.
End Redispatch.
Arguments Effects : clear implicits.


(** ** Reference readings of the flattening and of the default path *)

(** Depth-first post-order: the flattenings of the children, in their stored
    order, followed by the node. *)
#[warnings="-register-all"]
Inductive PostOrder (m : gmap Element (list Element))
  : Element → list Element → Prop :=
| PostOrder_node (r : Element) (ls : list (list Element)) :
    Forall2 (PostOrder m) (default [] (m !! r)) ls →
    PostOrder m r (concat ls ++ [r]).

(** The first-child chain: the node, then the chain of its first child. *)
Inductive OnDefaultPath (m : gmap Element (list Element))
  : Element → Element → Prop :=
| OnDefaultPath_self (r : Element) : OnDefaultPath m r r
| OnDefaultPath_first (r c e : Element) (l : list Element) :
    m !! r = Some (c :: l) → OnDefaultPath m c e → OnDefaultPath m r e.

(** [child m p c]: [c] is listed under the key [p]. *)
Definition child (m : gmap Element (list Element)) (p c : Element) : Prop :=
  ∃ l, m !! p = Some l ∧ c ∈ l.

(** A parent map is ranked when every child sits strictly below its parent:
    the map is a forest. *)
Definition ranked (m : gmap Element (list Element)) (rank : Element → nat)
  : Prop :=
  ∀ p l c, m !! p = Some l → c ∈ l → rank c < rank p.

(** The scope answers for itself: it is not a shadow root, or its hit test
    already ends in the document's root element. *)
Definition answersAlone (dom : DOM) (x y : Z) (scope : Node) : Prop :=
  isShadowRoot scope = false ∨
  ∃ e, last (elementsFromPoint dom scope x y) = Some e ∧
       documentElement dom = Some e.

(** Every entry of every child list. *)
Definition allChildren (m : gmap Element (list Element)) : list Element :=
  map_to_list m ≫= snd.

(** [chain] lists [e] and its ancestors up to, and without, [r]. *)
Fixpoint descends (m : gmap Element (list Element)) (r e : Element)
    (chain : list Element) : Prop :=
  match chain with
  | [] => e = r
  | a :: chain' => a = e ∧ ∃ p, child m p e ∧ descends m r p chain'
  end.

(** A DOM is layered when a level function strictly decreases along
    [parentNode] and from a shadow root to its host: parent chains and
    shadow nestings are finite. *)
Definition layered (dom : DOM) (level : Node → nat) : Prop :=
  (∀ n p, parentNode dom n = Some p → level p < level n) ∧
  (∀ host, level (ElementNode host) < level (ShadowRootOf host)).

(** The normalized list, when not empty, ends in the document's root element
    and holds it nowhere else (the hit test appends the root element to every
    non-empty answer). *)
Definition endsInRoot (html : Element) (l : list Element) : Prop :=
  l = [] ∨ ∃ l', l = l' ++ [html] ∧ html ∉ l'.

Definition hitTestReachesRoot (dom : DOM) (x y : Z) (html : Element) : Prop :=
  documentElement dom = Some html ∧
  hasOpenShadowRoot dom html = false ∧
  ∀ fuel scope l,
    engineIndependentElementsFromPoint fuel dom x y scope = Ok l →
    endsInRoot html l.

(** The normalized lists follow one stacking order: [pos] grows strictly
    along each of them, from the topmost entry down. *)
Definition stackingOrdered (dom : DOM) (x y : Z) (pos : Element → nat)
  : Prop :=
  ∀ fuel scope l,
    engineIndependentElementsFromPoint fuel dom x y scope = Ok l →
    StronglySorted (λ a b, pos a < pos b) l.

(** What the processed set maintains while the tree is built: no child list
    repeats an element, no element is listed under two keys, and every listed
    element is marked processed. *)
Definition wellKept (st : BuildState) : Prop :=
  (∀ p l, st_elementsByParent st !! p = Some l → NoDup l) ∧
  (∀ p q c, child (st_elementsByParent st) p c →
            child (st_elementsByParent st) q c → p = q) ∧
  (∀ p c, child (st_elementsByParent st) p c → c ∈ processedElements st).

(** ** Pages used as concrete inputs *)

(** [<html><body><containing-shadow-dom-element>], whose shadow tree holds a
    [<shadow-dom-element>], whose shadow tree holds a [<div>]: elements 0 to
    4.  [gecko] selects the engine whose shadow-root hit test stops at the
    shadow boundary. *)
Definition nestedShadowPage (gecko : bool) : DOM :=
  {| documentElement := Some 0;
     elementParentNode := fun e =>
       match e with
       | 0 => Some Document
       | 1 => Some (ElementNode 0)
       | 2 => Some (ElementNode 1)
       | 3 => Some (ShadowRootOf 2)
       | 4 => Some (ShadowRootOf 3)
       | _ => None
       end;
     hasOpenShadowRoot := fun e => match e with 2 | 3 => true | _ => false end;
     elementsFromPoint := fun scope _ _ =>
       match scope with
       | Document => [2; 1; 0]
       | ShadowRootOf 2 => if gecko then [3] else [3; 2; 1; 0]
       | ShadowRootOf 3 => if gecko then [4] else [4; 3; 2; 1; 0]
       | _ => [0]
       end;
     pointerEvents := fun _ => "auto"%string |}.

(** Depth of each node of [nestedShadowPage] below the document. *)
Definition nestedShadowLevel (n : Node) : nat :=
  let elementLevel e :=
    match e with
    | 0 => 1
    | 1 => 2
    | 2 => 3
    | 3 => 5
    | 4 => 7
    | _ => 0
    end in
  match n with
  | Document | OtherNode _ => 0
  | ElementNode e => elementLevel e
  | ShadowRootOf host => S (elementLevel host)
  end.

(** Stacking position of each element of [nestedShadowPage], topmost
    first. *)
Definition nestedShadowPos (e : Element) : nat := 4 - e.

(** [<html><body><shadow-dom-element style="pointer-events: none">] on the
    boundary-stopping engine: elements 0 to 2, the [<div>] in the shadow tree
    is 3. *)
Definition pointerEventsNonePage : DOM :=
  {| documentElement := Some 0;
     elementParentNode := fun e =>
       match e with
       | 0 => Some Document
       | 1 => Some (ElementNode 0)
       | 2 => Some (ElementNode 1)
       | 3 => Some (ShadowRootOf 2)
       | _ => None
       end;
     hasOpenShadowRoot := fun e => match e with 2 => true | _ => false end;
     elementsFromPoint := fun scope _ _ =>
       match scope with
       | Document => [2; 1; 0]
       | ShadowRootOf 2 => [3]
       | _ => []
       end;
     pointerEvents := fun e =>
       match e with 2 => "none"%string | _ => "auto"%string end |}.

(** [<html><body><some-host>] where nothing of the host's shadow tree lies
    under the point, and nothing at all at negative coordinates: elements 0
    to 2; element 7 is a detached host. *)
Definition emptyShadowPage (hostPointerEvents : string) : DOM :=
  {| documentElement := Some 0;
     elementParentNode := fun e =>
       match e with
       | 0 => Some Document
       | 1 => Some (ElementNode 0)
       | 2 => Some (ElementNode 1)
       | _ => None
       end;
     hasOpenShadowRoot := fun e => match e with 2 | 7 => true | _ => false end;
     elementsFromPoint := fun scope x y =>
       match scope with
       | Document => if (x <? 0)%Z || (y <? 0)%Z then [] else [2; 1; 0]
       | _ => []
       end;
     pointerEvents := fun e =>
       match e with 2 => hostPointerEvents | _ => "auto"%string end |}.

(** The page of the dispatch tests: [html] 0, [body] 1, [#container] 2,
    [#lowest] 3, [#inside-lowest] 4, [<shadow-dom-element>] 5 with the
    [<div>] 6 in its shadow tree, [#highest] 7, [#inside-highest] 8. *)
Definition layeredPage : DOM :=
  {| documentElement := Some 0;
     elementParentNode := fun e =>
       match e with
       | 0 => Some Document
       | 1 => Some (ElementNode 0)
       | 2 => Some (ElementNode 1)
       | 3 => Some (ElementNode 2)
       | 4 => Some (ElementNode 3)
       | 5 => Some (ElementNode 2)
       | 6 => Some (ShadowRootOf 5)
       | 7 => Some (ElementNode 2)
       | 8 => Some (ElementNode 7)
       | _ => None
       end;
     hasOpenShadowRoot := fun e => match e with 5 => true | _ => false end;
     elementsFromPoint := fun scope _ _ =>
       match scope with
       | Document => [8; 7; 5; 4; 3; 2; 1; 0]
       | ShadowRootOf 5 => [6]
       | _ => []
       end;
     pointerEvents := fun _ => "auto"%string |}.

(** The tree of [nestedShadowPage], on either engine. *)
Definition nestedTree : gmap Element (list Element) :=
  list_to_map [(0, [1]); (1, [2]); (2, [3]); (3, [4])].

(** The tree the builder returns for [layeredPage] (see
    [layeredPage_tree] below), and the height of each element in it. *)
Definition layeredTree : gmap Element (list Element) :=
  list_to_map
    [(0, [1]); (1, [2]); (2, [7; 5; 3]); (7, [8]); (5, [6]); (3, [4])].

Definition layeredRank (e : Element) : nat :=
  match e with
  | 0 => 4
  | 1 => 3
  | 2 => 2
  | 3 | 5 | 7 => 1
  | _ => 0
  end.

Definition clickInit : MouseEventInit :=
  {| bubbles := true; cancelable := true; clientX := 0; clientY := 0 |}.

(** A click that bubbled to [target]. *)
Definition clickAt (target : option Node) (prevented : bool) : MouseEvent :=
  {| constructor := MouseEventClass; type := "click"%string;
     eventInit := clickInit; defaultPrevented := prevented;
     currentTarget := target; x := 0; y := 0; inPassiveListener := false |}.


(** Listeners that log nothing and cancel the clone delivered to [culprit];
    the world counts the deliveries. *)
Definition cancelAt (culprit : Element) (element : Element) (clone : MouseEvent)
    (w : nat) : nat * bool :=
  (S w, bool_decide (element = culprit)).

(** ** Readings used by the further properties *)

(** [p] is the [parentNode] of [n]. *)
Definition parentNodeOf (dom : DOM) (n p : Node) : Prop :=
  parentNode dom n = Some p.

(** [p] is the [parentElement] of [c]. *)
Definition parentElementOf (dom : DOM) (c p : Element) : Prop :=
  parentElement dom c = Some p.

(** The visibility chain that the step-up loop walks, read off its two
    mutable variables: from the candidate [parent] up through its
    [parentElement]s, then on to the innermost pending shadow host and up
    from there.  [resolves dom potentialParents parent higher r]: the walk
    ends at [r], the first candidate among the potential parents, or at
    [None] when the candidates run out. *)
Inductive resolves (dom : DOM) (potentialParents : gset Element)
  : option Element → list Element → option Element → Prop :=
| resolves_found (p : Element) (higher : list Element) :
    p ∈ potentialParents →
    resolves dom potentialParents (Some p) higher (Some p)
| resolves_up (p : Element) (higher : list Element) (r : option Element) :
    p ∉ potentialParents →
    resolves dom potentialParents (parentElement dom p) higher r →
    resolves dom potentialParents (Some p) higher r
| resolves_host (h : Element) (rest higher : list Element)
    (r : option Element) :
    pop higher = Some (h, rest) →
    resolves dom potentialParents (Some h) rest r →
    resolves dom potentialParents None higher r
| resolves_none (higher : list Element) :
    pop higher = None →
    resolves dom potentialParents None higher None.

(** What the loop does with the outcome of the walk. *)
Definition settle (r : option Element) (element : Element) (st : BuildState)
  : BuildState :=
  match r with
  | Some p => attach p element st
  | None => setRoot element st
  end.

(** [c] occurs in [l] with [p] somewhere behind it. *)
Definition behind (l : list Element) (c p : Element) : Prop :=
  ∃ before after, l = before ++ c :: after ∧ p ∈ after.

(** Listeners watched from outside: [recording dispatchEvent] behaves as
    [dispatchEvent] and logs, next to the world, every delivery: the element
    and the event it was handed. *)
Definition recording {World : Type}
    (dispatchEvent : Element → MouseEvent → World → World * bool)
    (element : Element) (clone : MouseEvent)
    (wl : World * list (Element * MouseEvent))
  : (World * list (Element * MouseEvent)) * bool :=
  let '(w', prevented) := dispatchEvent element clone wl.1 in
  ((w', wl.2 ++ [(element, clone)]), prevented).

(** How far the step-up loop can still walk: the levels left above the
    candidate, and for each pending host the pop and the levels above it. *)
Definition walkCost (level : Node → nat) (parent : option Element)
    (higher : list Element) : nat :=
  match parent with
  | Some p => S (level (ElementNode p))
  | None => 0
  end + sum_list_with (λ h, level (ElementNode h) + 2) higher.

(** The part of a normalized list from some entry on. *)
Definition tailOfQuery (dom : DOM) (x y : Z) (l : list Element) : Prop :=
  ∃ fuel scope before,
    engineIndependentElementsFromPoint fuel dom x y scope = Ok (before ++ l).

(** The shadow hosts not yet entered. *)
Definition pendingHosts (hosts : gset Element) (st : BuildState) : nat :=
  size (hosts ∖ processedShadowRootElements st).

(** A hit test lists descendants first when every listed ancestor of an
    entry lies behind the entry. *)
Definition descendantsFirst (dom : DOM) (l : list Element) : Prop :=
  ∀ before c after a,
    l = before ++ c :: after → tc (parentElementOf dom) c a → a ∈ l →
    a ∈ after.

(** [p] is the nearest ancestor of [c] among the elements of [l]. *)
Definition nearestHitAncestor (dom : DOM) (l : list Element) (c p : Element)
  : Prop :=
  c ∈ l ∧ p ∈ l ∧ tc (parentElementOf dom) c p ∧
  ∀ a, a ∈ l → tc (parentElementOf dom) c a → rtc (parentElementOf dom) p a.

(** A page without shadow roots: [html] 0, [body] 1, [#card] 2 with
    [pointer-events: none], its [#label] 3 holding the [#button] 5, and the
    [#overlay] 4 laid over them.  The card is not hit; its descendants are. *)
Definition overlayPage : DOM :=
  {| documentElement := Some 0;
     elementParentNode := fun e =>
       match e with
       | 0 => Some Document
       | 1 => Some (ElementNode 0)
       | 2 => Some (ElementNode 1)
       | 3 => Some (ElementNode 2)
       | 4 => Some (ElementNode 1)
       | 5 => Some (ElementNode 3)
       | _ => None
       end;
     hasOpenShadowRoot := fun _ => false;
     elementsFromPoint := fun scope _ _ =>
       match scope with
       | Document => [4; 5; 3; 1; 0]
       | _ => []
       end;
     pointerEvents := fun e =>
       match e with 2 => "none"%string | _ => "auto"%string end |}.

(** Depth of each node of [overlayPage] below the document. *)
Definition overlayLevel (n : Node) : nat :=
  let elementLevel e :=
    match e with
    | 0 => 1
    | 1 => 2
    | 2 => 3
    | 3 => 4
    | 4 => 3
    | 5 => 5
    | _ => 0
    end in
  match n with
  | Document | OtherNode _ => 0
  | ElementNode e => elementLevel e
  | ShadowRootOf host => S (elementLevel host)
  end.

(** Stacking position of each element of [overlayPage], topmost first. *)
Definition overlayPos (e : Element) : nat :=
  match e with
  | 4 => 0
  | 5 => 1
  | 3 => 2
  | 1 => 3
  | 0 => 4
  | _ => 5
  end.

(** The tree the builder returns for [overlayPage]. *)
Definition overlayTree : gmap Element (list Element) :=
  list_to_map [(0, [1]); (1, [4; 3]); (3, [5])].

(** The ancestors of an element, nearest first. *)
Fixpoint ancestors (fuel : nat) (dom : DOM) (e : Element) : list Element :=
  match fuel with
  | 0 => []
  | S fuel' =>
      match parentElement dom e with
      | Some p => p :: ancestors fuel' dom p
      | None => []
      end
  end.

(** The computable form of [descendantsFirst]. *)
Definition descendantsFirstCheck (fuel : nat) (dom : DOM) (l : list Element)
  : bool :=
  forallb (λ i,
    match l !! i with
    | Some c =>
        forallb (λ a, bool_decide (a ∈ l → a ∈ drop (S i) l))
          (ancestors fuel dom c)
    | None => true
    end) (seq 0 (length l)).

(** The candidates of the step-up loop in the order it meets them: the
    first candidate and its ancestors, nearest first, then each pending
    shadow host, the innermost (the one added last) first, followed by its
    ancestors. *)
Definition visibilityChain (fuel : nat) (dom : DOM) (parent : option Element)
    (higher : list Element) : list Element :=
  match parent with
  | Some p => p :: ancestors fuel dom p
  | None => []
  end
  ++ (reverse higher ≫= λ host, host :: ancestors fuel dom host).

(** What the root-node error tells: its message, and that the root node of
    some shadow host is neither the document nor a shadow root. *)
Definition rootNodeError (dom : DOM) (msg : string) : Prop :=
  msg = "Expected root node to be a DocumentOrShadowRoot"%string ∧
  ∃ fuel host d,
    findRootNode fuel dom (ElementNode host) = Ok d ∧
    isDocumentOrShadowRoot d = false.

(** * Properties *)

(** ** Normalized point query *)

Lemma bind_Ok {A B} (m : result A) (f : A → result B) (b : B) :
  m ≫= f = Ok b ↔ ∃ a, m = Ok a ∧ f a = Ok b.
Proof.
  destruct m as [a| |]; simpl; split.
  - intros H. exists a. done.
  - intros (a' & [= ->] & H). done.
  - done.
  - intros (? & [=] & _).
  - done.
  - intros (? & [=] & _).
Qed.

Lemma strictEq_true (a b : option Element) :
  strictEq a b = true ↔ ∃ e, a = Some e ∧ b = Some e.
Proof.
  destruct a as [a|], b as [b|]; simpl; split; try done.
  - intros ->%bool_decide_eq_true. eauto.
  - intros (e & [= ->] & [= ->]). by apply bool_decide_eq_true.
  - intros (e & _ & [=]).
  - intros (e & [=] & _).
  - intros (e & [=] & _).
Qed.

Lemma trimHost_spec (dom : DOM) (host : Element) (higher : list Element) :
  trimHost dom host higher =
    if decide (pointerEvents dom host = "none"%string ∧ head higher = Some host)
    then tail higher else higher.
Proof.
  unfold trimHost.
  destruct (String.eqb_spec (pointerEvents dom host) "none") as [Hpe|Hpe].
  - destruct (strictEq (head higher) (Some host)) eqn:Heq.
    + apply strictEq_true in Heq as (e & He & [= <-]).
      rewrite decide_True by done. by destruct higher.
    + rewrite decide_False; [done|]. intros [_ Hh].
      assert (strictEq (head higher) (Some host) = true) as Ht
        by (apply strictEq_true; eauto).
      congruence.
  - rewrite decide_False; [done|]. by intros [? _].
Qed.

Lemma query_alone (fuel : nat) (dom : DOM) (x y : Z) (scope : Node) :
  answersAlone dom x y scope →
  engineIndependentElementsFromPoint (S fuel) dom x y scope
  = Ok (elementsFromPoint dom scope x y).
Proof.
  intros [Hs|He]; simpl.
  - by destruct scope.
  - apply strictEq_true in He. destruct scope; try done. by rewrite He.
Qed.

Lemma query_diverging (fuel : nat) (dom : DOM) (x y : Z) (host : Element) :
  ¬ answersAlone dom x y (ShadowRootOf host) →
  engineIndependentElementsFromPoint (S fuel) dom x y (ShadowRootOf host)
  = higherDom ← findRootNode fuel dom (ElementNode host);
    if negb (isDocumentOrShadowRoot higherDom) then
      Throw "Expected root node to be a DocumentOrShadowRoot"%string
    else
      higherElements ← engineIndependentElementsFromPoint fuel dom x y higherDom;
      Ok (elementsFromPoint dom (ShadowRootOf host) x y
          ++ trimHost dom host higherElements).
Proof.
  intros Hn. simpl.
  destruct (strictEq _ _) eqn:Heq; [|done].
  exfalso. apply Hn. right. by apply strictEq_true.
Qed.

Lemma findRootNode_total (dom : DOM) (level : Node → nat) (fuel : nat)
    (node : Node) :
  layered dom level → level node ≤ fuel →
  ∃ r, findRootNode fuel dom node = Ok r ∧ level r ≤ level node.
Proof.
  intros [Hup _]. revert node.
  induction fuel as [|fuel IH]; intros node Hle; cbn [findRootNode];
    destruct (parentNode dom node) as [p|] eqn:Hp; eauto.
  - apply Hup in Hp. lia.
  - apply Hup in Hp. destruct (IH p) as (r & Hr & Hlr); [lia|].
    exists r. split; [done|lia].
Qed.

Lemma findRootNode_mono (dom : DOM) (fuel fuel' : nat) (node r : Node) :
  findRootNode fuel dom node = Ok r → fuel ≤ fuel' →
  findRootNode fuel' dom node = Ok r.
Proof.
  revert fuel' node. induction fuel as [|fuel IH]; intros fuel' node;
    cbn [findRootNode]; destruct (parentNode dom node) as [p|] eqn:Hp;
    try done.
  - intros H _. destruct fuel'; cbn [findRootNode]; by rewrite Hp.
  - intros H Hle. destruct fuel' as [|fuel']; [lia|].
    cbn [findRootNode]. rewrite Hp. apply IH; [done|lia].
  - intros H _. destruct fuel'; cbn [findRootNode]; by rewrite Hp.
Qed.

Lemma engineIndependentElementsFromPoint_mono (dom : DOM) (x y : Z)
    (fuel fuel' : nat) (scope : Node) (l : list Element) :
  engineIndependentElementsFromPoint fuel dom x y scope = Ok l → fuel ≤ fuel' →
  engineIndependentElementsFromPoint fuel' dom x y scope = Ok l.
Proof.
  revert fuel' scope l. induction fuel as [|fuel IH]; intros fuel' scope l;
    [done|].
  intros H Hle. destruct fuel' as [|fuel']; [lia|]. revert H.
  cbn [engineIndependentElementsFromPoint].
  destruct scope as [|host| |]; try done.
  destruct (negb _); [|done].
  intros (higherDom & Hroot & H)%bind_Ok.
  rewrite (findRootNode_mono _ _ fuel' _ _ Hroot) by lia. simpl.
  destruct (negb (isDocumentOrShadowRoot higherDom)); [done|].
  apply bind_Ok in H as (outer & Hout & H).
  rewrite (IH fuel' _ _ Hout) by lia. done.
Qed.

Lemma engineIndependentElementsFromPoint_completes (dom : DOM)
    (level : Node → nat) (x y : Z) (fuel : nat) (scope : Node) :
  layered dom level → level scope < fuel →
  engineIndependentElementsFromPoint fuel dom x y scope ≠ OutOfFuel.
Proof.
  intros Hlay. revert scope. induction fuel as [|fuel IH]; intros scope Hlt;
    [lia|].
  cbn [engineIndependentElementsFromPoint].
  destruct scope as [|host| |]; try done.
  destruct (negb _); [|done].
  pose proof (proj2 Hlay host) as Hhost.
  destruct (findRootNode_total dom level fuel (ElementNode host) Hlay)
    as (r & -> & Hr); [lia|]. simpl.
  destruct (negb (isDocumentOrShadowRoot r)); [done|].
  specialize (IH r ltac:(lia)).
  by destruct (engineIndependentElementsFromPoint fuel dom x y r).
Qed.

(** C2, as amended.  A scope that is not a shadow root, or whose hit test ends
    in the document's root element, gets the hit test's list unmodified.
    Otherwise the scope is the shadow root of a host, whose root node is
    looked up.  When that node is not a document-or-shadow-root, the error is
    raised.  When it is, it is queried in turn: an error raised by that query
    is the outcome of the call, and when that query returns the outer list,
    the call returns the inner list followed by the outer list, the latter
    without its leading entry when that entry is the host and the host's
    computed pointer-events is none.  On a layered DOM the call always
    completes. *)
Theorem engineIndependentElementsFromPoint_branches
    (fuel : nat) (dom : DOM) (x y : Z) (scope : Node) :
  (answersAlone dom x y scope →
   engineIndependentElementsFromPoint (S fuel) dom x y scope
   = Ok (elementsFromPoint dom scope x y)) ∧
  (¬ answersAlone dom x y scope →
   ∃ host, scope = ShadowRootOf host ∧
     ∀ higherDom,
       findRootNode fuel dom (ElementNode host) = Ok higherDom →
       (isDocumentOrShadowRoot higherDom = false →
        engineIndependentElementsFromPoint (S fuel) dom x y scope
        = Throw "Expected root node to be a DocumentOrShadowRoot"%string) ∧
       (isDocumentOrShadowRoot higherDom = true →
        (∀ msg,
           engineIndependentElementsFromPoint fuel dom x y higherDom
           = Throw msg →
           engineIndependentElementsFromPoint (S fuel) dom x y scope
           = Throw msg) ∧
        (∀ outer,
           engineIndependentElementsFromPoint fuel dom x y higherDom
           = Ok outer →
           engineIndependentElementsFromPoint (S fuel) dom x y scope
           = Ok (elementsFromPoint dom scope x y
                 ++ (if decide (pointerEvents dom host = "none"%string
                                ∧ head outer = Some host)
                     then tail outer else outer))))) ∧
  (∀ level, layered dom level → level scope ≤ fuel →
     engineIndependentElementsFromPoint (S fuel) dom x y scope ≠ OutOfFuel).
Proof.
  split; [apply query_alone|]. split.
  - intros Hn. destruct scope as [|host| |]; try (exfalso; apply Hn; by left).
    exists host. split; [done|]. intros higherDom Hroot.
    rewrite query_diverging by done. rewrite Hroot. simpl. split.
    + by intros ->.
    + intros ->. simpl. split.
      * by intros msg ->.
      * intros outer ->. simpl. by rewrite trimHost_spec.
  - intros level Hlay Hle.
    apply (engineIndependentElementsFromPoint_completes dom level); [done|lia].
Qed.

Lemma nestedShadowPage_layered (gecko : bool) :
  layered (nestedShadowPage gecko) nestedShadowLevel.
Proof.
  split.
  - intros [| |e|] p; try done. simpl.
    destruct e as [|[|[|[|[|e]]]]]; intros [= <-]; simpl; lia.
  - intros host. simpl. lia.
Qed.

Lemma engineIndependentElementsFromPoint_branches_witness :
  engineIndependentElementsFromPoint 7 (nestedShadowPage false) 0 0 (ShadowRootOf 3)
  = Ok [4; 3; 2; 1; 0] ∧
  engineIndependentElementsFromPoint 7 (nestedShadowPage true) 0 0 (ShadowRootOf 3)
  = Ok ([4] ++ [3; 2; 1; 0]) ∧
  engineIndependentElementsFromPoint 7 (emptyShadowPage "auto") 0 0
    (ShadowRootOf 7)
  = Throw "Expected root node to be a DocumentOrShadowRoot"%string ∧
  engineIndependentElementsFromPoint 7 (nestedShadowPage true) 0 0 (ShadowRootOf 3)
  ≠ OutOfFuel.
Proof.
  split; [|split; [|split]].
  - apply (engineIndependentElementsFromPoint_branches 6 (nestedShadowPage false)
             0 0 (ShadowRootOf 3)).
    right. exists 0. split; reflexivity.
  - destruct (engineIndependentElementsFromPoint_branches 6 (nestedShadowPage true)
                0 0 (ShadowRootOf 3)) as (_ & H & _).
    destruct H as (host & Hhost & H).
    + intros [?|(e & He & Hd)]; [done|]. simpl in He, Hd. congruence.
    + injection Hhost as <-.
      destruct (H (ShadowRootOf 2) eq_refl) as [_ Hreturns].
      apply (proj2 (Hreturns eq_refl) [3; 2; 1; 0]). reflexivity.
  - destruct (engineIndependentElementsFromPoint_branches 6
                (emptyShadowPage "auto") 0 0 (ShadowRootOf 7)) as (_ & H & _).
    destruct H as (host & Hhost & H).
    + intros [?|(e & He & Hd)]; [done|]. simpl in He. congruence.
    + injection Hhost as <-.
      destruct (H (ElementNode 7) eq_refl) as [Hraises _].
      apply Hraises. reflexivity.
  - destruct (engineIndependentElementsFromPoint_branches 6 (nestedShadowPage true)
                0 0 (ShadowRootOf 3)) as (_ & _ & H).
    apply (H nestedShadowLevel (nestedShadowPage_layered true)). simpl. lia.
Defined.

(** The outer list is not always concatenated as it is: on the page of the
    [pointer-events: none] test the query from inside the host's shadow root
    yields the inner [<div>], [body] and [html], although the outer list leads
    with the host.  And where the host of the scope is detached, there is no
    parent scope to query: the call raises. *)
Lemma engineIndependentElementsFromPoint_plain_concat_fails :
  (let dom := pointerEventsNonePage in
   let inner := elementsFromPoint dom (ShadowRootOf 2) 0 0 in
   ¬ answersAlone dom 0 0 (ShadowRootOf 2) ∧
   findRootNode 4 dom (ElementNode 2) = Ok Document ∧
   ∃ outer result,
     engineIndependentElementsFromPoint 4 dom 0 0 Document = Ok outer ∧
     engineIndependentElementsFromPoint 5 dom 0 0 (ShadowRootOf 2) = Ok result ∧
     result = [3; 1; 0] ∧ result ≠ inner ++ outer) ∧
  (let dom := emptyShadowPage "auto" in
   ¬ answersAlone dom 0 0 (ShadowRootOf 7) ∧
   findRootNode 4 dom (ElementNode 7) = Ok (ElementNode 7) ∧
   engineIndependentElementsFromPoint 5 dom 0 0 (ShadowRootOf 7)
   = Throw "Expected root node to be a DocumentOrShadowRoot"%string).
Proof.
  split; simpl.
  - split; [|split; [reflexivity|]].
    + intros [?|(e & He & Hd)]; [done|]. simpl in He, Hd. congruence.
    + exists [2; 1; 0], [3; 1; 0]. repeat split; try reflexivity. discriminate.
  - split; [|split; reflexivity].
    intros [?|(e & He & Hd)]; [done|]. simpl in He. congruence.
Qed.

(** C5.  In the recursive branch the host is dropped from the front of the
    outer list exactly when its computed pointer-events is none and it is the
    first entry of that list; in every other case the outer list is
    concatenated unmodified. *)
Theorem engineIndependentElementsFromPoint_drops_inert_host
    (fuel : nat) (dom : DOM) (x y : Z) (host : Element)
    (higherDom : Node) (outer : list Element) :
  ¬ answersAlone dom x y (ShadowRootOf host) →
  findRootNode fuel dom (ElementNode host) = Ok higherDom →
  isDocumentOrShadowRoot higherDom = true →
  engineIndependentElementsFromPoint fuel dom x y higherDom = Ok outer →
  let inner := elementsFromPoint dom (ShadowRootOf host) x y in
  let result :=
    engineIndependentElementsFromPoint (S fuel) dom x y (ShadowRootOf host) in
  (pointerEvents dom host = "none"%string → head outer = Some host →
   ∃ rest, outer = host :: rest ∧ result = Ok (inner ++ rest)) ∧
  (pointerEvents dom host ≠ "none"%string ∨ head outer ≠ Some host →
   result = Ok (inner ++ outer)).
Proof.
  intros Hn Hroot Hok Hout inner result. subst inner result.
  rewrite query_diverging by done.
  rewrite Hroot. simpl. rewrite Hok. simpl. rewrite Hout. simpl.
  rewrite trimHost_spec. split.
  - intros Hpe Hhd. rewrite decide_True by done.
    destruct outer as [|e rest]; [done|]. injection Hhd as ->. eauto.
  - intros Hor. rewrite decide_False; [done|]. intros [??]. by destruct Hor.
Qed.

Lemma engineIndependentElementsFromPoint_drops_inert_host_witness :
  engineIndependentElementsFromPoint 5 pointerEventsNonePage 0 0 (ShadowRootOf 2)
  = Ok ([3] ++ [1; 0]) ∧
  engineIndependentElementsFromPoint 6 (nestedShadowPage true) 0 0 (ShadowRootOf 2)
  = Ok ([3] ++ [2; 1; 0]).
Proof.
  split.
  - assert (¬ answersAlone pointerEventsNonePage 0 0 (ShadowRootOf 2)) as Hn.
    { intros [?|(e & He & Hd)]; [done|]. simpl in He, Hd. congruence. }
    destruct (engineIndependentElementsFromPoint_drops_inert_host
                4 pointerEventsNonePage 0 0 2 Document [2; 1; 0]
                Hn eq_refl eq_refl eq_refl) as [H _].
    destruct (H eq_refl eq_refl) as (rest & Hrest & Hres).
    injection Hrest as <-. exact Hres.
  - assert (¬ answersAlone (nestedShadowPage true) 0 0 (ShadowRootOf 2)) as Hn.
    { intros [?|(e & He & Hd)]; [done|]. simpl in He, Hd. congruence. }
    destruct (engineIndependentElementsFromPoint_drops_inert_host
                5 (nestedShadowPage true) 0 0 2 Document [2; 1; 0]
                Hn eq_refl eq_refl eq_refl) as [_ H].
    apply H. left. discriminate.
Defined.

(** ** Errors and early returns *)

Lemma isDocumentOrShadowRoot_true (value : Node) :
  isDocumentOrShadowRoot value = true ↔
  value = Document ∨ ∃ host, value = ShadowRootOf host.
Proof.
  unfold isDocumentOrShadowRoot. destruct value; simpl; split; try done;
    try (intros [?|[? ?]]; done); eauto.
Qed.

(** C10, as amended.  A shadow-root scope whose hit test is empty always takes
    the divergence branch, also when the document has no root element.  The
    call raises when the root node of the host is not a
    document-or-shadow-root.  When it is, that node is queried: an error
    raised by that query is the outcome of the call, and when that query
    returns the outer list the call returns it (less a leading host with
    pointer-events none) after the empty inner list. *)
Theorem engineIndependentElementsFromPoint_empty_inner
    (fuel : nat) (dom : DOM) (x y : Z) (host : Element) (higherDom : Node) :
  elementsFromPoint dom (ShadowRootOf host) x y = [] →
  findRootNode fuel dom (ElementNode host) = Ok higherDom →
  let result :=
    engineIndependentElementsFromPoint (S fuel) dom x y (ShadowRootOf host) in
  ¬ answersAlone dom x y (ShadowRootOf host) ∧
  (isDocumentOrShadowRoot higherDom = false →
   result = Throw "Expected root node to be a DocumentOrShadowRoot"%string) ∧
  (isDocumentOrShadowRoot higherDom = true →
   (∀ msg,
      engineIndependentElementsFromPoint fuel dom x y higherDom = Throw msg →
      result = Throw msg) ∧
   (∀ outer,
      engineIndependentElementsFromPoint fuel dom x y higherDom = Ok outer →
      result = Ok ([] ++ (if decide (pointerEvents dom host = "none"%string
                                     ∧ head outer = Some host)
                          then tail outer else outer)))).
Proof.
  intros Hempty Hroot result.
  assert (¬ answersAlone dom x y (ShadowRootOf host)) as Hn.
  { intros [?|(e & He & _)]; [done|]. by rewrite Hempty in He. }
  subst result. rewrite query_diverging by done.
  rewrite Hroot, Hempty. simpl. split; [done|]. split.
  - by intros ->.
  - intros ->. simpl. split.
    + by intros msg ->.
    + intros outer ->. simpl. by rewrite trimHost_spec.
Qed.

Lemma engineIndependentElementsFromPoint_empty_inner_witness :
  engineIndependentElementsFromPoint 5 (emptyShadowPage "auto") 0 0 (ShadowRootOf 2)
  = Ok ([] ++ [2; 1; 0]) ∧
  engineIndependentElementsFromPoint 5 (emptyShadowPage "auto") 0 0 (ShadowRootOf 7)
  = Throw "Expected root node to be a DocumentOrShadowRoot"%string.
Proof.
  split.
  - destruct (engineIndependentElementsFromPoint_empty_inner
                4 (emptyShadowPage "auto") 0 0 2 Document eq_refl eq_refl)
      as (_ & _ & H).
    apply (proj2 (H eq_refl) [2; 1; 0]). reflexivity.
  - destruct (engineIndependentElementsFromPoint_empty_inner
                4 (emptyShadowPage "auto") 0 0 7 (ElementNode 7)
                eq_refl eq_refl) as (_ & H & _).
    apply H. reflexivity.
Defined.

(** An empty inner list does not always give back the outer list.  For the
    shadow root of a detached host, which has nothing under any point, the
    call raises; and where the outer list leads with a host whose
    pointer-events is none, the result lacks that host. *)
Lemma engineIndependentElementsFromPoint_empty_inner_not_outer :
  (elementsFromPoint (emptyShadowPage "auto") (ShadowRootOf 7) (-1) (-1) = [] ∧
   findRootNode 4 (emptyShadowPage "auto") (ElementNode 7) = Ok (ElementNode 7) ∧
   engineIndependentElementsFromPoint 5 (emptyShadowPage "auto") (-1) (-1)
     (ShadowRootOf 7)
   = Throw "Expected root node to be a DocumentOrShadowRoot"%string) ∧
  (elementsFromPoint (emptyShadowPage "none") (ShadowRootOf 2) 0 0 = [] ∧
   findRootNode 4 (emptyShadowPage "none") (ElementNode 2) = Ok Document ∧
   engineIndependentElementsFromPoint 4 (emptyShadowPage "none") 0 0 Document
   = Ok [2; 1; 0] ∧
   engineIndependentElementsFromPoint 5 (emptyShadowPage "none") 0 0
     (ShadowRootOf 2)
   = Ok [1; 0]).
Proof. repeat split. Qed.

Section RedispatchGuards.
Context {World : Type}.
Context (dispatchEvent : Element → MouseEvent → World → World * bool).
Context (mouseEventInitDictBuilder : MouseEvent → MouseEventInit).

Abbreviation dispatch :=
  (dispatchToUnderlyingElements dispatchEvent mouseEventInitDictBuilder).

Lemma dispatch_prevented fuel dom event w :
  defaultPrevented event = true →
  dispatch fuel dom event w
  = Ok {| world := w; dispatched := []; original := event |}.
Proof. intros H. unfold dispatchToUnderlyingElements. by rewrite H. Qed.

Lemma dispatch_not_element fuel dom event w :
  defaultPrevented event = false →
  isElement (currentTarget event) = None →
  dispatch fuel dom event w
  = Throw "Expected event.currentTarget to be an Element"%string.
Proof.
  intros H1 H2. unfold dispatchToUnderlyingElements. by rewrite H1, H2.
Qed.

Lemma dispatch_resolved fuel dom event w target d :
  defaultPrevented event = false →
  isElement (currentTarget event) = Some target →
  findRootNode fuel dom (ElementNode target) = Ok d →
  dispatch fuel dom event w
  = if negb (isDocumentOrShadowRoot d) then
      Throw "Expected root node to be a DocumentOrShadowRoot"%string
    else
      tree ← elementTreeFromPoint fuel dom (x event) (y event) d;
      match tree with
      | None => Ok {| world := w; dispatched := []; original := event |}
      | Some tree =>
          subtree ← flattenElementTree fuel (elementsByParent tree) target;
          defaultPathElementSet ←
            getDefaultPathElementSet fuel (elementsByParent tree) target;
          Ok (dispatchLoop dispatchEvent defaultPathElementSet event
                (type event)
                (setBubbles false (mouseEventInitDictBuilder event))
                subtree w)
      end.
Proof.
  intros H1 H2 H3. unfold dispatchToUnderlyingElements.
  by rewrite H1, H2, H3.
Qed.

(** C8.  Whenever a scope is resolved and is neither the document nor a
    shadow root, an error is raised: by the point query in its recursive
    branch, when the root node of the scope's host is no such node, and by
    the redispatch listener, when the root node found from the current
    target is no such node.  The check accepts the document and shadow
    roots and nothing else. *)
Theorem unresolvable_scope_raises (fuel : nat) (dom : DOM) (d : Node) :
  isDocumentOrShadowRoot d = false →
  (∀ x y host,
     ¬ answersAlone dom x y (ShadowRootOf host) →
     findRootNode fuel dom (ElementNode host) = Ok d →
     engineIndependentElementsFromPoint (S fuel) dom x y (ShadowRootOf host)
     = Throw "Expected root node to be a DocumentOrShadowRoot"%string) ∧
  (∀ event w target,
     defaultPrevented event = false →
     currentTarget event = Some (ElementNode target) →
     findRootNode fuel dom (ElementNode target) = Ok d →
     dispatch fuel dom event w
     = Throw "Expected root node to be a DocumentOrShadowRoot"%string) ∧
  (∀ value,
     isDocumentOrShadowRoot value = true ↔
     value = Document ∨ ∃ host, value = ShadowRootOf host).
Proof.
  intros Hd. split; [|split].
  - intros x y host Hn Hroot. rewrite query_diverging by done.
    rewrite Hroot. simpl. by rewrite Hd.
  - intros event w ct Hp Hct Hroot.
    rewrite (dispatch_resolved _ _ _ _ ct d); try done.
    + by rewrite Hd.
    + by rewrite Hct.
  - apply isDocumentOrShadowRoot_true.
Qed.

(** C9, as amended.  An event already marked default-prevented makes the
    listener return at once, whatever its current target: nothing is looked
    up, no tree is built and nothing is dispatched.  Otherwise a current
    target that is not an element raises an error. *)
Theorem dispatchToUnderlyingElements_guards
    (fuel : nat) (dom : DOM) (event : MouseEvent) (w : World) :
  (defaultPrevented event = true →
   dispatch fuel dom event w
   = Ok {| world := w; dispatched := []; original := event |}) ∧
  (defaultPrevented event = false →
   isElement (currentTarget event) = None →
   dispatch fuel dom event w
   = Throw "Expected event.currentTarget to be an Element"%string).
Proof.
  split; [apply dispatch_prevented | apply dispatch_not_element].
Qed.
End RedispatchGuards.

Lemma unresolvable_scope_raises_witness :
  engineIndependentElementsFromPoint 5 (emptyShadowPage "auto") 0 0
    (ShadowRootOf 7)
  = Throw "Expected root node to be a DocumentOrShadowRoot"%string ∧
  dispatchToUnderlyingElements (cancelAt 100) eventInit 4
    (emptyShadowPage "auto") (clickAt (Some (ElementNode 7)) false) 0
  = Throw "Expected root node to be a DocumentOrShadowRoot"%string.
Proof.
  destruct (unresolvable_scope_raises (cancelAt 100) eventInit 4
              (emptyShadowPage "auto") (ElementNode 7) eq_refl)
    as (Hquery & Hdispatch & _).
  split.
  - apply Hquery; [|reflexivity].
    intros [?|(e & He & _)]; [done|]. simpl in He. congruence.
  - apply (Hdispatch _ 0 7); reflexivity.
Defined.

Lemma dispatchToUnderlyingElements_guards_witness :
  dispatchToUnderlyingElements (cancelAt 100) eventInit 0 layeredPage
    (clickAt (Some (ElementNode 2)) true) 0
  = Ok {| world := 0; dispatched := [];
          original := clickAt (Some (ElementNode 2)) true |} ∧
  dispatchToUnderlyingElements (cancelAt 100) eventInit 5 layeredPage
    (clickAt (Some Document) false) 0
  = Throw "Expected event.currentTarget to be an Element"%string.
Proof.
  split.
  - apply (dispatchToUnderlyingElements_guards (cancelAt 100) eventInit 0
             layeredPage (clickAt (Some (ElementNode 2)) true) 0).
    reflexivity.
  - apply (dispatchToUnderlyingElements_guards (cancelAt 100) eventInit 5
             layeredPage (clickAt (Some Document) false) 0); reflexivity.
Defined.

(** A current target that is not an element does not always raise: a click
    that reached a listener on [document] with its default already prevented
    returns silently. *)
Lemma dispatchToUnderlyingElements_non_element_silent :
  isElement (currentTarget (clickAt (Some Document) true)) = None ∧
  dispatchToUnderlyingElements (cancelAt 100) eventInit 5 layeredPage
    (clickAt (Some Document) true) 0
  = Ok {| world := 0; dispatched := [];
          original := clickAt (Some Document) true |}.
Proof. split; reflexivity. Qed.

(** ** Tree builder: no element under the point *)

(** C6.  When the normalized query of the top scope is empty, no root is ever
    established and [elementTreeFromPoint] returns [null]. *)
Theorem elementTreeFromPoint_null (fuel : nat) (dom : DOM) (x y : Z)
    (topDocumentOrShadowRoot : Node) :
  engineIndependentElementsFromPoint fuel dom x y topDocumentOrShadowRoot = Ok [] →
  recurse fuel dom x y topDocumentOrShadowRoot [] initialState = Ok initialState ∧
  elementTreeFromPoint fuel dom x y topDocumentOrShadowRoot = Ok None.
Proof.
  intros H. unfold elementTreeFromPoint.
  destruct fuel as [|fuel]; [done|].
  cbn [recurse]. rewrite H. done.
Qed.

Lemma elementTreeFromPoint_null_witness :
  elementTreeFromPoint 5 (emptyShadowPage "auto") (-1) (-1) Document = Ok None.
Proof.
  apply (elementTreeFromPoint_null 5 (emptyShadowPage "auto") (-1) (-1)
           Document).
  reflexivity.
Defined.

(** ** Flattening *)

Lemma flatMapM_Ok {A B} (f : A → result (list B)) (l : list A) (r : list B) :
  flatMapM f l = Ok r ↔
  ∃ ls, Forall2 (λ a bs, f a = Ok bs) l ls ∧ r = concat ls.
Proof.
  revert r. induction l as [|a l IH]; intros r; simpl.
  - split.
    + intros [= <-]. exists []. split; [constructor|done].
    + intros (ls & Hls & ->). by inversion Hls.
  - rewrite bind_Ok. split.
    + intros (bs & Hbs & Hrest). apply bind_Ok in Hrest as (rest & Hrest & [= <-]).
      apply IH in Hrest as (ls & Hls & ->).
      exists (bs :: ls). split; [by constructor|done].
    + intros (ls & Hls & ->). inversion Hls as [|? bs ? ls' Hbs Hls']; subst.
      exists bs. split; [done|]. apply bind_Ok. exists (concat ls').
      split; [|done]. apply IH. eauto.
Qed.

Lemma flatMapM_total {A B} (f : A → result (list B)) (l : list A) :
  (∀ a, a ∈ l → ∃ bs, f a = Ok bs) → ∃ r, flatMapM f l = Ok r.
Proof.
  induction l as [|a l IH]; intros H; simpl; [eauto|].
  destruct (H a) as [bs ->]; [left|]. simpl.
  destruct IH as [r ->]; [|simpl; eauto].
  intros a' Ha'. apply H. by right.
Qed.

Lemma flattenElementTree_Ok (fuel : nat) (m : gmap Element (list Element))
    (root : Element) (flat : list Element) :
  flattenElementTree (S fuel) m root = Ok flat ↔
  ∃ ls, Forall2 (λ c lc, flattenElementTree fuel m c = Ok lc)
          (default [] (m !! root)) ls
        ∧ flat = concat ls ++ [root].
Proof.
  cbn [flattenElementTree]. rewrite bind_Ok. split.
  - intros (children & Hc & [= <-]). apply flatMapM_Ok in Hc as (ls & Hls & ->).
    eauto.
  - intros (ls & Hls & ->). exists (concat ls). split; [|done].
    apply flatMapM_Ok. eauto.
Qed.

Lemma flattenElementTree_PostOrder (fuel : nat)
    (m : gmap Element (list Element)) (root : Element) (flat : list Element) :
  flattenElementTree fuel m root = Ok flat → PostOrder m root flat.
Proof.
  revert root flat. induction fuel as [|fuel IH]; intros root flat; [done|].
  intros (ls & Hls & ->)%flattenElementTree_Ok. constructor.
  eapply Forall2_impl; [exact Hls|]. intros c lc. apply IH.
Qed.

Lemma flattenElementTree_total (m : gmap Element (list Element))
    (rank : Element → nat) (fuel : nat) (root : Element) :
  ranked m rank → rank root < fuel →
  ∃ flat, flattenElementTree fuel m root = Ok flat.
Proof.
  intros Hrank. revert root. induction fuel as [|fuel IH]; intros root Hlt; [lia|].
  cbn [flattenElementTree].
  destruct (flatMapM_total (flattenElementTree fuel m) (default [] (m !! root)))
    as [children ->]; [|simpl; eauto].
  intros c Hc. apply IH.
  destruct (m !! root) as [l|] eqn:Hl; simpl in Hc; [|by inversion Hc].
  specialize (Hrank root l c Hl Hc). lia.
Qed.

Lemma flattenElementTree_mono (m : gmap Element (list Element))
    (fuel fuel' : nat) (root : Element) (flat : list Element) :
  flattenElementTree fuel m root = Ok flat → fuel ≤ fuel' →
  flattenElementTree fuel' m root = Ok flat.
Proof.
  revert fuel' root flat.
  induction fuel as [|fuel IH]; intros fuel' root flat; [done|].
  intros (ls & Hls & ->)%flattenElementTree_Ok Hle.
  destruct fuel' as [|fuel']; [lia|].
  apply flattenElementTree_Ok. exists ls. split; [|done].
  eapply Forall2_impl; [exact Hls|]. intros c lc Hc. apply IH; [done|lia].
Qed.

Lemma PostOrder_returned (m : gmap Element (list Element)) (root : Element)
    (flat : list Element) :
  PostOrder m root flat → ∃ fuel, flattenElementTree fuel m root = Ok flat.
Proof.
  revert root flat. fix IH 3. intros root flat [r ls Hls].
  assert (∃ fuel, Forall2 (λ c lc, flattenElementTree fuel m c = Ok lc)
                    (default [] (m !! r)) ls) as [fuel Hfuel].
  { revert Hls. generalize (default [] (m !! r)). revert ls.
    fix IHl 3. intros ls kids [|c lc kids' ls' Hc Hrest].
    - exists 0. constructor.
    - destruct (IH _ _ Hc) as [f1 H1].
      destruct (IHl _ _ Hrest) as [f2 H2].
      exists (f1 `max` f2). constructor.
      + eapply flattenElementTree_mono; [exact H1|lia].
      + eapply Forall2_impl; [exact H2|]. intros c' lc' Hc'.
        eapply flattenElementTree_mono; [exact Hc'|lia]. }
  exists (S fuel). apply flattenElementTree_Ok. eauto.
Qed.

(** C7.  [flattenElementTree] returns the depth-first post-order sequence:
    the flattenings of the root's children, in their stored order,
    concatenated and followed by the root itself.  It returns that sequence
    whenever there is one, which is the case on every map that is a forest,
    and a root without an entry flattens to the list holding just itself. *)
Theorem flattenElementTree_post_order (m : gmap Element (list Element))
    (root : Element) :
  (∀ flat, PostOrder m root flat ↔
           ∃ fuel, flattenElementTree fuel m root = Ok flat) ∧
  (∀ fuel flat,
     flattenElementTree (S fuel) m root = Ok flat ↔
     ∃ ls, Forall2 (λ c lc, flattenElementTree fuel m c = Ok lc)
             (default [] (m !! root)) ls
           ∧ flat = concat ls ++ [root]) ∧
  (∀ rank fuel, ranked m rank → rank root < fuel →
     ∃ flat, flattenElementTree fuel m root = Ok flat ∧ PostOrder m root flat) ∧
  (∀ flat flat', PostOrder m root flat → PostOrder m root flat' → flat = flat') ∧
  (∀ fuel, m !! root = None → flattenElementTree (S fuel) m root = Ok [root]).
Proof.
  split; [|split; [|split; [|split]]].
  - intros flat. split; [apply PostOrder_returned|].
    intros [fuel H]. by eapply flattenElementTree_PostOrder.
  - intros fuel flat. apply flattenElementTree_Ok.
  - intros rank fuel Hrank Hlt.
    destruct (flattenElementTree_total m rank fuel root Hrank Hlt) as [flat H].
    exists flat. split; [done|]. by eapply flattenElementTree_PostOrder.
  - intros flat flat' [f H]%PostOrder_returned [f' H']%PostOrder_returned.
    apply (flattenElementTree_mono _ _ (f `max` f')) in H; [|lia].
    apply (flattenElementTree_mono _ _ (f `max` f')) in H'; [|lia].
    congruence.
  - intros fuel Hnone. apply flattenElementTree_Ok. exists [].
    rewrite Hnone. split; [constructor|done].
Qed.

Lemma ranked_check (m : gmap Element (list Element)) (rank : Element → nat) :
  map_Forall (λ p l, Forall (λ c, rank c < rank p) l) m → ranked m rank.
Proof.
  intros H p l c Hl Hc. specialize (H p l Hl).
  rewrite Forall_forall in H. by apply H.
Qed.

Lemma layeredTree_ranked : ranked layeredTree layeredRank.
Proof. apply ranked_check. apply (bool_decide_unpack _). by vm_compute. Qed.

Lemma flattenElementTree_post_order_witness :
  flattenElementTree 3 layeredTree 2 = Ok [8; 7; 6; 5; 4; 3; 2] ∧
  PostOrder layeredTree 2 [8; 7; 6; 5; 4; 3; 2] ∧
  flattenElementTree 3 layeredTree 8 = Ok [8].
Proof.
  destruct (flattenElementTree_post_order layeredTree 2)
    as (_ & _ & Hranked & _ & _).
  destruct (Hranked layeredRank 3 layeredTree_ranked) as (flat & Hflat & Hpo);
    [simpl; lia|].
  assert (flat = [8; 7; 6; 5; 4; 3; 2]) as ->.
  { vm_compute in Hflat. by injection Hflat. }
  split; [done|]. split; [done|].
  destruct (flattenElementTree_post_order layeredTree 8)
    as (_ & _ & _ & _ & Hleaf).
  apply Hleaf. by vm_compute.
Defined.

(** ** The default path *)

Lemma firstChild_Some (m : gmap Element (list Element)) (r c : Element) :
  (m !! r) ≫= head = Some c ↔ ∃ l, m !! r = Some (c :: l).
Proof.
  destruct (m !! r) as [[|c' l]|]; simpl; split; try done.
  - intros (l & [=]).
  - intros [= ->]. eauto.
  - by intros (l' & [= -> ->]).
  - intros (l & [=]).
Qed.

Lemma OnDefaultPath_inv (m : gmap Element (list Element)) (r e : Element) :
  OnDefaultPath m r e ↔
  e = r ∨ ∃ c, (m !! r) ≫= head = Some c ∧ OnDefaultPath m c e.
Proof.
  split.
  - intros [|? c ? l Hl Hc]; [by left|]. right. exists c. split; [|done].
    apply firstChild_Some. eauto.
  - intros [->|(c & [l Hl]%firstChild_Some & Hc)]; [constructor|].
    by econstructor.
Qed.

Lemma getDefaultPathElementSet_spec (fuel : nat)
    (m : gmap Element (list Element)) (r : Element) (dp : gset Element) :
  getDefaultPathElementSet fuel m r = Ok dp →
  ∀ e, e ∈ dp ↔ OnDefaultPath m r e.
Proof.
  revert r dp. induction fuel as [|fuel IH]; intros r dp; [done|].
  cbn [getDefaultPathElementSet]. intros (sub & Hsub & [= <-])%bind_Ok e.
  rewrite OnDefaultPath_inv, elem_of_union, elem_of_singleton.
  destruct ((m !! r) ≫= head) as [c|].
  - rewrite (IH _ _ Hsub). split; [|by intros [?|(? & [= <-] & ?)]; eauto].
    intros [?|?]; eauto.
  - injection Hsub as <-. split; [|by intros [?|(? & [=] & _)]; eauto].
    intros [?|?]; [by left|set_solver].
Qed.

Lemma getDefaultPathElementSet_total (fuel : nat)
    (m : gmap Element (list Element)) (r : Element) (flat : list Element) :
  flattenElementTree fuel m r = Ok flat →
  ∃ dp, getDefaultPathElementSet fuel m r = Ok dp.
Proof.
  revert r flat. induction fuel as [|fuel IH]; intros r flat; [done|].
  intros (ls & Hls & _)%flattenElementTree_Ok. cbn [getDefaultPathElementSet].
  destruct ((m !! r) ≫= head) as [c|] eqn:Hc; [|simpl; eauto].
  apply firstChild_Some in Hc as [l Hl]. rewrite Hl in Hls. simpl in Hls.
  inversion Hls as [|? lc ? ? Hflat _]; subst.
  destruct (IH _ _ Hflat) as [sub ->]. simpl. eauto.
Qed.

(** ** Tree builder: every element at most once *)

Lemma child_addToKeyedList (m : gmap Element (list Element))
    (parent element p c : Element) :
  child (addToKeyedList m parent element) p c ↔
  child m p c ∨ (p = parent ∧ c = element).
Proof.
  unfold child, addToKeyedList. destruct (decide (p = parent)) as [->|Hne].
  - rewrite lookup_insert_eq. split.
    + intros (l & [= <-] & [Hc|Hc%list_elem_of_singleton]%elem_of_app);
        [left|by right].
      destruct (m !! parent) as [old|]; simpl in Hc; [eauto|by inversion Hc].
    + intros [(l & Hl & Hc)|[_ ->]]; eexists; (split; [done|]);
        apply elem_of_app; [left|right; by apply list_elem_of_singleton].
      by rewrite Hl.
  - rewrite lookup_insert_ne by done. split; [by left|].
    by intros [?|[? _]].
Qed.

Lemma initialState_wellKept : wellKept initialState.
Proof.
  split; [|split]; simpl.
  - intros p l. by rewrite lookup_empty.
  - intros p q c (l & Hl & _). by rewrite lookup_empty in Hl.
  - intros p c (l & Hl & _). by rewrite lookup_empty in Hl.
Qed.

Lemma attach_wellKept (parent element : Element) (st : BuildState) :
  wellKept st → element ∉ processedElements st →
  wellKept (attach parent element st).
Proof.
  intros (Hnodup & Huniq & Hproc) Hfresh.
  assert (∀ p, ¬ child (st_elementsByParent st) p element) as Hnew.
  { intros p Hc. apply Hfresh. by eapply Hproc. }
  split; [|split]; simpl.
  - intros p l. unfold addToKeyedList.
    destruct (decide (p = parent)) as [->|Hne].
    + rewrite lookup_insert_eq. intros [= <-]. apply NoDup_app.
      split; [|split].
      * destruct (st_elementsByParent st !! parent) as [old|] eqn:Hold; simpl.
        -- by eapply Hnodup.
        -- constructor.
      * intros c Hc ->%list_elem_of_singleton. apply (Hnew parent).
        destruct (st_elementsByParent st !! parent) as [old|] eqn:Hold;
          simpl in Hc; [|by inversion Hc].
        by exists old.
      * apply NoDup_singleton.
    + rewrite lookup_insert_ne by done. apply Hnodup.
  - intros p q c [Hp|[-> ->]]%child_addToKeyedList
                 [Hq|[-> Hc]]%child_addToKeyedList.
    + by eapply Huniq.
    + subst c. by destruct (Hnew p).
    + by destruct (Hnew q).
    + done.
  - intros p c [Hc|[_ ->]]%child_addToKeyedList.
    + apply elem_of_union. right. by eapply Hproc.
    + apply elem_of_union. left. by apply elem_of_singleton.
Qed.

(** How the step-up loop ends: with the element attached under a potential
    parent, or with the element as the root. *)
Lemma stepUp_Ok (fuel : nat) (dom : DOM) (potentialParents : gset Element)
    (element : Element) (parent : option Element) (higher : list Element)
    (st st' : BuildState) :
  stepUp fuel dom potentialParents element parent higher st = Ok st' →
  (∃ p, p ∈ potentialParents ∧ st' = attach p element st) ∨
  st' = setRoot element st.
Proof.
  revert parent higher. induction fuel as [|fuel IH]; intros parent higher;
    cbn [stepUp]; destruct parent as [p|].
  - destruct (decide (p ∈ potentialParents)); [|done].
    intros [= <-]. left. eauto.
  - destruct (pop higher) as [[p rest]|]; [done|]. intros [= <-]. by right.
  - destruct (decide (p ∈ potentialParents)); [|apply IH].
    intros [= <-]. left. eauto.
  - destruct (pop higher) as [[p rest]|]; [apply IH|]. intros [= <-]. by right.
Qed.

Section BuildInvariant.
(** An invariant [Inv] of the build state, kept by the three updates; the
    attachment may rely on the element being unprocessed and on what [Seen]
    says of the part of the list from the element on. *)
Context (Inv : BuildState → Prop) (Seen : list Element → Prop).
Context (Seen_tail : ∀ e rest, Seen (e :: rest) → Seen rest).
Context (Inv_setRoot : ∀ e st, Inv st → Inv (setRoot e st)).
Context (Inv_markShadowRoot : ∀ e st, Inv st → Inv (markShadowRoot e st)).
Context (Inv_attach : ∀ p e rest st,
           Inv st → e ∉ processedElements st → p ∈ rest → Seen (e :: rest) →
           Inv (attach p e st)).

Lemma forEachElement_invariant
    (rec : Node → list Element → BuildState → result BuildState)
    (fuel : nat) (dom : DOM) (higher elements : list Element)
    (st st' : BuildState) :
  (∀ scope hs s s', rec scope hs s = Ok s' → Inv s → Inv s') →
  forEachElement rec fuel dom higher elements st = Ok st' →
  Seen elements → Inv st → Inv st'.
Proof.
  intros Hrec. revert st.
  induction elements as [|element rest IH]; intros st; cbn [forEachElement].
  - by intros [= <-].
  - intros Hrun Hseen Hinv. pose proof (Seen_tail _ _ Hseen) as Hrest.
    destruct (decide (element ∈ processedElements st)) as [|Hfresh];
      [by eapply IH|].
    destruct (hasOpenShadowRoot dom element && _).
    + apply bind_Ok in Hrun as (st1 & Hst1 & Hrun).
      eapply IH; [done..|]. eapply Hrec; [done|]. by apply Inv_markShadowRoot.
    + apply bind_Ok in Hrun as (st1 & Hst1 & Hrun).
      eapply IH; [done..|].
      apply stepUp_Ok in Hst1 as [(p & Hp & ->)| ->]; [|by apply Inv_setRoot].
      eapply Inv_attach; [done..| |done]. by apply elem_of_list_to_set in Hp.
Qed.

Lemma recurse_invariant (fuel : nat) (dom : DOM) (x y : Z) (scope : Node)
    (higher : list Element) (st st' : BuildState) :
  (∀ f s l, engineIndependentElementsFromPoint f dom x y s = Ok l → Seen l) →
  recurse fuel dom x y scope higher st = Ok st' → Inv st → Inv st'.
Proof.
  intros Hseen. revert scope higher st st'.
  induction fuel as [|fuel IH]; intros scope higher st st'; [done|].
  cbn [recurse]. intros (elements & Hel & Hrun)%bind_Ok Hinv.
  eapply forEachElement_invariant; [|done| |done].
  - intros ????. apply IH.
  - by eapply Hseen.
Qed.
End BuildInvariant.

Lemma recurse_ranked (fuel : nat) (dom : DOM) (x y : Z) (pos : Element → nat)
    (scope : Node) (higher : list Element) (st st' : BuildState) :
  stackingOrdered dom x y pos →
  recurse fuel dom x y scope higher st = Ok st' →
  ranked (st_elementsByParent st) pos → ranked (st_elementsByParent st') pos.
Proof.
  intros Hsorted.
  apply (recurse_invariant (λ s, ranked (st_elementsByParent s) pos)
           (StronglySorted (λ a b, pos a < pos b))); try done.
  - intros e rest Hs. by apply StronglySorted_inv in Hs as [? _].
  - intros p e rest s Hs _ Hp [_ Hall]%StronglySorted_inv q l c Hl Hc.
    assert (child (addToKeyedList (st_elementsByParent s) p e) q c) as Hchild
      by (by exists l).
    apply child_addToKeyedList in Hchild as [(l' & Hl' & Hc')|[-> ->]].
    + by eapply Hs.
    + rewrite Forall_forall in Hall. by apply Hall.
Qed.


Lemma elementTreeFromPoint_ranked (fuel : nat) (dom : DOM) (x y : Z)
    (pos : Element → nat) (top : Node) (tree : ElementTree) :
  stackingOrdered dom x y pos →
  elementTreeFromPoint fuel dom x y top = Ok (Some tree) →
  ranked (elementsByParent tree) pos.
Proof.
  intros Hsorted. unfold elementTreeFromPoint.
  intros (st & Hst & Hret)%bind_Ok.
  destruct (st_root st) as [r|]; [|done]. injection Hret as <-.
  cbn [elementsByParent]. eapply recurse_ranked; [done..|].
  intros p l c. simpl. by rewrite lookup_empty.
Qed.

Lemma recurse_wellKept (fuel : nat) (dom : DOM) (x y : Z) (scope : Node)
    (higher : list Element) (st st' : BuildState) :
  recurse fuel dom x y scope higher st = Ok st' → wellKept st → wellKept st'.
Proof.
  apply (recurse_invariant wellKept (λ _, True)); try done.
  intros p e rest s Hs Hfresh _ _. by apply attach_wellKept.
Qed.

Lemma endsInRoot_tail (html e : Element) (rest : list Element) :
  endsInRoot html (e :: rest) → endsInRoot html rest.
Proof.
  intros [?|(l' & Hl & Hnot)]; [done|].
  destruct l' as [|a l']; simplify_eq/=.
  - by left.
  - right. exists l'. split; [done|]. by apply not_elem_of_cons in Hnot as [_ ?].
Qed.

Lemma endsInRoot_head (html e p : Element) (rest : list Element) :
  endsInRoot html (e :: rest) → p ∈ rest → e ≠ html.
Proof.
  intros [?|(l' & Hl & Hnot)] Hp; [done|].
  destruct l' as [|a l']; simplify_eq/=.
  - by inversion Hp.
  - by apply not_elem_of_cons in Hnot as [? _].
Qed.

Lemma endsInRoot_last (html e : Element) : endsInRoot html [e] → e = html.
Proof.
  intros [?|(l' & Hl & _)]; [done|].
  destruct l' as [|a [|b l']]; by simplify_eq/=.
Qed.

Section RootedHitTest.
Context (dom : DOM) (x y : Z) (html : Element).
Context (Hreach : hitTestReachesRoot dom x y html).

Lemma recurse_root_unprocessed (fuel : nat) (scope : Node)
    (higher : list Element) (st st' : BuildState) :
  recurse fuel dom x y scope higher st = Ok st' →
  html ∉ processedElements st → html ∉ processedElements st'.
Proof.
  destruct Hreach as (_ & _ & Hends).
  apply (recurse_invariant (λ s, html ∉ processedElements s) (endsInRoot html));
    try done.
  - apply endsInRoot_tail.
  - intros p e rest s Hs _ Hp Hseen. simpl.
    apply not_elem_of_union. split; [|done].
    apply not_elem_of_singleton. intros ->.
    by eapply endsInRoot_head.
Qed.

Lemma forEachElement_root
    (rec : Node → list Element → BuildState → result BuildState)
    (fuel : nat) (higher elements : list Element) (st st' : BuildState) :
  (∀ scope hs s s', rec scope hs s = Ok s' →
     html ∉ processedElements s → html ∉ processedElements s') →
  forEachElement rec fuel dom higher elements st = Ok st' →
  endsInRoot html elements → elements ≠ [] →
  html ∉ processedElements st → st_root st' = Some html.
Proof.
  destruct Hreach as (_ & Hplain & _).
  intros Hrec. revert st.
  induction elements as [|element rest IH]; intros st; [done|].
  cbn [forEachElement]. intros Hrun Hends _ Hout.
  pose proof (endsInRoot_tail _ _ _ Hends) as Hrest.
  destruct rest as [|next rest].
  - apply endsInRoot_last in Hends as ->.
    rewrite decide_False in Hrun by done. rewrite Hplain in Hrun. simpl in Hrun.
    apply bind_Ok in Hrun as (st1 & Hst1 & [= <-]).
    apply stepUp_Ok in Hst1 as [(p & Hp & _)| ->]; [|done].
    set_solver.
  - assert (∃ st1, (html ∉ processedElements st1) ∧
              forEachElement rec fuel dom higher (next :: rest) st1 = Ok st')
      as (st1 & Hout1 & Hrun1).
    { destruct (decide (element ∈ processedElements st)); [eauto|].
      destruct (hasOpenShadowRoot dom element && _);
        apply bind_Ok in Hrun as (st1 & Hst1 & Hrun); exists st1;
        (split; [|done]).
      - eapply Hrec; [done|]. done.
      - apply stepUp_Ok in Hst1 as [(p & Hp & ->)| ->]; [|done]. simpl.
        apply elem_of_list_to_set in Hp.
        apply not_elem_of_union. split; [|done].
        apply not_elem_of_singleton. intros ->.
        by eapply endsInRoot_head. }
    by eapply IH.
Qed.

Lemma recurse_root (fuel : nat) (scope : Node) (higher : list Element)
    (st st' : BuildState) :
  recurse fuel dom x y scope higher st = Ok st' →
  html ∉ processedElements st →
  st' = st ∨ st_root st' = Some html.
Proof.
  destruct fuel as [|fuel]; [done|]. cbn [recurse].
  intros (elements & Hel & Hrun)%bind_Ok Hout.
  destruct elements as [|e rest] eqn:Heq; [left; by injection Hrun|].
  right. eapply forEachElement_root; [|done| |done|done].
  - intros ????. apply recurse_root_unprocessed.
  - destruct Hreach as (_ & _ & Hends). by eapply Hends.
Qed.
End RootedHitTest.

Lemma tc_last_step (m : gmap Element (list Element)) (a b : Element) :
  tc (child m) a b → ∃ z, rtc (child m) a z ∧ child m z b.
Proof.
  intros Htc. induction Htc as [a b Hab|a b c Hab _ (z & Hbz & Hzc)].
  - exists a. split; [apply rtc_refl|done].
  - exists z. split; [by eapply rtc_l|done].
Qed.

(** In a map where no element has two parents, a cycle below the root would
    climb to the root, whose being a child is what closes it. *)
Lemma cycle_climbs (m : gmap Element (list Element)) (p e : Element) :
  (∀ p q c, child m p c → child m q c → p = q) →
  child m p e → tc (child m) e e → tc (child m) p p.
Proof.
  intros Huniq Hpe (z & Hez & Hze)%tc_last_step.
  rewrite (Huniq p z e Hpe Hze). by eapply tc_rtc_r; [apply tc_once|].
Qed.

Lemma rooted_acyclic (m : gmap Element (list Element)) (r e : Element) :
  (∀ p q c, child m p c → child m q c → p = q) →
  (∀ p, ¬ child m p r) →
  rtc (child m) r e → ¬ tc (child m) e e.
Proof.
  intros Huniq Hroot Hreachable. revert e Hreachable. apply rtc_ind_r.
  - intros (z & _ & Hz)%tc_last_step. by eapply Hroot.
  - intros y z _ Hyz IH Hcycle. apply IH. by eapply cycle_climbs.
Qed.

Lemma elem_of_allChildren (m : gmap Element (list Element)) (c : Element) :
  c ∈ allChildren m ↔ ∃ p, child m p c.
Proof.
  unfold allChildren. rewrite list_elem_of_bind. split.
  - intros ([p l] & Hc & Hpl%elem_of_map_to_list). exists p, l. done.
  - intros (p & l & Hl & Hc). exists (p, l). split; [done|].
    by apply elem_of_map_to_list.
Qed.

Lemma elem_of_concat {A} (x : A) (ls : list (list A)) :
  x ∈ concat ls ↔ ∃ l, x ∈ l ∧ l ∈ ls.
Proof.
  induction ls as [|l ls IH]; simpl.
  - split; [by intros ?%not_elem_of_nil|]. by intros (l & _ & ?%not_elem_of_nil).
  - rewrite elem_of_app, IH. split.
    + intros [?|(l' & ? & ?)]; [exists l|exists l']; split; try done;
        [by left|by right].
    + intros (l' & Hx & [->|?]%elem_of_cons); [by left|right; eauto].
Qed.

Section Forest.
Context (m : gmap Element (list Element)) (r : Element).
Context (Hnodup : ∀ p l, m !! p = Some l → NoDup l).
Context (Huniq : ∀ p q c, child m p c → child m q c → p = q).
Context (Hacyclic : ∀ e, rtc (child m) r e → ¬ tc (child m) e e).

Lemma descends_reachable e chain :
  descends m r e chain → rtc (child m) r e.
Proof.
  revert e. induction chain as [|a chain IH]; intros e; simpl.
  - intros ->. apply rtc_refl.
  - intros (_ & p & Hp & Hchain). eapply rtc_r; [by apply IH|done].
Qed.

Lemma descends_ancestor e chain a :
  descends m r e chain → a ∈ chain → rtc (child m) a e.
Proof.
  revert e. induction chain as [|b chain IH]; intros e; simpl.
  - intros _ Ha. by inversion Ha.
  - intros (-> & p & Hp & Hchain) [->|Ha]%elem_of_cons; [apply rtc_refl|].
    eapply rtc_r; [by eapply IH|done].
Qed.

Lemma descends_children e chain a :
  descends m r e chain → a ∈ chain → a ∈ allChildren m.
Proof.
  revert e. induction chain as [|b chain IH]; intros e; simpl.
  - intros _ Ha. by inversion Ha.
  - intros (-> & p & Hp & Hchain) [->|Ha]%elem_of_cons.
    + apply elem_of_allChildren. eauto.
    + by eapply IH.
Qed.

Lemma descends_NoDup e chain : descends m r e chain → NoDup chain.
Proof.
  revert e. induction chain as [|a chain IH]; intros e; simpl; [constructor|].
  intros (-> & p & Hp & Hchain). constructor; [|by eapply IH].
  intros He. apply (Hacyclic e).
  - eapply rtc_r; [by eapply descends_reachable|done].
  - eapply tc_rtc_l; [by eapply descends_ancestor|]. by apply tc_once.
Qed.

Lemma descends_length e chain :
  descends m r e chain → length chain ≤ length (allChildren m).
Proof.
  intros H. apply submseteq_length, NoDup_submseteq.
  - by eapply descends_NoDup.
  - intros a Ha. by eapply descends_children.
Qed.

Lemma flattenElementTree_descends n e chain :
  descends m r e chain → length (allChildren m) < n + length chain →
  ∃ flat, flattenElementTree n m e = Ok flat.
Proof.
  revert e chain. induction n as [|n IH]; intros e chain Hchain Hlt.
  - apply descends_length in Hchain. simpl in Hlt. lia.
  - cbn [flattenElementTree].
    destruct (flatMapM_total (flattenElementTree n m) (default [] (m !! e)))
      as [children ->]; [|simpl; eauto].
    intros c Hc. apply (IH c (c :: chain)); [|simpl; lia].
    simpl. split; [done|]. exists e. split; [|done].
    destruct (m !! e) as [l|] eqn:Hl; simpl in Hc; [|by inversion Hc].
    by exists l.
Qed.

Lemma flattenElementTree_below n e flat a :
  flattenElementTree n m e = Ok flat → a ∈ flat → rtc (child m) e a.
Proof.
  revert e flat. induction n as [|n IH]; intros e flat; [done|].
  intros (ls & Hls & ->)%flattenElementTree_Ok [Ha|Ha]%elem_of_app;
    [|apply list_elem_of_singleton in Ha as ->; apply rtc_refl].
  apply elem_of_concat in Ha as (lc & Ha & Hlc).
  apply list_elem_of_lookup in Hlc as [i Hi].
  destruct (Forall2_lookup_r _ _ _ _ _ Hls Hi) as (c & Hc & Hflat).
  eapply rtc_l; [|by eapply IH].
  destruct (m !! e) as [l|] eqn:Hl; simpl in Hc; [|done].
  exists l. split; [done|]. by eapply list_elem_of_lookup_2.
Qed.

Lemma ancestors_comparable a b e :
  rtc (child m) a e → rtc (child m) b e →
  rtc (child m) a b ∨ rtc (child m) b a.
Proof.
  intros Ha. revert e Ha b. apply (rtc_ind_r (λ e, ∀ b, rtc (child m) b e → _)).
  - intros b Hb. by right.
  - intros y z Hay Hyz IH b [->|(y' & Hby' & Hy'z)]%rtc_inv_r.
    + left. by eapply rtc_r.
    + rewrite (Huniq y' y z Hy'z Hyz) in Hby'. by apply IH.
Qed.

Lemma sibling_not_below e c c' :
  rtc (child m) r e → child m e c → child m e c' → c ≠ c' →
  ¬ rtc (child m) c c'.
Proof.
  intros Hre Hc Hc' Hne [->|(z & Hcz & Hzc')]%rtc_inv_r; [done|].
  rewrite (Huniq z e c' Hzc' Hc') in Hcz.
  apply (Hacyclic e Hre).
  eapply tc_rtc_r; [apply tc_once; exact Hc|exact Hcz].
Qed.

Lemma flattenElementTree_NoDup n e flat :
  rtc (child m) r e → flattenElementTree n m e = Ok flat → NoDup flat.
Proof.
  revert e flat. induction n as [|n IH]; intros e flat Hre; [done|].
  intros (ls & Hls & ->)%flattenElementTree_Ok.
  assert (∀ c, c ∈ default [] (m !! e) → child m e c) as Hkids.
  { intros c Hc. destruct (m !! e) as [l|] eqn:Hl; simpl in Hc;
      [by exists l|by inversion Hc]. }
  assert (NoDup (default [] (m !! e))) as Hnd.
  { destruct (m !! e) as [l|] eqn:Hl; simpl; [by eapply Hnodup|constructor]. }
  apply NoDup_app. split; [|split; [|apply NoDup_singleton]].
  - revert Hls Hkids Hnd. generalize (default [] (m !! e)). intros kids Hls.
    induction Hls as [|c lc kids ls Hc Hls IHls]; intros Hkids Hnd;
      [constructor|].
    simpl. apply NoDup_app. apply NoDup_cons in Hnd as [Hc' Hnd].
    split; [|split].
    + eapply IH; [|done]. eapply rtc_r; [done|]. apply Hkids. by left.
    + intros a Ha (lc' & Ha' & Hlc')%elem_of_concat.
      apply list_elem_of_lookup in Hlc' as [i Hi].
      destruct (Forall2_lookup_r _ _ _ _ _ Hls Hi) as (c' & Hci & Hflat').
      apply list_elem_of_lookup_2 in Hci.
      assert (c ≠ c') as Hne by (by intros ->).
      pose proof (flattenElementTree_below _ _ _ _ Hc Ha) as H1.
      pose proof (flattenElementTree_below _ _ _ _ Hflat' Ha') as H2.
      assert (child m e c) as Hk by (apply Hkids; by left).
      assert (child m e c') as Hk' by (apply Hkids; by right).
      destruct (ancestors_comparable _ _ _ H1 H2) as [H|H].
      * by apply (sibling_not_below e c c').
      * by apply (sibling_not_below e c' c).
    + apply IHls; [|done]. intros c' Hc''. apply Hkids. by right.
  - intros a (lc & Ha & Hlc)%elem_of_concat ->%list_elem_of_singleton.
    apply list_elem_of_lookup in Hlc as [i Hi].
    destruct (Forall2_lookup_r _ _ _ _ _ Hls Hi) as (c & Hci & Hflat).
    apply list_elem_of_lookup_2 in Hci.
    apply (Hacyclic e Hre). eapply tc_rtc_r; [apply tc_once; by apply Hkids|].
    by eapply flattenElementTree_below.
Qed.

Lemma flattenElementTree_covers n e flat a :
  flattenElementTree n m e = Ok flat → rtc (child m) e a → a ∈ flat.
Proof.
  revert e flat. induction n as [|n IH]; intros e flat; [done|].
  intros (ls & Hls & ->)%flattenElementTree_Ok
         [->|(c & (l & Hl & Hc) & Hca)]%rtc_inv.
  { apply elem_of_app. right. by apply list_elem_of_singleton. }
  rewrite Hl in Hls. simpl in Hls.
  apply list_elem_of_lookup in Hc as [i Hi].
  destruct (Forall2_lookup_l _ _ _ _ _ Hls Hi) as (lc & Hlc & Hflat).
  apply elem_of_app. left. apply elem_of_concat. exists lc.
  split; [by eapply IH|by eapply list_elem_of_lookup_2].
Qed.

Lemma reachable_descends e :
  rtc (child m) r e → ∃ chain, descends m r e chain.
Proof.
  revert e. apply rtc_ind_r.
  - by exists [].
  - intros p e _ Hpe [chain Hchain]. exists (e :: chain). simpl. eauto.
Qed.

(** Below the root the map is a tree: the flattening of any reachable
    element returns, lists every element below it, and lists none twice. *)
Lemma flattenElementTree_forest e :
  rtc (child m) r e →
  ∃ flat,
    flattenElementTree (S (length (allChildren m))) m e = Ok flat ∧
    NoDup flat ∧ ∀ a, a ∈ flat ↔ rtc (child m) e a.
Proof.
  intros Hre. destruct (reachable_descends e Hre) as [chain Hchain].
  destruct (flattenElementTree_descends (S (length (allChildren m))) e chain)
    as [flat Hflat]; [done|lia|].
  exists flat. split; [done|]. split; [by eapply flattenElementTree_NoDup|].
  intros a. split.
  - by eapply flattenElementTree_below.
  - by eapply flattenElementTree_covers.
Qed.
End Forest.

Lemma ranked_descent (m : gmap Element (list Element)) (rank : Element → nat) (a b : Element) :
  ranked m rank → tc (child m) a b → rank b < rank a.
Proof.
  intros Hrank Htc.
  induction Htc as [a b (l & Hl & Hb)|a b c (l & Hl & Hb) _ IH].
  - by eapply Hrank.
  - specialize (Hrank a l b Hl Hb). lia.
Qed.

Lemma ranked_forest (m : gmap Element (list Element)) (rank : Element → nat) (e : Element) :
  (∀ p l, m !! p = Some l → NoDup l) →
  (∀ p q c, child m p c → child m q c → p = q) →
  ranked m rank →
  ∃ flat,
    flattenElementTree (S (rank e)) m e = Ok flat ∧
    NoDup flat ∧ ∀ a, a ∈ flat ↔ rtc (child m) e a.
Proof.
  intros Hnodup Huniq Hrank.
  destruct (flattenElementTree_total m rank (S (rank e)) e Hrank)
    as [flat Hflat]; [lia|].
  exists flat. split; [done|]. split.
  - eapply (flattenElementTree_NoDup m e); [done..| |apply rtc_refl|done].
    intros a _ Hcycle. apply (ranked_descent _ _ _ _ Hrank) in Hcycle. lia.
  - intros a. split.
    + by eapply flattenElementTree_below.
    + by eapply flattenElementTree_covers.
Qed.

(** C3.  In every tree [elementTreeFromPoint] returns, no child list holds an
    element twice and no element is listed under two parent keys, so that
    every element below the root has exactly one parent key.  The
    normalized lists following one stacking order, every child sits above
    its parent in that order, so that no element lies on a cycle and
    flattening from any element returns each element below it exactly once.
    And, the hit test ending every non-empty answer in the document's root
    element, the root is that element, it is no one's child, and what is
    reachable from it is a tree. *)
Theorem elementTreeFromPoint_each_element_once
    (fuel : nat) (dom : DOM) (x y : Z) (topDocumentOrShadowRoot : Node)
    (tree : ElementTree) :
  elementTreeFromPoint fuel dom x y topDocumentOrShadowRoot = Ok (Some tree) →
  let m := elementsByParent tree in
  (∀ p l, m !! p = Some l → NoDup l) ∧
  (∀ p q c, child m p c → child m q c → p = q) ∧
  (∀ e, tc (child m) (root tree) e →
        ∃ p, child m p e ∧ ∀ q, child m q e → q = p) ∧
  (∀ pos, stackingOrdered dom x y pos →
     ranked m pos ∧
     ∀ e, ¬ tc (child m) e e ∧
          ∃ flat,
            flattenElementTree (S (pos e)) m e = Ok flat ∧
            NoDup flat ∧ ∀ a, a ∈ flat ↔ rtc (child m) e a) ∧
  (∀ html, hitTestReachesRoot dom x y html →
     root tree = html ∧
     (∀ p, ¬ child m p (root tree)) ∧
     (∀ e, rtc (child m) (root tree) e →
        ¬ tc (child m) e e ∧
        ∃ flat,
          flattenElementTree (S (length (allChildren m))) m e = Ok flat ∧
          NoDup flat ∧ ∀ a, a ∈ flat ↔ rtc (child m) e a)).
Proof.
  intros Htree m.
  pose proof Htree as Hbuilt. revert Htree.
  unfold elementTreeFromPoint. intros (st & Hst & Hret)%bind_Ok.
  destruct (st_root st) as [r|] eqn:Hr; [|done]. injection Hret as <-.
  subst m. cbn [elementsByParent root].
  destruct (recurse_wellKept _ _ _ _ _ _ _ _ Hst initialState_wellKept)
    as (Hnodup & Huniq & Hproc).
  split; [done|]. split; [done|]. split; [|split].
  - intros e (p & _ & Hp)%tc_last_step. exists p. split; [done|].
    intros q Hq. by eapply Huniq.
  - intros pos Hsorted.
    pose proof (elementTreeFromPoint_ranked _ _ _ _ _ _ _ Hsorted Hbuilt)
      as Hranked.
    cbn [elementsByParent] in Hranked. split; [done|]. intros e. split.
    + intros Hcycle. apply (ranked_descent _ _ _ _ Hranked) in Hcycle. lia.
    + by apply ranked_forest.
  - intros html Hreach.
    assert (html ∉ processedElements st) as Hout.
    { eapply recurse_root_unprocessed; [done..|]. simpl. set_solver. }
    assert (r = html) as ->.
    { destruct (recurse_root _ _ _ _ Hreach _ _ _ _ _ Hst) as [->|Hroot].
      - simpl. set_solver.
      - done.
      - congruence. }
    assert (∀ p, ¬ child (st_elementsByParent st) p html) as Hnochild.
    { intros p Hc. apply Hout. by eapply Hproc. }
    split; [done|]. split; [done|].
    assert (∀ e, rtc (child (st_elementsByParent st)) html e →
                 ¬ tc (child (st_elementsByParent st)) e e) as Hacyclic.
    { intros e. by apply rooted_acyclic. }
    intros e He. split; [by apply Hacyclic|].
    by apply (flattenElementTree_forest _ html).
Qed.

Lemma endsInRoot_reverse (html : Element) (l l' : list Element) :
  reverse l = html :: l' → html ∉ l' → endsInRoot html l.
Proof.
  intros Hrev Hnot. right. exists (reverse l'). split.
  - by rewrite <- (reverse_involutive l), Hrev, reverse_cons.
  - by rewrite elem_of_reverse.
Qed.

(** The normalized lists of [nestedShadowPage], whatever the engine, the
    scope and the fuel. *)
Lemma nestedShadowPage_lists (gecko : bool) (fuel : nat) (scope : Node)
    (l : list Element) :
  engineIndependentElementsFromPoint fuel (nestedShadowPage gecko) 0 0 scope
  = Ok l →
  l ∈ [[0]; [2; 1; 0]; [3; 2; 1; 0]; [4; 3; 2; 1; 0]].
Proof.
  assert (∀ f l2, engineIndependentElementsFromPoint f
                    (nestedShadowPage gecko) 0 0 (ShadowRootOf 2) = Ok l2 →
                  l2 = [3; 2; 1; 0]) as Hhost.
  { intros f l2. destruct gecko; [|by destruct f; intros [= <-]].
    do 4 (destruct f as [|f]; [done|]).
    rewrite query_diverging.
    - destruct f; simpl; by intros [= <-].
    - intros [?|(e & He & Hd)]; [done|]. simpl in He, Hd. congruence. }
  destruct fuel as [|fuel]; [done|].
  destruct scope as [|host|e|n].
  - intros [= <-]. set_solver.
  - destruct host as [|[|[|[|host]]]].
    + intros [= <-]. set_solver.
    + intros [= <-]. set_solver.
    + intros ->%Hhost. set_solver.
    + destruct gecko; [|intros [= <-]; set_solver].
      rewrite query_diverging.
      * destruct fuel as [|fuel]; [done|].
        assert (findRootNode (S fuel) (nestedShadowPage true) (ElementNode 3)
                = Ok (ShadowRootOf 2)) as -> by (by destruct fuel).
        cbn [mbind result_bind]. change (negb _) with false. cbn beta iota.
        intros (l2 & ->%Hhost & [= <-])%bind_Ok. set_solver.
      * intros [?|(e & He & Hd)]; [done|]. simpl in He, Hd. congruence.
    + intros [= <-]. set_solver.
  - intros [= <-]. set_solver.
  - intros [= <-]. set_solver.
Qed.

Lemma nestedShadowPage_reaches_root (gecko : bool) :
  hitTestReachesRoot (nestedShadowPage gecko) 0 0 0.
Proof.
  split; [done|]. split; [done|].
  intros fuel scope l Hl%nestedShadowPage_lists.
  repeat (apply elem_of_cons in Hl as [->|Hl]);
    [eapply endsInRoot_reverse;
       [reflexivity|by apply (bool_decide_unpack _)]..|].
  by apply not_elem_of_nil in Hl.
Qed.

Lemma nestedShadowPage_stackingOrdered (gecko : bool) :
  stackingOrdered (nestedShadowPage gecko) 0 0 nestedShadowPos.
Proof.
  intros fuel scope l Hl%nestedShadowPage_lists.
  repeat (apply elem_of_cons in Hl as [->|Hl]);
    [repeat constructor; simpl; lia..|].
  by apply not_elem_of_nil in Hl.
Qed.

Lemma nestedShadowPage_tree (gecko : bool) :
  elementTreeFromPoint 10 (nestedShadowPage gecko) 0 0 Document
  = Ok (Some {| root := 0; elementsByParent := nestedTree |}).
Proof. destruct gecko; by vm_compute. Qed.

(** The same tree comes out when the query starts from the innermost shadow
    root, the root being overwritten on the way out. *)
Lemma nestedShadowPage_tree_from_inside (gecko : bool) :
  elementTreeFromPoint 10 (nestedShadowPage gecko) 0 0 (ShadowRootOf 3)
  = Ok (Some {| root := 0; elementsByParent := nestedTree |}).
Proof. destruct gecko; by vm_compute. Qed.

Lemma elementTreeFromPoint_each_element_once_witness :
  elementTreeFromPoint 10 (nestedShadowPage true) 0 0 Document
  = Ok (Some {| root := 0; elementsByParent := nestedTree |}) ∧
  (∀ p l, nestedTree !! p = Some l → NoDup l) ∧
  ranked nestedTree nestedShadowPos ∧
  (∀ p, ¬ child nestedTree p 0) ∧
  ¬ tc (child nestedTree) 0 0 ∧
  ∃ flat, flattenElementTree 5 nestedTree 0 = Ok flat ∧ NoDup flat.
Proof.
  split; [apply nestedShadowPage_tree|].
  destruct (elementTreeFromPoint_each_element_once 10 (nestedShadowPage true)
              0 0 Document _ (nestedShadowPage_tree true))
    as (Hnodup & _ & _ & Hordered & Hrooted).
  destruct (Hordered nestedShadowPos (nestedShadowPage_stackingOrdered true))
    as (Hranked & Hflat).
  destruct (Hrooted 0 (nestedShadowPage_reaches_root true)) as (_ & H1 & _).
  split; [exact Hnodup|]. split; [exact Hranked|]. split; [exact H1|].
  destruct (Hflat 0) as (H3 & flat & Hf & H4 & _).
  split; [exact H3|]. exists flat. split; [exact Hf|exact H4].
Defined.


(** ** Redispatch *)

Section RedispatchLoop.
Context {World : Type}.
Context (dispatchEvent : Element → MouseEvent → World → World * bool).
Context (dp : gset Element) (event : MouseEvent) (ty : string)
        (eventInitDict : MouseEventInit).

Abbreviation loop := (dispatchLoop dispatchEvent dp event ty eventInitDict).

Lemma dispatchLoop_skip (e : Element) (rest : list Element) (w : World) :
  e ∈ dp → loop (e :: rest) w = loop rest w.
Proof. intros He. cbn [dispatchLoop]. by rewrite decide_True. Qed.

Lemma dispatchLoop_cancel (e : Element) (rest : list Element) (w w' : World) :
  e ∉ dp →
  dispatchEvent e (constructMouseEvent event ty eventInitDict) w = (w', true) →
  loop (e :: rest) w
  = {| world := w'; dispatched := [(e, true)];
       original := preventDefault event |}.
Proof.
  intros He Hd. cbn [dispatchLoop]. rewrite decide_False by done. by rewrite Hd.
Qed.

Lemma dispatchLoop_continue (e : Element) (rest : list Element) (w w' : World) :
  e ∉ dp →
  dispatchEvent e (constructMouseEvent event ty eventInitDict) w = (w', false) →
  loop (e :: rest) w
  = {| world := world (loop rest w');
       dispatched := (e, false) :: dispatched (loop rest w');
       original := original (loop rest w') |}.
Proof.
  intros He Hd. cbn [dispatchLoop]. rewrite decide_False by done. by rewrite Hd.
Qed.

(** Without a cancellation every element off the default path is served, in
    the order of the list, and the original event is left as it was. *)
Lemma dispatchLoop_uncancelled (subtree : list Element) (w : World) :
  Forall (λ p, p.2 = false) (dispatched (loop subtree w)) →
  (dispatched (loop subtree w)).*1 = filter (λ e, e ∉ dp) subtree ∧
  original (loop subtree w) = event.
Proof.
  revert w. induction subtree as [|e rest IH]; intros w; [done|].
  destruct (decide (e ∈ dp)) as [He|He].
  - rewrite dispatchLoop_skip by done. rewrite filter_cons_False by tauto.
    apply IH.
  - rewrite filter_cons_True by done.
    destruct (dispatchEvent e (constructMouseEvent event ty eventInitDict) w)
      as [w' []] eqn:Hd.
    + rewrite (dispatchLoop_cancel _ _ _ _ He Hd). simpl.
      intros Hall. by inversion Hall.
    + rewrite (dispatchLoop_continue _ _ _ _ He Hd).
      cbn [dispatched original]. rewrite fmap_cons.
      intros Hall. inversion Hall as [|?? _ Hrest]; subst.
      destruct (IH w' Hrest) as [H1 H2]. by rewrite H1, H2.
Qed.



End RedispatchLoop.

Section RedispatchClaims.
Context {World : Type}.
Context (dispatchEvent : Element → MouseEvent → World → World * bool).
Context (mouseEventInitDictBuilder : MouseEvent → MouseEventInit).

Abbreviation redispatch :=
  (dispatchToUnderlyingElements dispatchEvent mouseEventInitDictBuilder).

(** What a completed invocation went through. *)
Lemma dispatchToUnderlyingElements_Ok (fuel : nat) (dom : DOM)
    (ev : MouseEvent) (w : World) (r : Effects World) :
  redispatch fuel dom ev w = Ok r →
  r = {| world := w; dispatched := []; original := ev |} ∨
  ∃ target d tree subtree path,
    defaultPrevented ev = false ∧
    currentTarget ev = Some (ElementNode target) ∧
    findRootNode fuel dom (ElementNode target) = Ok d ∧
    isDocumentOrShadowRoot d = true ∧
    elementTreeFromPoint fuel dom (x ev) (y ev) d = Ok (Some tree) ∧
    flattenElementTree fuel (elementsByParent tree) target = Ok subtree ∧
    getDefaultPathElementSet fuel (elementsByParent tree) target = Ok path ∧
    r = dispatchLoop dispatchEvent path ev (type ev)
          (setBubbles false (mouseEventInitDictBuilder ev)) subtree w.
Proof.
  unfold dispatchToUnderlyingElements.
  destruct (defaultPrevented ev) eqn:Hp; [intros [= <-]; by left|].
  destruct (currentTarget ev) as [[| |target|]|] eqn:Hct; simpl; try done.
  intros (d & Hd & H)%bind_Ok.
  destruct (isDocumentOrShadowRoot d) eqn:Hok; simpl in H; [|done].
  apply bind_Ok in H as ([tree|] & Htree & H); [|injection H as <-; by left].
  apply bind_Ok in H as (subtree & Hsub & H).
  apply bind_Ok in H as (path & Hpath & [= <-]).
  right. exists target, d, tree, subtree, path. done.
Qed.



End RedispatchClaims.





(** * Further properties *)

(** ** [findRootNode] *)

Lemma findRootNode_climbs (fuel : nat) (dom : DOM) (node r : Node) :
  findRootNode fuel dom node = Ok r →
  rtc (parentNodeOf dom) node r ∧ parentNode dom r = None.
Proof.
  revert node. induction fuel as [|fuel IH]; intros node; cbn [findRootNode];
    destruct (parentNode dom node) as [p|] eqn:Hp; try done.
  - intros [= <-]. split; [apply rtc_refl|done].
  - intros [Hpr Hr]%IH. split; [by eapply rtc_l|done].
  - intros [= <-]. split; [apply rtc_refl|done].
Qed.

Lemma findRootNode_parentless (fuel : nat) (dom : DOM) (r : Node) :
  parentNode dom r = None → findRootNode fuel dom r = Ok r.
Proof. intros Hr. destruct fuel; cbn [findRootNode]; by rewrite Hr. Qed.

(** X1.  What [findRootNode] returns is an ancestor-or-self of the node that
    has no parent; it is its own root, and it is the root of every node met
    on the way up. *)
Theorem findRootNode_root_of_chain (fuel : nat) (dom : DOM) (node r : Node) :
  findRootNode fuel dom node = Ok r →
  rtc (parentNodeOf dom) node r ∧
  parentNode dom r = None ∧
  findRootNode fuel dom r = Ok r ∧
  ∀ n, rtc (parentNodeOf dom) node n → findRootNode fuel dom n = Ok r.
Proof.
  intros Hroot. destruct (findRootNode_climbs _ _ _ _ Hroot) as [Hup Hr].
  split; [done|]. split; [done|].
  split; [by apply findRootNode_parentless|].
  intros n Hn. revert fuel Hroot. clear Hup.
  induction Hn as [n|n p n' Hnp Hpn' IH]; intros fuel Hroot; [done|].
  destruct fuel as [|fuel]; cbn [findRootNode] in Hroot;
    rewrite Hnp in Hroot.
  - discriminate.
  - eapply findRootNode_mono; [by apply IH|lia].
Qed.

(** X2.  On a DOM whose parent chains are finite, [findRootNode] returns once
    the fuel covers the level of the node, and what it returns lies no
    higher than the node. *)
Theorem findRootNode_terminates (dom : DOM) (level : Node → nat) (fuel : nat)
    (node : Node) :
  layered dom level → level node ≤ fuel →
  ∃ r, findRootNode fuel dom node = Ok r ∧
       rtc (parentNodeOf dom) node r ∧ parentNode dom r = None.
Proof.
  intros Hlay Hle.
  destruct (findRootNode_total dom level fuel node Hlay Hle) as (r & Hr & Hlr).
  exists r. destruct (findRootNode_climbs _ _ _ _ Hr) as [Hup Hnone]. done.
Qed.

(** ** [addToKeyedList] *)

(** X3.  [addToKeyedList] appends: the child becomes the last entry under
    its parent, behind the entries that were there; every other key keeps its
    list; two additions under one parent are listed in the order they were
    made, and additions under different parents commute. *)
Theorem addToKeyedList_appends (m : gmap Element (list Element))
    (parent element : Element) :
  addToKeyedList m parent element !! parent
    = Some (default [] (m !! parent) ++ [element]) ∧
  (∀ q, q ≠ parent → addToKeyedList m parent element !! q = m !! q) ∧
  (∀ q d, child (addToKeyedList m parent element) q d
          ↔ child m q d ∨ (q = parent ∧ d = element)) ∧
  (∀ element2,
     addToKeyedList (addToKeyedList m parent element) parent element2 !! parent
     = Some (default [] (m !! parent) ++ [element; element2])) ∧
  (∀ parent2 element2, parent2 ≠ parent →
     addToKeyedList (addToKeyedList m parent element) parent2 element2
     = addToKeyedList (addToKeyedList m parent2 element2) parent element).
Proof.
  unfold addToKeyedList. split_and!.
  - by rewrite lookup_insert_eq.
  - intros q Hq. by rewrite lookup_insert_ne.
  - apply child_addToKeyedList.
  - intros element2. rewrite !lookup_insert_eq. simpl. by rewrite <- app_assoc.
  - intros parent2 element2 Hne.
    rewrite (lookup_insert_ne m parent parent2) by done.
    rewrite (lookup_insert_ne m parent2 parent) by done.
    by apply insert_insert_ne.
Qed.

(** ** Normalized point query *)

(** X4.  The normalized list starts with the scope's own hit test, whatever
    is appended behind it, and every entry of it comes out of the hit test
    of some scope. *)
Theorem engineIndependentElementsFromPoint_extends_hit_test
    (fuel : nat) (dom : DOM) (x y : Z) (scope : Node) (l : list Element) :
  engineIndependentElementsFromPoint fuel dom x y scope = Ok l →
  elementsFromPoint dom scope x y `prefix_of` l ∧
  ∀ e, e ∈ l → ∃ scope', e ∈ elementsFromPoint dom scope' x y.
Proof.
  revert scope l. induction fuel as [|fuel IH]; intros scope l; [done|].
  cbn [engineIndependentElementsFromPoint].
  assert (Hown : ∀ l, Ok (elementsFromPoint dom scope x y) = Ok l →
    elementsFromPoint dom scope x y `prefix_of` l ∧
    ∀ e, e ∈ l → ∃ scope', e ∈ elementsFromPoint dom scope' x y).
  { intros ? [= <-]. split; [done|]. intros e He. by exists scope. }
  destruct scope as [|host|e|n]; try apply Hown.
  destruct (negb _); [|apply Hown].
  intros (higherDom & Hroot & Hrest)%bind_Ok.
  destruct (negb (isDocumentOrShadowRoot higherDom)); [done|].
  apply bind_Ok in Hrest as (higherElements & Hhigher & [= <-]).
  split; [by apply prefix_app_r|].
  intros e [He|He]%elem_of_app; [by eexists|].
  destruct (IH _ _ Hhigher) as [_ Hfrom]. apply Hfrom.
  revert He. unfold trimHost.
  destruct (String.eqb _ _); [|done].
  destruct (strictEq _ _); [|done].
  intros He. eapply elem_of_sublist; [exact He|apply sublist_drop].
Qed.

(** ** Tree builder: where an element is attached *)

Lemma pop_Some {A} (l : list A) (a : A) (rest : list A) :
  pop l = Some (a, rest) ↔ l = rest ++ [a].
Proof.
  unfold pop. destruct (last l) as [b|] eqn:Hlast.
  - apply last_Some in Hlast as [l' ->].
    rewrite length_app, Nat.add_sub. simpl.
    rewrite take_app_length. split.
    + by intros [= -> ->].
    + by intros [-> ->]%app_inj_tail.
  - apply last_None in Hlast as ->. split; [done|].
    intros Hl. by destruct rest.
Qed.

Lemma pop_None {A} (l : list A) : pop l = None ↔ l = [].
Proof.
  unfold pop. destruct (last l) as [b|] eqn:Hlast.
  - split; [done|]. intros ->. done.
  - by apply last_None in Hlast as ->.
Qed.

(** The loop, run to its end, is the walk. *)
Lemma stepUp_resolves (fuel : nat) (dom : DOM) (potentialParents : gset Element)
    (element : Element) (parent : option Element) (higher : list Element)
    (st st' : BuildState) :
  stepUp fuel dom potentialParents element parent higher st = Ok st' →
  ∃ r, resolves dom potentialParents parent higher r ∧
       st' = settle r element st.
Proof.
  revert parent higher. induction fuel as [|fuel IH]; intros parent higher;
    cbn [stepUp]; destruct parent as [p|].
  - destruct (decide (p ∈ potentialParents)); [|done].
    intros [= <-]. exists (Some p). split; [by constructor|done].
  - destruct (pop higher) as [[p rest]|] eqn:Hpop; [done|]. intros [= <-].
    exists None. split; [by constructor|done].
  - destruct (decide (p ∈ potentialParents)).
    + intros [= <-]. exists (Some p). split; [by constructor|done].
    + intros (r & Hr & ->)%IH. exists r. split; [by constructor|done].
  - destruct (pop higher) as [[p rest]|] eqn:Hpop.
    + intros (r & Hr & ->)%IH. exists r. split; [by econstructor|done].
    + intros [= <-]. exists None. split; [by constructor|done].
Qed.

Lemma resolves_stepUp (dom : DOM) (potentialParents : gset Element)
    (element : Element) (parent : option Element) (higher : list Element)
    (r : option Element) (st : BuildState) :
  resolves dom potentialParents parent higher r →
  ∃ fuel, stepUp fuel dom potentialParents element parent higher st
          = Ok (settle r element st).
Proof.
  induction 1 as [p higher Hp|p higher r Hp _ [fuel IH]
                 |h rest higher r Hpop _ [fuel IH]|higher Hpop].
  - exists 0. cbn [stepUp]. by rewrite decide_True.
  - exists (S fuel). cbn [stepUp]. by rewrite decide_False.
  - exists (S fuel). cbn [stepUp]. by rewrite Hpop.
  - exists 0. cbn [stepUp]. by rewrite Hpop.
Qed.

(** A resolved parent is a potential parent, reached from the first candidate
    or from a pending host by [parentElement] steps. *)
Lemma resolves_visible (dom : DOM) (potentialParents : gset Element)
    (parent : option Element) (higher : list Element) (p : Element) :
  resolves dom potentialParents parent higher (Some p) →
  p ∈ potentialParents ∧
  ((∃ q, parent = Some q ∧ rtc (parentElementOf dom) q p) ∨
   (∃ h, h ∈ higher ∧ rtc (parentElementOf dom) h p)).
Proof.
  remember (Some p) as r eqn:Hr. intros Hres. revert Hr.
  induction Hres as [q higher Hq|q higher r Hq Hres IH
                    |h rest higher r Hpop Hres IH|higher Hpop]; intros Hr.
  - injection Hr as ->. split; [done|]. left. exists p. split; [done|].
    apply rtc_refl.
  - destruct (IH Hr) as [Hp [(q' & Hq' & Hup)|Hhost]]; (split; [done|]).
    + left. exists q. split; [done|]. by eapply rtc_l.
    + by right.
  - apply pop_Some in Hpop as ->.
    destruct (IH Hr) as [Hp [(q' & [= <-] & Hup)|(h' & Hh' & Hup)]];
      (split; [done|]); right.
    + exists h. split; [|done]. apply elem_of_app. right. by left.
    + exists h'. split; [|done]. apply elem_of_app. by left.
  - done.
Qed.

(** With no pending host the walk is the ancestor chain: it stops at the
    nearest ancestor-or-self among the potential parents. *)
Lemma resolves_nearest (dom : DOM) (potentialParents : gset Element)
    (q p : Element) :
  resolves dom potentialParents (Some q) [] (Some p) →
  rtc (parentElementOf dom) q p ∧ p ∈ potentialParents ∧
  ∀ a, rtc (parentElementOf dom) q a → a ∈ potentialParents →
       rtc (parentElementOf dom) p a.
Proof.
  remember (Some q) as parent eqn:Hparent.
  remember (Some p) as r eqn:Hr. remember [] as higher eqn:Hhigher.
  intros Hres. revert q Hparent Hr Hhigher.
  induction Hres as [q' higher Hq|q' higher r Hq Hres IH
                    |h rest higher r Hpop Hres IH|higher Hpop];
    intros q Hparent Hr Hhigher; simplify_eq.
  - split; [apply rtc_refl|]. by split.
  - destruct (parentElement dom q) as [q1|] eqn:Hq1.
    + destruct (IH q1 eq_refl eq_refl eq_refl) as (Hup & Hp & Hnear).
      split; [by eapply rtc_l|]. split; [done|].
      intros a Hqa Ha. apply rtc_inv in Hqa as [->|(q2 & Hq2 & Hq2a)];
        [done|].
      unfold parentElementOf in Hq2. simplify_eq. by apply Hnear.
    + inversion Hres; simplify_eq.
Qed.

(** When the walk runs out, no candidate was a potential parent: none of the
    ancestors of the first candidate, none of the pending hosts and none of
    their ancestors. *)
Lemma resolves_exhausted (dom : DOM) (potentialParents : gset Element)
    (parent : option Element) (higher : list Element) :
  resolves dom potentialParents parent higher None →
  (∀ q a, parent = Some q → rtc (parentElementOf dom) q a →
          a ∉ potentialParents) ∧
  (∀ h a, h ∈ higher → rtc (parentElementOf dom) h a →
          a ∉ potentialParents).
Proof.
  remember None as r eqn:Hr. intros Hres. revert Hr.
  induction Hres as [q higher Hq|q higher r Hq Hres IH
                    |h rest higher r Hpop Hres IH|higher Hpop]; intros Hr.
  - done.
  - destruct (IH Hr) as [Hparent Hhigher]. split; [|done].
    intros ? a [= <-] [->|(q1 & Hq1 & Hq1a)]%rtc_inv; [done|].
    by eapply Hparent.
  - apply pop_Some in Hpop as ->. destruct (IH Hr) as [Hparent Hhigher].
    split; [done|].
    intros h' a [Hh'|Hh']%elem_of_app Hup.
    + by eapply Hhigher.
    + apply list_elem_of_singleton in Hh' as ->. by eapply Hparent.
  - apply pop_None in Hpop as ->. split; [done|].
    by intros h a ?%not_elem_of_nil.
Qed.

Lemma resolves_functional (dom : DOM) (potentialParents : gset Element)
    (parent : option Element) (higher : list Element)
    (r r' : option Element) :
  resolves dom potentialParents parent higher r →
  resolves dom potentialParents parent higher r' → r = r'.
Proof.
  intros Hr. revert r'.
  induction Hr as [p higher Hp|p higher r Hp _ IH
                  |h rest higher r Hpop _ IH|higher Hpop];
    intros r' Hr'; inversion Hr'; simplify_eq; try done.
  - by apply IH.
  - by apply IH.
Qed.

Lemma parentElement_level (dom : DOM) (level : Node → nat) (p q : Element) :
  layered dom level → parentElement dom p = Some q →
  level (ElementNode q) < level (ElementNode p).
Proof.
  intros Hlayered. unfold parentElement. intros Hq.
  apply (proj1 Hlayered). simpl.
  destruct (elementParentNode dom p) as [[| |q'|]|]; by simplify_eq.
Qed.

Lemma tc_ancestors (dom : DOM) (level : Node → nat) (fuel : nat)
    (e a : Element) :
  layered dom level → level (ElementNode e) ≤ fuel →
  tc (parentElementOf dom) e a → a ∈ ancestors fuel dom e.
Proof.
  intros Hlayered. revert e. induction fuel as [|fuel IH]; intros e Hle Hup.
  - inversion Hup as [? ? Hq|? q ? Hq _]; subst;
      apply (parentElement_level dom level _ _ Hlayered) in Hq; lia.
  - simpl. inversion Hup as [? ? Hq|? q ? Hq Hqa]; subst; rewrite Hq.
    + by left.
    + right. apply IH; [|done].
      apply (parentElement_level dom level _ _ Hlayered) in Hq. lia.
Qed.

Lemma ancestors_tc (dom : DOM) (fuel : nat) (e a : Element) :
  a ∈ ancestors fuel dom e → tc (parentElementOf dom) e a.
Proof.
  revert e. induction fuel as [|fuel IH]; intros e; simpl.
  - by intros ?%not_elem_of_nil.
  - destruct (parentElement dom e) as [q|] eqn:Hq;
      [|by intros ?%not_elem_of_nil].
    intros [->|Ha]%elem_of_cons; [by apply tc_once|].
    eapply tc_l; [exact Hq|by apply IH].
Qed.

(** Fuel beyond the level of the element adds no ancestor. *)
Lemma ancestors_fuel (dom : DOM) (level : Node → nat) (fuel fuel' : nat)
    (e : Element) :
  layered dom level →
  level (ElementNode e) ≤ fuel → level (ElementNode e) ≤ fuel' →
  ancestors fuel dom e = ancestors fuel' dom e.
Proof.
  intros Hlayered. revert fuel' e.
  induction fuel as [|fuel IH]; intros fuel' e Hle Hle';
    destruct fuel' as [|fuel']; simpl; try done;
    destruct (parentElement dom e) as [q|] eqn:Hq; try done;
    apply (parentElement_level dom level _ _ Hlayered) in Hq; try lia.
  f_equal. apply IH; lia.
Qed.

Lemma ancestors_step (dom : DOM) (level : Node → nat) (L : nat)
    (p : Element) :
  layered dom level → (∀ n, level n ≤ L) →
  ancestors L dom p
  = match parentElement dom p with
    | Some q => q :: ancestors L dom q
    | None => []
    end.
Proof.
  intros Hlayered Hbound. pose proof (Hbound (ElementNode p)) as Hp.
  destruct (parentElement dom p) as [q|] eqn:Hq.
  - pose proof (parentElement_level dom level _ _ Hlayered Hq) as Hlt.
    destruct L as [|L]; [lia|].
    rewrite (ancestors_fuel dom level (S L) L q Hlayered) by lia.
    simpl. by rewrite Hq.
  - destruct L; simpl; by rewrite ?Hq.
Qed.

(** The outcome of the walk is the first potential parent in the
    visibility chain. *)
Lemma resolves_first_in_chain (dom : DOM) (level : Node → nat) (L : nat)
    (potentialParents : gset Element) (parent : option Element)
    (higher : list Element) (r : option Element) :
  layered dom level → (∀ n, level n ≤ L) →
  resolves dom potentialParents parent higher r →
  r = head (filter (λ a, a ∈ potentialParents)
              (visibilityChain L dom parent higher)).
Proof.
  intros Hlayered Hbound.
  induction 1 as [p higher Hp|p higher r Hp _ IH
                 |h rest higher r Hpop _ IH|higher Hpop].
  - unfold visibilityChain. simpl. by rewrite filter_cons_True.
  - rewrite IH. unfold visibilityChain. simpl.
    rewrite filter_cons_False by done.
    rewrite (ancestors_step dom level L p Hlayered Hbound).
    by destruct (parentElement dom p).
  - rewrite IH. apply pop_Some in Hpop as ->.
    unfold visibilityChain. by rewrite reverse_snoc.
  - apply pop_None in Hpop as ->. done.
Qed.

Section BuildWalk.
(** An invariant [Inv] of the build state that may rely, where an element is
    settled, on the walk that settled it; [Seen] describes the part of the
    list from the element on and [Fine] the pending hosts. *)
Context (dom : DOM) (Inv : BuildState → Prop).
Context (Seen Fine : list Element → Prop).
Context (Seen_tail : ∀ e rest, Seen (e :: rest) → Seen rest).
Context (Fine_snoc : ∀ hs e rest,
           Fine hs → Seen (e :: rest) → hasOpenShadowRoot dom e = true →
           Fine (hs ++ [e])).
Context (Inv_markShadowRoot : ∀ e st, Inv st → Inv (markShadowRoot e st)).
Context (Inv_settle : ∀ r e rest hs st,
           Inv st → e ∉ processedElements st → Seen (e :: rest) → Fine hs →
           resolves dom (list_to_set rest) (parentElement dom e) hs r →
           Inv (settle r e st)).

Lemma forEachElement_walk
    (rec : Node → list Element → BuildState → result BuildState)
    (fuel : nat) (higher elements : list Element) (st st' : BuildState) :
  (∀ scope hs s s', rec scope hs s = Ok s' → Fine hs → Inv s → Inv s') →
  forEachElement rec fuel dom higher elements st = Ok st' →
  Seen elements → Fine higher → Inv st → Inv st'.
Proof.
  intros Hrec. revert st.
  induction elements as [|element rest IH]; intros st; cbn [forEachElement].
  - by intros [= <-].
  - intros Hrun Hseen Hfine Hinv. pose proof (Seen_tail _ _ Hseen) as Hrest.
    destruct (decide (element ∈ processedElements st)) as [|Hfresh];
      [by eapply IH|].
    destruct (hasOpenShadowRoot dom element) eqn:Hhost; simpl in Hrun.
    + destruct (negb _).
      * apply bind_Ok in Hrun as (st1 & Hst1 & Hrun).
        eapply IH; [done..|]. eapply Hrec; [done| |].
        -- by eapply Fine_snoc.
        -- by apply Inv_markShadowRoot.
      * apply bind_Ok in Hrun as (st1 & Hst1 & Hrun).
        eapply IH; [done..|].
        apply stepUp_resolves in Hst1 as (r & Hr & ->). by eapply Inv_settle.
    + apply bind_Ok in Hrun as (st1 & Hst1 & Hrun).
      eapply IH; [done..|].
      apply stepUp_resolves in Hst1 as (r & Hr & ->). by eapply Inv_settle.
Qed.

Lemma recurse_walk (fuel : nat) (x y : Z) (scope : Node)
    (higher : list Element) (st st' : BuildState) :
  (∀ f s l, engineIndependentElementsFromPoint f dom x y s = Ok l → Seen l) →
  recurse fuel dom x y scope higher st = Ok st' →
  Fine higher → Inv st → Inv st'.
Proof.
  intros Hseen. revert scope higher st st'.
  induction fuel as [|fuel IH]; intros scope higher st st'; [done|].
  cbn [recurse]. intros (elements & Hel & Hrun)%bind_Ok Hfine Hinv.
  eapply forEachElement_walk; [|done| |done|done].
  - intros ????. apply IH.
  - by eapply Hseen.
Qed.
End BuildWalk.

Lemma tailOfQuery_tail (dom : DOM) (x y : Z) (e : Element)
    (rest : list Element) :
  tailOfQuery dom x y (e :: rest) → tailOfQuery dom x y rest.
Proof.
  intros (fuel & scope & before & Hl). exists fuel, scope, (before ++ [e]).
  by rewrite <- app_assoc.
Qed.

Lemma tailOfQuery_whole (dom : DOM) (x y : Z) (fuel : nat) (scope : Node)
    (l : list Element) :
  engineIndependentElementsFromPoint fuel dom x y scope = Ok l →
  tailOfQuery dom x y l.
Proof. intros Hl. by exists fuel, scope, []. Qed.

Lemma parentElementOf_tc (dom : DOM) (e q p : Element) :
  parentElement dom e = Some q → rtc (parentElementOf dom) q p →
  tc (parentElementOf dom) e p.
Proof. intros Hq Hup. by eapply tc_rtc_r; [apply tc_once|]. Qed.

Lemma parentElementOf_tc_inv (dom : DOM) (e a : Element) :
  tc (parentElementOf dom) e a →
  ∃ q, parentElement dom e = Some q ∧ rtc (parentElementOf dom) q a.
Proof.
  intros Hup. inversion Hup as [? ? Hq|? q ? Hq Hqa]; subst.
  - exists a. split; [done|]. apply rtc_refl.
  - exists q. split; [done|]. by apply tc_rtc.
Qed.

(** Every element of the map was hit, with its parent behind it. *)
Lemma elementTreeFromPoint_child_hit (fuel : nat) (dom : DOM) (x y : Z)
    (top : Node) (tree : ElementTree) (p c : Element) :
  elementTreeFromPoint fuel dom x y top = Ok (Some tree) →
  child (elementsByParent tree) p c →
  ∃ f scope l, engineIndependentElementsFromPoint f dom x y scope = Ok l ∧
               behind l c p.
Proof.
  unfold elementTreeFromPoint. intros (st & Hst & Hret)%bind_Ok.
  destruct (st_root st) as [r|]; [|done]. injection Hret as <-.
  cbn [elementsByParent]. revert p c.
  refine (recurse_invariant
    (λ s, ∀ p c, child (st_elementsByParent s) p c →
       ∃ f scope l, engineIndependentElementsFromPoint f dom x y scope = Ok l ∧
                    behind l c p)
    (tailOfQuery dom x y) _ _ _ _ fuel dom x y top [] initialState st _ Hst _);
    try done.
  - apply tailOfQuery_tail.
  - intros p' e rest s Hinv _ Hp (f & scope & before & Hl).
    intros p c [Hc|[-> ->]]%child_addToKeyedList; [by apply Hinv|].
    exists f, scope, (before ++ e :: rest). split; [done|].
    by exists before, rest.
  - intros f s l. apply tailOfQuery_whole.
  - intros p c (l & Hl & _). simpl in Hl. by rewrite lookup_empty in Hl.
Qed.

(** X6.  In the returned map the parent of every element is found further
    down the normalized list that holds the element, and is visible from
    it: an ancestor of the element, or a host of an open shadow root or one
    of that host's ancestors.  No key of the map has an empty list. *)
Theorem elementTreeFromPoint_parent_behind_and_visible (fuel : nat)
    (dom : DOM) (x y : Z) (top : Node) (tree : ElementTree) :
  elementTreeFromPoint fuel dom x y top = Ok (Some tree) →
  (∀ p l, elementsByParent tree !! p = Some l → l ≠ []) ∧
  ∀ p c, child (elementsByParent tree) p c →
    (∃ f scope l, engineIndependentElementsFromPoint f dom x y scope = Ok l ∧
                  behind l c p) ∧
    (tc (parentElementOf dom) c p ∨
     ∃ h, hasOpenShadowRoot dom h = true ∧ rtc (parentElementOf dom) h p).
Proof.
  unfold elementTreeFromPoint. intros (st & Hst & Hret)%bind_Ok.
  destruct (st_root st) as [r|]; [|done]. injection Hret as <-.
  cbn [elementsByParent].
  refine (recurse_walk dom
    (λ s, (∀ p l, st_elementsByParent s !! p = Some l → l ≠ []) ∧
          ∀ p c, child (st_elementsByParent s) p c →
      (∃ f scope l, engineIndependentElementsFromPoint f dom x y scope = Ok l ∧
                    behind l c p) ∧
      (tc (parentElementOf dom) c p ∨
       ∃ h, hasOpenShadowRoot dom h = true ∧ rtc (parentElementOf dom) h p))
    (tailOfQuery dom x y)
    (Forall (λ h, hasOpenShadowRoot dom h = true))
    _ _ _ _ fuel x y top [] initialState st _ Hst _ _).
  - apply tailOfQuery_tail.
  - intros hs e rest Hhs _ He. apply Forall_app. split; [done|].
    by apply Forall_singleton.
  - done.
  - intros [p'|] e rest hs s [Hfull Hinv] _ (f & scope & before & Hl) Hhs Hres;
      [|done].
    split.
    { intros p l. simpl. unfold addToKeyedList.
      destruct (decide (p = p')) as [->|Hne].
      - rewrite lookup_insert_eq. intros [= <-]. by destruct (default _ _).
      - rewrite lookup_insert_ne by done. apply Hfull. }
    intros p c [Hc|[-> ->]]%child_addToKeyedList; [by apply Hinv|].
    apply resolves_visible in Hres as [Hp Hvis]. split.
    + exists f, scope, (before ++ e :: rest). split; [done|].
      exists before, rest. split; [done|]. by apply elem_of_list_to_set in Hp.
    + destruct Hvis as [(q & Hq & Hup)|(h & Hh & Hup)].
      * left. by eapply parentElementOf_tc.
      * right. exists h. split; [|done]. rewrite Forall_forall in Hhs.
        by apply Hhs.
  - intros f s l. apply tailOfQuery_whole.
  - done.
  - split.
    + intros p l. simpl. by rewrite lookup_empty.
    + intros p c (l & Hl & _). simpl in Hl. by rewrite lookup_empty in Hl.
Qed.

(** X7.  The returned root was hit in some scope, and none of its ancestors
    lies behind it in the normalized list of that scope. *)
Theorem elementTreeFromPoint_root_has_no_ancestor_behind (fuel : nat)
    (dom : DOM) (x y : Z) (top : Node) (tree : ElementTree) :
  elementTreeFromPoint fuel dom x y top = Ok (Some tree) →
  ∃ f scope before after,
    engineIndependentElementsFromPoint f dom x y scope
      = Ok (before ++ root tree :: after) ∧
    ∀ a, tc (parentElementOf dom) (root tree) a → a ∉ after.
Proof.
  unfold elementTreeFromPoint. intros (st & Hst & Hret)%bind_Ok.
  destruct (st_root st) as [r|] eqn:Hroot; [|done]. injection Hret as <-.
  cbn [root]. revert r Hroot.
  refine (recurse_walk dom
    (λ s, ∀ r, st_root s = Some r →
       ∃ f scope before after,
         engineIndependentElementsFromPoint f dom x y scope
           = Ok (before ++ r :: after) ∧
         ∀ a, tc (parentElementOf dom) r a → a ∉ after)
    (tailOfQuery dom x y) (λ _, True)
    _ _ _ _ fuel x y top [] initialState st _ Hst _ _); try done.
  - apply tailOfQuery_tail.
  - intros [p'|] e rest hs s Hinv _ (f & scope & before & Hl) _ Hres;
      [done|].
    intros r [= <-]. exists f, scope, before, rest. split; [done|].
    apply resolves_exhausted in Hres as [Hparent _].
    intros a (q & Hq & Hup)%parentElementOf_tc_inv Ha.
    eapply Hparent; [done..|]. by apply elem_of_list_to_set.
  - intros f s l. apply tailOfQuery_whole.
Qed.

(** X8.  On a page without open shadow roots every element of the returned
    map sits under its nearest ancestor among the elements behind it in the
    hit test: the parent is an ancestor, it lies behind the element, and any
    other ancestor behind the element is the parent's ancestor. *)
Theorem elementTreeFromPoint_nearest_ancestor_behind (fuel : nat)
    (dom : DOM) (x y : Z) (top : Node) (tree : ElementTree) :
  (∀ e, hasOpenShadowRoot dom e = false) →
  elementTreeFromPoint fuel dom x y top = Ok (Some tree) →
  ∀ p c, child (elementsByParent tree) p c →
    tc (parentElementOf dom) c p ∧
    ∃ f scope before after,
      engineIndependentElementsFromPoint f dom x y scope
        = Ok (before ++ c :: after) ∧
      p ∈ after ∧
      ∀ a, tc (parentElementOf dom) c a → a ∈ after →
           rtc (parentElementOf dom) p a.
Proof.
  intros Hplain. unfold elementTreeFromPoint. intros (st & Hst & Hret)%bind_Ok.
  destruct (st_root st) as [r|]; [|done]. injection Hret as <-.
  cbn [elementsByParent].
  refine (recurse_walk dom
    (λ s, ∀ p c, child (st_elementsByParent s) p c →
       tc (parentElementOf dom) c p ∧
       ∃ f scope before after,
         engineIndependentElementsFromPoint f dom x y scope
           = Ok (before ++ c :: after) ∧
         p ∈ after ∧
         ∀ a, tc (parentElementOf dom) c a → a ∈ after →
              rtc (parentElementOf dom) p a)
    (tailOfQuery dom x y) (λ hs, hs = [])
    _ _ _ _ fuel x y top [] initialState st _ Hst _ _); try done.
  - apply tailOfQuery_tail.
  - intros hs e rest _ _ He. by rewrite Hplain in He.
  - intros [p'|] e rest hs s Hinv _ (f & scope & before & Hl) -> Hres;
      [|done].
    intros p c [Hc|[-> ->]]%child_addToKeyedList; [by apply Hinv|].
    destruct (parentElement dom e) as [q|] eqn:Hq;
      [|inversion Hres; simplify_eq].
    apply resolves_nearest in Hres as (Hup & Hp & Hnear).
    split; [by eapply parentElementOf_tc|].
    exists f, scope, before, rest. split; [done|].
    split; [by apply elem_of_list_to_set in Hp|].
    intros a (q' & Hq' & Hq'a)%parentElementOf_tc_inv Ha. simplify_eq.
    apply Hnear; [done|]. by apply elem_of_list_to_set.
  - intros f s l. apply tailOfQuery_whole.
  - intros p c (l & Hl & _). simpl in Hl. by rewrite lookup_empty in Hl.
Qed.

(** X9.  Where every non-empty normalized list ends in the root element,
    the builder returns no tree exactly when nothing is hit in the top
    scope, and a tree it returns is rooted at the root element. *)
Theorem elementTreeFromPoint_null_iff_nothing_hit (fuel : nat) (dom : DOM)
    (x y : Z) (html : Element) (top : Node) (t : option ElementTree) :
  hitTestReachesRoot dom x y html →
  elementTreeFromPoint fuel dom x y top = Ok t →
  (t = None ↔ engineIndependentElementsFromPoint fuel dom x y top = Ok []) ∧
  (∀ tree, t = Some tree → root tree = html).
Proof.
  intros Hreach. unfold elementTreeFromPoint.
  intros (st & Hst & Hret)%bind_Ok.
  destruct fuel as [|fuel]; [done|]. cbn [recurse] in Hst.
  apply bind_Ok in Hst as (elements & Hel & Hrun). rewrite Hel.
  destruct elements as [|e rest].
  - injection Hrun as <-. injection Hret as <-. split; [done|]. done.
  - assert (st_root st = Some html) as Hroot.
    { eapply (forEachElement_root dom x y html Hreach); [|done| |done|].
      - intros ????. by apply recurse_root_unprocessed.
      - destruct Hreach as (_ & _ & Hends). by eapply Hends.
      - simpl. apply not_elem_of_empty. }
    rewrite Hroot in Hret. injection Hret as <-. split; [done|].
    by intros tree [= <-].
Qed.

(** ** Flattening: what is listed, and in which order *)

Lemma flattenElementTree_last (fuel : nat) (m : gmap Element (list Element))
    (e : Element) (flat : list Element) :
  flattenElementTree fuel m e = Ok flat → ∃ l, flat = l ++ [e].
Proof.
  destruct fuel as [|fuel]; [done|].
  intros (ls & _ & ->)%flattenElementTree_Ok. by eexists.
Qed.

(** X10.  The flattening of an element ends with the element itself and
    lists exactly the elements reachable from it through the child lists. *)
Theorem flattenElementTree_lists_descendants (fuel : nat)
    (m : gmap Element (list Element)) (e : Element) (flat : list Element) :
  flattenElementTree fuel m e = Ok flat →
  last flat = Some e ∧ ∀ a, a ∈ flat ↔ rtc (child m) e a.
Proof.
  intros Hflat. split.
  - destruct (flattenElementTree_last _ _ _ _ Hflat) as [l ->].
    apply last_snoc.
  - intros a. split.
    + by eapply flattenElementTree_below.
    + by eapply flattenElementTree_covers.
Qed.

Lemma Forall2_concat_block {A B} (P : A → list B → Prop) (cs : list A)
    (ls : list (list B)) (c : A) :
  Forall2 P cs ls → c ∈ cs →
  ∃ lc pre post, P c lc ∧ concat ls = pre ++ lc ++ post.
Proof.
  induction 1 as [|c' lc' cs ls Hc' _ IH].
  - by intros ?%not_elem_of_nil.
  - intros [->|Hc]%elem_of_cons.
    + exists lc', [], (concat ls). done.
    + destruct (IH Hc) as (lc & pre & post & Hlc & Heq).
      exists lc, (lc' ++ pre), post. split; [done|]. simpl.
      by rewrite Heq, <- app_assoc.
Qed.

(** The flattening of a descendant is a block of the flattening of its
    ancestor, which the ancestor follows. *)
Lemma flattenElementTree_block (m : gmap Element (list Element))
    (fuel : nat) (e a : Element) (flat : list Element) :
  flattenElementTree fuel m e = Ok flat → tc (child m) e a →
  ∃ fa pre post,
    flattenElementTree fuel m a = Ok fa ∧ flat = pre ++ fa ++ post ++ [e].
Proof.
  intros Hflat Hdown. revert fuel flat Hflat.
  induction Hdown as [e a Hea|e c a Hec Hca IH]; intros fuel flat Hflat.
  - destruct fuel as [|fuel]; [done|].
    pose proof Hflat as (ls & Hls & ->)%flattenElementTree_Ok.
    destruct Hea as (l & Hl & Ha). rewrite Hl in Hls. simpl in Hls.
    destruct (Forall2_concat_block _ _ _ _ Hls Ha)
      as (fa & pre & post & Hfa & ->).
    exists fa, pre, post. split.
    + eapply flattenElementTree_mono; [done|lia].
    + by rewrite <- !app_assoc.
  - destruct fuel as [|fuel]; [done|].
    pose proof Hflat as (ls & Hls & ->)%flattenElementTree_Ok.
    destruct Hec as (l & Hl & Hc). rewrite Hl in Hls. simpl in Hls.
    destruct (Forall2_concat_block _ _ _ _ Hls Hc)
      as (fc & pre & post & Hfc & ->).
    destruct (IH _ _ Hfc) as (fa & pre' & post' & Hfa & ->).
    exists fa, (pre ++ pre'), (post' ++ [c] ++ post). split.
    + eapply flattenElementTree_mono; [done|lia].
    + by rewrite <- !app_assoc.
Qed.

(** Of two listed elements the deeper one comes first. *)
Lemma flattenElementTree_deeper_first (fuel : nat)
    (m : gmap Element (list Element)) (e a b : Element)
    (flat : list Element) :
  flattenElementTree fuel m e = Ok flat →
  rtc (child m) e a → tc (child m) a b →
  ∃ l1 l2 l3, flat = l1 ++ b :: l2 ++ a :: l3.
Proof.
  intros Hflat Hea Hab.
  assert (∃ fa pre post,
    flattenElementTree fuel m a = Ok fa ∧ flat = pre ++ fa ++ post)
    as (fa & pre & post & Hfa & ->).
  { apply rtc_tc in Hea as [<-|Hea].
    - exists flat, [], []. split; [done|]. by rewrite app_nil_r.
    - destruct (flattenElementTree_block _ _ _ _ _ Hflat Hea)
        as (fa & pre & post & Hfa & ->). by exists fa, pre, (post ++ [e]). }
  destruct (flattenElementTree_block _ _ _ _ _ Hfa Hab)
    as (fb & pre' & post' & Hfb & ->).
  destruct (flattenElementTree_last _ _ _ _ Hfb) as [lb ->].
  exists (pre ++ pre' ++ lb), post', post. by rewrite <- !app_assoc.
Qed.

(** X11.  Flattening puts every element behind all of its descendants: the
    flattening of a descendant is a contiguous block of the flattening of
    its ancestor, ahead of the ancestor, and of two listed elements the
    deeper one comes first. *)
Theorem flattenElementTree_descendants_first (fuel : nat)
    (m : gmap Element (list Element)) (e : Element) (flat : list Element) :
  flattenElementTree fuel m e = Ok flat →
  (∀ b, tc (child m) e b →
     ∃ fb pre post,
       flattenElementTree fuel m b = Ok fb ∧
       flat = pre ++ fb ++ post ++ [e]) ∧
  (∀ a b, rtc (child m) e a → tc (child m) a b →
     ∃ l1 l2 l3, flat = l1 ++ b :: l2 ++ a :: l3).
Proof.
  intros Hflat. split.
  - intros b. by apply flattenElementTree_block.
  - intros a b. by apply (flattenElementTree_deeper_first fuel).
Qed.

(** ** The default path *)

Lemma OnDefaultPath_below (m : gmap Element (list Element)) (r e : Element) :
  OnDefaultPath m r e → rtc (child m) r e.
Proof.
  induction 1 as [r|r c e l Hl _ IH]; [apply rtc_refl|].
  eapply rtc_l; [|done]. exists (c :: l). split; [done|]. by left.
Qed.

Lemma OnDefaultPath_chain (m : gmap Element (list Element)) (r e e' : Element) :
  OnDefaultPath m r e → OnDefaultPath m r e' →
  OnDefaultPath m e e' ∨ OnDefaultPath m e' e.
Proof.
  induction 1 as [r|r c e l Hl He IH]; intros He'; [by left|].
  inversion He' as [|? c' ? l' Hl' Hc']; subst.
  - right. by econstructor.
  - rewrite Hl in Hl'. injection Hl' as <- <-. by apply IH.
Qed.

Lemma flattenElementTree_head (fuel : nat) (m : gmap Element (list Element))
    (r : Element) (flat : list Element) :
  flattenElementTree fuel m r = Ok flat →
  ∃ a, head flat = Some a ∧ OnDefaultPath m r a ∧ m !! a ≫= head = None.
Proof.
  revert r flat. induction fuel as [|fuel IH]; intros r flat; [done|].
  intros (ls & Hls & ->)%flattenElementTree_Ok.
  destruct (m !! r) as [[|c l]|] eqn:Hr; simpl in Hls.
  - inversion Hls; subst. exists r. simpl. split; [done|].
    split; [constructor|]. by rewrite Hr.
  - inversion Hls as [|? lc ? ls' Hc Hrest]; subst.
    destruct (IH _ _ Hc) as (a & Hhead & Hpath & Hleaf).
    exists a. split; [|split; [by econstructor|done]].
    destruct lc as [|a' lc]; [done|]. by simpl in *.
  - inversion Hls; subst. exists r. simpl. split; [done|].
    split; [constructor|]. by rewrite Hr.
Qed.

(** X12.  The default path holds the target and only elements below it, is
    totally ordered by descent, and ends at the childless element that the
    flattening lists first. *)
Theorem getDefaultPathElementSet_first_child_chain (fuel : nat)
    (m : gmap Element (list Element)) (r : Element) (dp : gset Element) :
  getDefaultPathElementSet fuel m r = Ok dp →
  r ∈ dp ∧
  (∀ e, e ∈ dp → rtc (child m) r e) ∧
  (∀ e e', e ∈ dp → e' ∈ dp → rtc (child m) e e' ∨ rtc (child m) e' e) ∧
  (∀ n flat, flattenElementTree n m r = Ok flat →
     ∃ a, head flat = Some a ∧ a ∈ dp ∧ m !! a ≫= head = None).
Proof.
  intros Hdp. pose proof (getDefaultPathElementSet_spec _ _ _ _ Hdp) as Hspec.
  split_and!.
  - apply Hspec. constructor.
  - intros e He%Hspec. by apply OnDefaultPath_below.
  - intros e e' He%Hspec He'%Hspec.
    destruct (OnDefaultPath_chain _ _ _ _ He He');
      [left|right]; by apply OnDefaultPath_below.
  - intros n flat Hflat.
    destruct (flattenElementTree_head _ _ _ _ Hflat) as (a & Ha & Hpath & Hleaf).
    exists a. split; [done|]. split; [by apply Hspec|done].
Qed.

(** ** Redispatch: who is served, with what, and what is left behind *)

Section RedispatchOrder.
Context {World : Type}.
Context (dispatchEvent : Element → MouseEvent → World → World * bool).
Context (dp : gset Element) (event : MouseEvent) (ty : string)
        (eventInitDict : MouseEventInit).

Abbreviation served := (dispatchLoop dispatchEvent dp event ty eventInitDict).

(** Cancelled or not, the loop serves an initial part of the elements off
    the default path, in the order of the list. *)
Lemma dispatchLoop_prefix (subtree : list Element) (w : World) :
  (dispatched (served subtree w)).*1 `prefix_of` filter (λ e, e ∉ dp) subtree.
Proof.
  revert w. induction subtree as [|e rest IH]; intros w; [done|].
  destruct (decide (e ∈ dp)) as [He|He].
  - rewrite dispatchLoop_skip by done. rewrite filter_cons_False by tauto.
    apply IH.
  - rewrite filter_cons_True by done.
    destruct (dispatchEvent e (constructMouseEvent event ty eventInitDict) w)
      as [w' []] eqn:Hd.
    + rewrite (dispatchLoop_cancel _ _ _ _ _ _ rest _ _ He Hd). simpl.
      by apply prefix_cons, prefix_nil.
    + rewrite (dispatchLoop_continue _ _ _ _ _ _ rest _ _ He Hd).
      cbn [dispatched]. rewrite fmap_cons. by apply prefix_cons.
Qed.

(** The original event comes back marked exactly when a clone was
    cancelled, and a run that serves nobody leaves the world alone. *)
Lemma dispatchLoop_original (subtree : list Element) (w : World) :
  original (served subtree w)
  = (if existsb snd (dispatched (served subtree w))
     then preventDefault event else event) ∧
  (dispatched (served subtree w) = [] → world (served subtree w) = w).
Proof.
  revert w. induction subtree as [|e rest IH]; intros w; [done|].
  destruct (decide (e ∈ dp)) as [He|He].
  - rewrite dispatchLoop_skip by done. apply IH.
  - destruct (dispatchEvent e (constructMouseEvent event ty eventInitDict) w)
      as [w' []] eqn:Hd.
    + by rewrite (dispatchLoop_cancel _ _ _ _ _ _ rest _ _ He Hd).
    + rewrite (dispatchLoop_continue _ _ _ _ _ _ rest _ _ He Hd).
      cbn [dispatched original world existsb snd orb]. split; [apply IH|done].
Qed.
End RedispatchOrder.

Section RedispatchRecorded.
Context {World : Type}.
Context (dispatchEvent : Element → MouseEvent → World → World * bool).
Context (dp : gset Element) (event : MouseEvent) (ty : string)
        (eventInitDict : MouseEventInit).

(** Watching the listeners changes nothing, and the log holds one entry for
    each served element, in order, each with the one clone of the run. *)
Lemma dispatchLoop_recording (subtree : list Element) (w : World)
    (log : list (Element * MouseEvent)) :
  let r := dispatchLoop dispatchEvent dp event ty eventInitDict subtree w in
  let r' := dispatchLoop (recording dispatchEvent) dp event ty eventInitDict
              subtree (w, log) in
  (world r').1 = world r ∧ dispatched r' = dispatched r ∧
  original r' = original r ∧
  (world r').2
  = log ++ ((λ e, (e, constructMouseEvent event ty eventInitDict))
              <$> (dispatched r).*1).
Proof.
  revert w log. induction subtree as [|e rest IH]; intros w log.
  - simpl. by rewrite app_nil_r.
  - destruct (decide (e ∈ dp)) as [He|He].
    { rewrite !dispatchLoop_skip by done. apply IH. }
    destruct (dispatchEvent e (constructMouseEvent event ty eventInitDict) w)
      as [w' b] eqn:Hd.
    assert (recording dispatchEvent e
              (constructMouseEvent event ty eventInitDict) (w, log)
            = ((w', log ++ [(e, constructMouseEvent event ty eventInitDict)]),
               b)) as Hd'.
    { unfold recording. simpl. by rewrite Hd. }
    destruct b.
    + rewrite (dispatchLoop_cancel _ _ _ _ _ _ rest _ _ He Hd).
      by rewrite (dispatchLoop_cancel _ _ _ _ _ _ rest _ _ He Hd').
    + rewrite (dispatchLoop_continue _ _ _ _ _ _ rest _ _ He Hd).
      rewrite (dispatchLoop_continue _ _ _ _ _ _ rest _ _ He Hd').
      cbn [world dispatched original].
      destruct (IH w' (log ++ [(e, constructMouseEvent event ty eventInitDict)]))
        as (Hw & Hdis & Ho & Hl).
      rewrite Hw, Hdis, Ho, Hl. rewrite !fmap_cons. simpl.
      by rewrite <- app_assoc.
Qed.
End RedispatchRecorded.

Lemma elementTreeFromPoint_wellKept (fuel : nat) (dom : DOM) (x y : Z)
    (top : Node) (tree : ElementTree) :
  elementTreeFromPoint fuel dom x y top = Ok (Some tree) →
  (∀ p l, elementsByParent tree !! p = Some l → NoDup l) ∧
  (∀ p q c, child (elementsByParent tree) p c →
            child (elementsByParent tree) q c → p = q).
Proof.
  unfold elementTreeFromPoint. intros (st & Hst & Hret)%bind_Ok.
  destruct (st_root st) as [r|]; [|done]. injection Hret as <-.
  cbn [elementsByParent].
  destruct (recurse_wellKept _ _ _ _ _ _ _ _ Hst initialState_wellKept)
    as (Hnodup & Huniq & _).
  done.
Qed.

(** Under one stacking order the flattening of a returned tree repeats no
    element. *)
Lemma elementTreeFromPoint_flat_NoDup (fuel n : nat) (dom : DOM) (x y : Z)
    (pos : Element → nat) (top : Node) (tree : ElementTree) (e : Element)
    (flat : list Element) :
  stackingOrdered dom x y pos →
  elementTreeFromPoint fuel dom x y top = Ok (Some tree) →
  flattenElementTree n (elementsByParent tree) e = Ok flat →
  NoDup flat.
Proof.
  intros Hsorted Htree Hflat.
  destruct (elementTreeFromPoint_wellKept _ _ _ _ _ _ Htree) as [Hnodup Huniq].
  pose proof (elementTreeFromPoint_ranked _ _ _ _ _ _ _ Hsorted Htree) as Hrank.
  destruct (ranked_forest _ _ e Hnodup Huniq Hrank) as (flat' & Hflat' & Hnd & _).
  destruct (decide (n ≤ S (pos e))) as [Hle|Hgt].
  - pose proof (flattenElementTree_mono _ _ _ _ _ Hflat Hle) as Heq.
    rewrite Hflat' in Heq. by injection Heq as <-.
  - assert (S (pos e) ≤ n) as Hle by lia.
    pose proof (flattenElementTree_mono _ _ _ _ _ Hflat' Hle) as Heq.
    rewrite Hflat in Heq. by injection Heq as <-.
Qed.

Lemma NoDup_split_unique {A} (l1 l2 k1 k2 : list A) (a : A) :
  NoDup (l1 ++ a :: l2) → l1 ++ a :: l2 = k1 ++ a :: k2 → l1 = k1.
Proof.
  revert k1. induction l1 as [|b l1 IH]; intros k1 Hnd Heq.
  - destruct k1 as [|c k1]; [done|]. simpl in *. injection Heq as <- ->.
    apply NoDup_cons in Hnd as [Hnot _]. destruct Hnot.
    apply elem_of_app. right. by left.
  - destruct k1 as [|c k1]; simpl in *.
    + injection Heq as -> _. apply NoDup_cons in Hnd as [Hnot _].
      destruct Hnot. apply elem_of_app. right. by left.
    + injection Heq as <- Heq. f_equal. apply IH; [|done].
      by apply NoDup_cons in Hnd as [_ ?].
Qed.

Section RedispatchFurther.
Context {World : Type}.
Context (dispatchEvent : Element → MouseEvent → World → World * bool).
Context (mouseEventInitDictBuilder : MouseEvent → MouseEventInit).

Abbreviation redispatch :=
  (dispatchToUnderlyingElements dispatchEvent mouseEventInitDictBuilder).

(** X13.  Whoever is served lies strictly below the current target in the
    tree built at the event's point, off the default path, and was hit at
    that point; the current target itself is never served. *)
Theorem dispatchToUnderlyingElements_serves_only_below
    (fuel : nat) (dom : DOM) (ev : MouseEvent) (w : World)
    (r : Effects World) (e : Element) :
  redispatch fuel dom ev w = Ok r →
  e ∈ (dispatched r).*1 →
  ∃ target d tree,
    currentTarget ev = Some (ElementNode target) ∧
    findRootNode fuel dom (ElementNode target) = Ok d ∧
    elementTreeFromPoint fuel dom (x ev) (y ev) d = Ok (Some tree) ∧
    tc (child (elementsByParent tree)) target e ∧
    ¬ OnDefaultPath (elementsByParent tree) target e ∧
    e ≠ target ∧
    ∃ f scope l,
      engineIndependentElementsFromPoint f dom (x ev) (y ev) scope = Ok l ∧
      e ∈ l.
Proof.
  intros [->|(target & d & tree & subtree & path & _ & Htarget & Hd & _ &
              Htree & Hflat & Hpath & ->)]%dispatchToUnderlyingElements_Ok He.
  { by apply not_elem_of_nil in He. }
  pose proof (dispatchLoop_prefix dispatchEvent path ev (type ev)
                (setBubbles false (mouseEventInitDictBuilder ev)) subtree w)
    as [k Hk].
  assert (e ∈ filter (λ e, e ∉ path) subtree) as [Hoff Hin]%list_elem_of_filter.
  { rewrite Hk. apply elem_of_app. by left. }
  assert (¬ OnDefaultPath (elementsByParent tree) target e) as Hnot.
  { intros Hon. apply Hoff. by apply (getDefaultPathElementSet_spec _ _ _ _ Hpath). }
  assert (e ≠ target) as Hne.
  { intros ->. apply Hnot. constructor. }
  assert (tc (child (elementsByParent tree)) target e) as Hbelow.
  { pose proof (flattenElementTree_below _ _ _ _ _ Hflat Hin) as Hrtc.
    apply rtc_tc in Hrtc as [->|?]; done. }
  exists target, d, tree. split_and!; try done.
  destruct (tc_last_step _ _ _ Hbelow) as (z & _ & Hz).
  destruct (elementTreeFromPoint_child_hit _ _ _ _ _ _ _ _ Htree Hz)
    as (f & scope & l & Hl & before & after & -> & _).
  exists f, scope, (before ++ e :: after). split; [done|].
  apply elem_of_app. right. by left.
Qed.

(** X14.  Under one stacking order nobody is served twice, and when an
    element is served, every element below it in the tree and off the
    default path has been served before it. *)
Theorem dispatchToUnderlyingElements_serves_once_deepest_first
    (fuel : nat) (dom : DOM) (pos : Element → nat) (ev : MouseEvent)
    (w : World) (r : Effects World) :
  stackingOrdered dom (x ev) (y ev) pos →
  redispatch fuel dom ev w = Ok r →
  NoDup (dispatched r).*1 ∧
  ∀ target d tree s1 a s2 b,
    currentTarget ev = Some (ElementNode target) →
    findRootNode fuel dom (ElementNode target) = Ok d →
    elementTreeFromPoint fuel dom (x ev) (y ev) d = Ok (Some tree) →
    (dispatched r).*1 = s1 ++ a :: s2 →
    tc (child (elementsByParent tree)) a b →
    ¬ OnDefaultPath (elementsByParent tree) target b →
    b ∈ s1.
Proof.
  intros Hsorted
    [->|(target & d & tree & subtree & path & _ & Htarget & Hd & _ &
         Htree & Hflat & Hpath & ->)]%dispatchToUnderlyingElements_Ok.
  { split; [constructor|]. intros ??????? _ _ _ Heq. by destruct s1. }
  pose proof (dispatchLoop_prefix dispatchEvent path ev (type ev)
                (setBubbles false (mouseEventInitDictBuilder ev)) subtree w)
    as [k Hk].
  pose proof (elementTreeFromPoint_flat_NoDup _ _ _ _ _ _ _ _ _ _
                Hsorted Htree Hflat) as Hnd.
  assert (NoDup (filter (λ e, e ∉ path) subtree)) as Hndf
    by by apply NoDup_filter.
  split.
  { rewrite Hk in Hndf. by apply NoDup_app in Hndf as [? _]. }
  intros target' d' tree' s1 a s2 b Htarget' Hd' Htree' Hserved Hab Hoff.
  rewrite Htarget in Htarget'. injection Htarget' as <-.
  rewrite Hd in Hd'. injection Hd' as <-.
  rewrite Htree in Htree'. injection Htree' as <-.
  rewrite Hserved in Hk.
  assert (a ∈ filter (λ e, e ∉ path) subtree) as [Ha Hin]%list_elem_of_filter.
  { rewrite Hk. apply elem_of_app. left. apply elem_of_app. right. by left. }
  pose proof (flattenElementTree_below _ _ _ _ _ Hflat Hin) as Hta.
  destruct (flattenElementTree_deeper_first _ _ _ _ _ _ Hflat Hta Hab)
    as (l1 & l2 & l3 & ->).
  assert (b ∉ path) as Hb.
  { intros Hb. apply Hoff.
    by apply (getDefaultPathElementSet_spec _ _ _ _ Hpath). }
  rewrite filter_app, filter_cons_True, filter_app, filter_cons_True in Hk, Hndf
    by done.
  rewrite <- app_assoc in Hk. simpl in Hk.
  assert (filter (λ e, e ∉ path) l1 ++ b :: filter (λ e, e ∉ path) l2 = s1)
    as <-.
  { eapply (NoDup_split_unique _ (filter (λ e, e ∉ path) l3) _ (s2 ++ k) a).
    - by rewrite <- app_assoc.
    - rewrite <- app_assoc. simpl. done. }
  apply elem_of_app. right. by left.
Qed.

(** X15.  The original event comes back with nothing changed but, exactly
    when a clone was cancelled, its default prevented; and an invocation
    that serves nobody leaves the world as it was. *)
Theorem dispatchToUnderlyingElements_touches_only_defaultPrevented
    (fuel : nat) (dom : DOM) (ev : MouseEvent) (w : World)
    (r : Effects World) :
  redispatch fuel dom ev w = Ok r →
  original r
  = (if existsb snd (dispatched r) then preventDefault ev else ev) ∧
  (dispatched r = [] → world r = w ∧ original r = ev).
Proof.
  intros [->|(target & d & tree & subtree & path & _ & _ & _ & _ &
              _ & _ & _ & ->)]%dispatchToUnderlyingElements_Ok; [done|].
  destruct (dispatchLoop_original dispatchEvent path ev (type ev)
              (setBubbles false (mouseEventInitDictBuilder ev)) subtree w)
    as [Horig Hworld].
  split; [done|]. intros Hnone. split; [by apply Hworld|].
  rewrite Horig. by rewrite Hnone.
Qed.

(** X16.  What the listeners of the served elements receive: each served
    element gets one delivery, in the order served, and every delivery
    carries the same clone, built from the class and type of the original
    event and the builder's properties with [bubbles] switched off.  Watching
    the deliveries changes nothing of the run. *)
Theorem dispatchToUnderlyingElements_delivers_clone
    (fuel : nat) (dom : DOM) (ev : MouseEvent) (w : World)
    (r : Effects (World * list (Element * MouseEvent))) :
  dispatchToUnderlyingElements (recording dispatchEvent)
    mouseEventInitDictBuilder fuel dom ev (w, []) = Ok r →
  let clone := constructMouseEvent ev (type ev)
                 (setBubbles false (mouseEventInitDictBuilder ev)) in
  (∃ r0, redispatch fuel dom ev w = Ok r0 ∧ world r0 = (world r).1 ∧
         dispatched r0 = dispatched r ∧ original r0 = original r) ∧
  (world r).2 = (λ e, (e, clone)) <$> (dispatched r).*1 ∧
  constructor clone = constructor ev ∧ type clone = type ev ∧
  bubbles (eventInit clone) = false ∧
  cancelable (eventInit clone) = cancelable (mouseEventInitDictBuilder ev) ∧
  defaultPrevented clone = false.
Proof.
  intros Hrun clone.
  assert (∃ r0, redispatch fuel dom ev w = Ok r0 ∧ world r0 = (world r).1 ∧
            dispatched r0 = dispatched r ∧ original r0 = original r ∧
            (world r).2 = (λ e, (e, clone)) <$> (dispatched r0).*1)
    as (r0 & Hr0 & Hw & Hdis & Ho & Hl).
  { revert Hrun. unfold dispatchToUnderlyingElements.
    destruct (defaultPrevented ev); [intros [= <-]; by eexists|].
    destruct (isElement (currentTarget ev)) as [target|]; [|done].
    destruct (findRootNode fuel dom (ElementNode target)) as [d| |];
      simpl; [|done..].
    destruct (negb (isDocumentOrShadowRoot d)); [done|].
    destruct (elementTreeFromPoint fuel dom (x ev) (y ev) d)
      as [[tree|]| |]; simpl; [|intros [= <-]; by eexists|done..].
    destruct (flattenElementTree fuel (elementsByParent tree) target)
      as [subtree| |]; simpl; [|done..].
    destruct (getDefaultPathElementSet fuel (elementsByParent tree) target)
      as [path| |]; simpl; [|done..].
    intros [= <-]. eexists. split; [done|].
    destruct (dispatchLoop_recording dispatchEvent path ev (type ev)
                (setBubbles false (mouseEventInitDictBuilder ev)) subtree w [])
      as (Hw & Hdis & Ho & Hl).
    by rewrite Hw, Hdis, Ho, Hl. }
  split_and!; try done.
  - by exists r0.
  - by rewrite Hl, Hdis.
Qed.
End RedispatchFurther.

(** ** The error of the point query and of the tree builder *)

Lemma bind_Throw {A B} (m : result A) (k : A → result B) (msg : string) :
  m ≫= k = Throw msg →
  m = Throw msg ∨ ∃ a, m = Ok a ∧ k a = Throw msg.
Proof.
  destruct m as [a| |]; simpl; intros Hk; [|left; by injection Hk as ->|done].
  right. by exists a.
Qed.

Lemma findRootNode_no_throw (fuel : nat) (dom : DOM) (node : Node)
    (msg : string) :
  findRootNode fuel dom node ≠ Throw msg.
Proof.
  revert node. induction fuel as [|fuel IH]; intros node; cbn [findRootNode];
    destruct (parentNode dom node); done.
Qed.

Lemma engineIndependentElementsFromPoint_throws (fuel : nat) (dom : DOM)
    (x y : Z) (scope : Node) (msg : string) :
  engineIndependentElementsFromPoint fuel dom x y scope = Throw msg →
  rootNodeError dom msg.
Proof.
  revert scope. induction fuel as [|fuel IH]; intros scope; [done|].
  cbn [engineIndependentElementsFromPoint].
  destruct scope as [|host|e|n]; try done.
  destruct (negb _); [|done].
  intros [Hroot|(higherDom & Hroot & Hrest)]%bind_Throw;
    [by apply findRootNode_no_throw in Hroot|].
  destruct (isDocumentOrShadowRoot higherDom) eqn:Hok; simpl in Hrest.
  - apply bind_Throw in Hrest as [Hhigher|(higher & _ & ?)]; [|done].
    by eapply IH.
  - injection Hrest as <-. split; [done|]. by exists fuel, host, higherDom.
Qed.

Lemma stepUp_no_throw (fuel : nat) (dom : DOM) (potentialParents : gset Element)
    (element : Element) (parent : option Element) (higher : list Element)
    (st : BuildState) (msg : string) :
  stepUp fuel dom potentialParents element parent higher st ≠ Throw msg.
Proof.
  revert parent higher. induction fuel as [|fuel IH]; intros parent higher;
    cbn [stepUp]; destruct parent as [p|];
    try destruct (decide (p ∈ potentialParents));
    try destruct (pop higher) as [[h rest]|]; done.
Qed.

Lemma forEachElement_throws
    (rec : Node → list Element → BuildState → result BuildState)
    (fuel : nat) (dom : DOM) (higher elements : list Element)
    (st : BuildState) (msg : string) :
  (∀ scope hs s, rec scope hs s = Throw msg → rootNodeError dom msg) →
  forEachElement rec fuel dom higher elements st = Throw msg →
  rootNodeError dom msg.
Proof.
  intros Hrec. revert st.
  induction elements as [|e rest IH]; intros st; cbn [forEachElement]; [done|].
  destruct (decide (e ∈ processedElements st)); [apply IH|].
  destruct (hasOpenShadowRoot dom e && _).
  - intros [Hthrow|(st1 & _ & Hrest)]%bind_Throw; [by eapply Hrec|].
    by eapply IH.
  - intros [Hthrow|(st1 & _ & Hrest)]%bind_Throw;
      [by apply stepUp_no_throw in Hthrow|].
    by eapply IH.
Qed.

Lemma recurse_throws (fuel : nat) (dom : DOM) (x y : Z) (scope : Node)
    (higher : list Element) (st : BuildState) (msg : string) :
  recurse fuel dom x y scope higher st = Throw msg → rootNodeError dom msg.
Proof.
  revert scope higher st. induction fuel as [|fuel IH];
    intros scope higher st; [done|].
  cbn [recurse].
  intros [Hquery|(elements & _ & Hloop)]%bind_Throw.
  - by eapply engineIndependentElementsFromPoint_throws.
  - eapply forEachElement_throws; [|done]. intros ???. apply IH.
Qed.

Lemma elementTreeFromPoint_throws (fuel : nat) (dom : DOM) (x y : Z)
    (top : Node) (msg : string) :
  elementTreeFromPoint fuel dom x y top = Throw msg → rootNodeError dom msg.
Proof.
  unfold elementTreeFromPoint.
  intros [Hrun|(st & _ & ?)]%bind_Throw; [|done]. by eapply recurse_throws.
Qed.


(** ** Termination of the tree builder and of the listener *)

Section Termination.
Context (dom : DOM) (level : Node → nat) (L : nat) (hosts : gset Element).
Context (Hlayered : layered dom level).
Context (Hbound : ∀ n, level n ≤ L).
Context (Hhosts : ∀ e, hasOpenShadowRoot dom e = true → e ∈ hosts).

Lemma stepUp_completes (fuel : nat) (potentialParents : gset Element)
    (element : Element) (parent : option Element) (higher : list Element)
    (st : BuildState) :
  walkCost level parent higher ≤ fuel →
  ∃ r, stepUp fuel dom potentialParents element parent higher st
       = Ok (settle r element st).
Proof.
  revert parent higher. induction fuel as [|fuel IH]; intros parent higher;
    unfold walkCost; cbn [stepUp]; destruct parent as [p|].
  - lia.
  - destruct (pop higher) as [[h rest]|] eqn:Hpop; [|by exists None].
    apply pop_Some in Hpop as ->. rewrite sum_list_with_app. simpl. lia.
  - intros Hcost. destruct (decide (p ∈ potentialParents));
      [by exists (Some p)|].
    apply IH. unfold walkCost.
    destruct (parentElement dom p) as [q|] eqn:Hq; [|lia].
    apply (parentElement_level dom level _ _ Hlayered) in Hq. lia.
  - destruct (pop higher) as [[h rest]|] eqn:Hpop; [|by exists None].
    apply pop_Some in Hpop as ->. rewrite sum_list_with_app. simpl.
    intros Hcost. apply IH. unfold walkCost. lia.
Qed.

Lemma walkCost_bound (parent : option Element) (higher : list Element) :
  walkCost level parent higher ≤ L + 1 + length higher * (L + 2).
Proof.
  unfold walkCost.
  assert (sum_list_with (λ h, level (ElementNode h) + 2) higher
          ≤ length higher * (L + 2)) as Hsum.
  { induction higher as [|h higher IH]; simpl; [lia|].
    pose proof (Hbound (ElementNode h)). lia. }
  destruct parent as [p|]; [pose proof (Hbound (ElementNode p))|]; lia.
Qed.

Lemma pendingHosts_markShadowRoot (e : Element) (st : BuildState) :
  hasOpenShadowRoot dom e = true → e ∉ processedShadowRootElements st →
  pendingHosts hosts (markShadowRoot e st) < pendingHosts hosts st.
Proof.
  intros He%Hhosts Hnew. unfold pendingHosts. simpl.
  apply subset_size. split.
  - intros a [Ha Hnot]%elem_of_difference. apply elem_of_difference.
    split; [done|]. intros ?. apply Hnot. apply elem_of_union. by right.
  - intros Hsub. assert (e ∈ hosts ∖ processedShadowRootElements st) as Hin
      by by apply elem_of_difference.
    apply Hsub in Hin. apply elem_of_difference in Hin as [_ Hnot].
    apply Hnot. apply elem_of_union. left. by apply elem_of_singleton.
Qed.

Lemma pendingHosts_mono (st st' : BuildState) :
  processedShadowRootElements st ⊆ processedShadowRootElements st' →
  pendingHosts hosts st' ≤ pendingHosts hosts st.
Proof.
  intros Hsub. unfold pendingHosts. apply subseteq_size.
  intros a [Ha Hnot]%elem_of_difference. apply elem_of_difference.
  split; [done|]. intros ?. by apply Hnot, Hsub.
Qed.

Lemma recurse_marks_grow (fuel : nat) (x y : Z) (scope : Node)
    (higher : list Element) (st st' : BuildState) :
  recurse fuel dom x y scope higher st = Ok st' →
  processedShadowRootElements st ⊆ processedShadowRootElements st'.
Proof.
  intros Hrun.
  refine (recurse_invariant
    (λ s, processedShadowRootElements st ⊆ processedShadowRootElements s)
    (λ _, True) _ _ _ _ fuel dom x y scope higher st st' _ Hrun _); try done.
  intros e s Hs a Ha. simpl. apply elem_of_union. right. by apply Hs.
Qed.

Lemma forEachElement_completes
    (rec : Node → list Element → BuildState → result BuildState)
    (fuel budget : nat) (higher elements : list Element) (st : BuildState) :
  (∀ scope hs s,
     length hs + pendingHosts hosts s ≤ size hosts → pendingHosts hosts s < budget →
     rec scope hs s ≠ OutOfFuel) →
  (∀ scope hs s s', rec scope hs s = Ok s' →
     processedShadowRootElements s ⊆ processedShadowRootElements s') →
  L + 1 + size hosts * (L + 2) ≤ fuel →
  length higher + pendingHosts hosts st ≤ size hosts →
  pendingHosts hosts st ≤ budget →
  forEachElement rec fuel dom higher elements st ≠ OutOfFuel.
Proof.
  intros Hrec Hgrow Hfuel. revert st.
  induction elements as [|element rest IH]; intros st Hdepth Hbudget;
    cbn [forEachElement]; [done|].
  destruct (decide (element ∈ processedElements st)); [by apply IH|].
  destruct (hasOpenShadowRoot dom element) eqn:Hhost; simpl.
  - destruct (decide (element ∈ processedShadowRootElements st)) as [Hin|Hnew].
    + rewrite bool_decide_eq_true_2 by done. simpl.
      destruct (stepUp_completes fuel (list_to_set rest) element
                  (parentElement dom element) higher st) as [r ->].
      { etrans; [apply walkCost_bound|]. nia. }
      simpl. apply IH; by destruct r.
    + rewrite bool_decide_eq_false_2 by done. simpl.
      pose proof (pendingHosts_markShadowRoot _ _ Hhost Hnew) as Hless.
      destruct (rec (ShadowRootOf element) (higher ++ [element])
                  (markShadowRoot element st)) as [st1| |] eqn:Hst1; simpl.
      * apply Hgrow in Hst1. apply pendingHosts_mono in Hst1.
        apply IH; lia.
      * done.
      * exfalso. revert Hst1. apply Hrec; [|lia].
        rewrite length_app. simpl. lia.
  - destruct (stepUp_completes fuel (list_to_set rest) element
                (parentElement dom element) higher st) as [r ->].
    { etrans; [apply walkCost_bound|]. nia. }
    simpl. apply IH; by destruct r.
Qed.

Lemma recurse_completes (fuel : nat) (x y : Z) (scope : Node)
    (higher : list Element) (st : BuildState) :
  length higher + pendingHosts hosts st ≤ size hosts →
  pendingHosts hosts st + (L + 1 + size hosts * (L + 2)) < fuel →
  recurse fuel dom x y scope higher st ≠ OutOfFuel.
Proof.
  revert scope higher st. induction fuel as [|fuel IH];
    intros scope higher st Hdepth Hfuel; [lia|].
  cbn [recurse].
  pose proof (engineIndependentElementsFromPoint_completes dom level x y
                (S fuel) scope Hlayered) as Hquery.
  destruct (engineIndependentElementsFromPoint (S fuel) dom x y scope)
    as [elements| |]; simpl; [|done|].
  - apply (forEachElement_completes _ _ (pendingHosts hosts st)); try done; try lia.
    + intros scope' hs s Hd Hb. apply IH; [done|lia].
    + intros ????. apply recurse_marks_grow.
  - destruct Hquery; [|done]. pose proof (Hbound scope). lia.
Qed.
End Termination.

(** X5.  The step-up loop settles an element by the first potential parent
    in its visibility chain: the parent element and its ancestors, nearest
    first, then the pending shadow hosts, the innermost first, each followed
    by its ancestors.  The element is attached under that candidate, or made
    the root when the chain holds no potential parent; and on a DOM with
    finite parent chains the loop comes to an end. *)
Theorem stepUp_first_visible_candidate (dom : DOM) (level : Node → nat)
    (L : nat) (potentialParents : gset Element) (element : Element)
    (parent : option Element) (higher : list Element) (st : BuildState) :
  layered dom level → (∀ n, level n ≤ L) →
  let chain := visibilityChain L dom parent higher in
  (∀ fuel st',
     stepUp fuel dom potentialParents element parent higher st = Ok st' →
     match head (filter (λ a, a ∈ potentialParents) chain) with
     | Some p => st' = attach p element st
     | None => st' = setRoot element st
     end) ∧
  (∀ fuel, L + 1 + length higher * (L + 2) ≤ fuel →
     ∃ st', stepUp fuel dom potentialParents element parent higher st
            = Ok st') ∧
  (∀ a, a ∈ chain ↔
        (∃ p, parent = Some p ∧ rtc (parentElementOf dom) p a) ∨
        (∃ h, h ∈ higher ∧ rtc (parentElementOf dom) h a)).
Proof.
  intros Hlayered Hbound chain. subst chain. split_and!.
  - intros fuel st' (r & Hr & ->)%stepUp_resolves.
    rewrite <- (resolves_first_in_chain dom level L _ _ _ _ Hlayered Hbound Hr).
    by destruct r.
  - intros fuel Hfuel.
    destruct (stepUp_completes dom level Hlayered fuel potentialParents
                element parent higher st) as [r Hr]; [|by eexists].
    etrans; [apply (walkCost_bound level L Hbound)|done].
  - intros a. unfold visibilityChain.
    rewrite elem_of_app, list_elem_of_bind.
    assert (∀ e, a ∈ e :: ancestors L dom e ↔ rtc (parentElementOf dom) e a)
      as Hup.
    { intros e. rewrite elem_of_cons, rtc_tc. split.
      - intros [->|Ha]; [by left|right; by eapply ancestors_tc].
      - intros [->|Ha]; [by left|right].
        eapply tc_ancestors; [done|apply Hbound|done]. }
    split.
    + intros [Ha|(h & Ha & Hh)].
      * destruct parent as [p|]; [|by apply not_elem_of_nil in Ha].
        left. exists p. split; [done|]. by apply Hup.
      * right. exists h. split; [by apply elem_of_reverse|]. by apply Hup.
    + intros [(p & -> & Ha)|(h & Hh & Ha)].
      * left. by apply Hup.
      * right. exists h. split; [by apply Hup|]. by apply elem_of_reverse.
Qed.

Lemma elementTreeFromPoint_completes (dom : DOM) (level : Node → nat)
    (L : nat) (hosts : gset Element) (fuel : nat) (x y : Z) (top : Node) :
  layered dom level →
  (∀ n, level n ≤ L) →
  (∀ e, hasOpenShadowRoot dom e = true → e ∈ hosts) →
  size hosts + (L + 1 + size hosts * (L + 2)) < fuel →
  elementTreeFromPoint fuel dom x y top ≠ OutOfFuel.
Proof.
  intros Hlayered Hbound Hhosts Hfuel. unfold elementTreeFromPoint.
  pose proof (recurse_completes dom level L hosts Hlayered Hbound Hhosts
                fuel x y top [] initialState) as Hrun.
  assert (pendingHosts hosts initialState = size hosts) as Hall.
  { unfold pendingHosts. simpl. f_equal. apply set_eq. intros a.
    rewrite elem_of_difference. split; [by intros [? _]|].
    intros ?. split; [done|]. apply not_elem_of_empty. }
  rewrite Hall in Hrun. simpl in Hrun.
  destruct (recurse fuel dom x y top [] initialState) as [st|msg|]; simpl;
    [done..|].
  destruct Hrun; [lia|lia|done].
Qed.

(** X18.  On a DOM with finite parent chains (levels up to [L]) and
    finitely many open shadow roots, the tree builder comes to an end once
    the fuel covers one round per shadow root and the longest walk up the
    visibility chain: it returns, or raises the root-node error of the point
    query. *)
Theorem elementTreeFromPoint_terminates (dom : DOM) (level : Node → nat)
    (L : nat) (hosts : gset Element) (fuel : nat) (x y : Z) (top : Node) :
  layered dom level →
  (∀ n, level n ≤ L) →
  (∀ e, hasOpenShadowRoot dom e = true → e ∈ hosts) →
  size hosts + (L + 1 + size hosts * (L + 2)) < fuel →
  (∃ t, elementTreeFromPoint fuel dom x y top = Ok t) ∨
  elementTreeFromPoint fuel dom x y top
  = Throw "Expected root node to be a DocumentOrShadowRoot"%string.
Proof.
  intros Hlayered Hbound Hhosts Hfuel.
  pose proof (elementTreeFromPoint_completes dom level L hosts fuel x y top
                Hlayered Hbound Hhosts Hfuel) as Hrun.
  pose proof (elementTreeFromPoint_throws fuel dom x y top) as Hthrow.
  destruct (elementTreeFromPoint fuel dom x y top) as [t|msg|].
  - left. by exists t.
  - right. by rewrite (proj1 (Hthrow msg eq_refl)).
  - done.
Qed.

Section RedispatchTermination.
Context {World : Type}.
Context (dispatchEvent : Element → MouseEvent → World → World * bool).
Context (mouseEventInitDictBuilder : MouseEvent → MouseEventInit).

(** X19.  On such a DOM, with a hit test that follows one stacking order,
    the listener's own work comes to an end: the builder and every call of
    [dispatchEvent] returning, as they are taken to do here, the listener
    returns or raises an error. *)
Theorem dispatchToUnderlyingElements_terminates (dom : DOM)
    (level : Node → nat) (L : nat) (hosts : gset Element)
    (pos : Element → nat) (fuel : nat) (ev : MouseEvent) (w : World) :
  layered dom level →
  (∀ n, level n ≤ L) →
  (∀ e, hasOpenShadowRoot dom e = true → e ∈ hosts) →
  stackingOrdered dom (x ev) (y ev) pos →
  (∀ e, pos e < fuel) →
  size hosts + (L + 1 + size hosts * (L + 2)) < fuel →
  (∃ r, dispatchToUnderlyingElements dispatchEvent mouseEventInitDictBuilder
          fuel dom ev w = Ok r) ∨
  throws (dispatchToUnderlyingElements dispatchEvent mouseEventInitDictBuilder
            fuel dom ev w).
Proof.
  intros Hlayered Hbound Hhosts Hsorted Hpos Hfuel.
  unfold dispatchToUnderlyingElements.
  destruct (defaultPrevented ev); [left; by eexists|].
  destruct (isElement (currentTarget ev)) as [target|];
    [|right; by eexists].
  destruct (findRootNode_total dom level fuel (ElementNode target) Hlayered)
    as (d & -> & _).
  { pose proof (Hbound (ElementNode target)). lia. }
  simpl. destruct (negb (isDocumentOrShadowRoot d)); [right; by eexists|].
  pose proof (elementTreeFromPoint_completes dom level L hosts fuel
                (x ev) (y ev) d Hlayered Hbound Hhosts Hfuel) as Hrun.
  destruct (elementTreeFromPoint fuel dom (x ev) (y ev) d)
    as [[tree|]|msg|] eqn:Htree; simpl;
    [|left; by eexists|right; by eexists|done].
  pose proof (elementTreeFromPoint_ranked _ _ _ _ _ _ _ Hsorted Htree) as Hrank.
  destruct (flattenElementTree_total _ _ fuel target Hrank (Hpos target))
    as [flat Hflat].
  destruct (getDefaultPathElementSet_total _ _ _ _ Hflat) as [path Hpath].
  rewrite Hflat. simpl. rewrite Hpath. simpl. left. by eexists.
Qed.
End RedispatchTermination.

(** ** Pages without shadow roots: the tree is the DOM over the hit
       elements *)

Section Shadowless.
Context (dom : DOM) (level : Node → nat).
Context (Hlayered : layered dom level).
Context (Hplain : ∀ e, hasOpenShadowRoot dom e = false).

Lemma parentElementOf_level (a b : Element) :
  rtc (parentElementOf dom) a b →
  a = b ∨ level (ElementNode b) < level (ElementNode a).
Proof.
  induction 1 as [a|a q b Hq _ IH]; [by left|]. right.
  apply (parentElement_level dom level _ _ Hlayered) in Hq.
  destruct IH as [->|?]; lia.
Qed.

Lemma parentElementOf_antisym (a b : Element) :
  rtc (parentElementOf dom) a b → rtc (parentElementOf dom) b a → a = b.
Proof.
  intros [?|Hab]%parentElementOf_level [?|Hba]%parentElementOf_level;
    try done. lia.
Qed.

(** The loop on such a page: each unprocessed entry is settled by its walk. *)
Lemma forEachElement_step
    (rec : Node → list Element → BuildState → result BuildState)
    (fuel : nat) (higher : list Element) (e : Element) (rest : list Element)
    (st st' : BuildState) :
  forEachElement rec fuel dom higher (e :: rest) st = Ok st' →
  e ∉ processedElements st →
  ∃ r, resolves dom (list_to_set rest) (parentElement dom e) higher r ∧
       forEachElement rec fuel dom higher rest (settle r e st) = Ok st'.
Proof.
  cbn [forEachElement]. intros Hrun Hnew.
  rewrite decide_False in Hrun by done. rewrite Hplain in Hrun.
  simpl in Hrun. apply bind_Ok in Hrun as (st1 & Hst1 & Hrun).
  apply stepUp_resolves in Hst1 as (r & Hr & ->). by exists r.
Qed.

Lemma settle_child (r : option Element) (e : Element) (st : BuildState)
    (p c : Element) :
  child (st_elementsByParent (settle r e st)) p c ↔
  child (st_elementsByParent st) p c ∨ (r = Some p ∧ c = e).
Proof.
  destruct r as [p'|]; simpl.
  - rewrite child_addToKeyedList. split.
    + intros [?|[-> ->]]; [by left|by right].
    + intros [?|[[= ->] ->]]; [by left|by right].
  - split; [by left|]. by intros [?|[? _]].
Qed.

Lemma settle_processed (r : option Element) (e : Element) (st : BuildState)
    (c : Element) :
  c ∈ processedElements (settle r e st) → c = e ∨ c ∈ processedElements st.
Proof.
  destruct r as [p'|]; simpl; [|by right].
  intros [->%elem_of_singleton|?]%elem_of_union; [by left|by right].
Qed.

Lemma forEachElement_child_inv
    (rec : Node → list Element → BuildState → result BuildState)
    (fuel : nat) (higher elements : list Element) (st st' : BuildState)
    (p c : Element) :
  forEachElement rec fuel dom higher elements st = Ok st' →
  child (st_elementsByParent st') p c →
  child (st_elementsByParent st) p c ∨
  ∃ before after,
    elements = before ++ c :: after ∧
    resolves dom (list_to_set after) (parentElement dom c) higher (Some p).
Proof.
  revert st. induction elements as [|e rest IH]; intros st Hrun Hc.
  - injection Hrun as <-. by left.
  - destruct (decide (e ∈ processedElements st)) as [Hin|Hnew].
    + cbn [forEachElement] in Hrun. rewrite decide_True in Hrun by done.
      destruct (IH _ Hrun Hc) as [?|(before & after & -> & Hres)]; [by left|].
      right. by exists (e :: before), after.
    + destruct (forEachElement_step _ _ _ _ _ _ _ Hrun Hnew) as (r & Hr & Hrest).
      destruct (IH _ Hrest Hc) as [Hold|(before & after & -> & Hres)].
      * apply settle_child in Hold as [?|[-> ->]]; [by left|].
        right. by exists [], rest.
      * right. by exists (e :: before), after.
Qed.

Lemma forEachElement_child_kept
    (rec : Node → list Element → BuildState → result BuildState)
    (fuel : nat) (higher elements : list Element) (st st' : BuildState)
    (p c : Element) :
  forEachElement rec fuel dom higher elements st = Ok st' →
  child (st_elementsByParent st) p c →
  child (st_elementsByParent st') p c.
Proof.
  revert st. induction elements as [|e rest IH]; intros st Hrun Hc.
  - by injection Hrun as <-.
  - destruct (decide (e ∈ processedElements st)) as [Hin|Hnew].
    + cbn [forEachElement] in Hrun. rewrite decide_True in Hrun by done.
      by eapply IH.
    + destruct (forEachElement_step _ _ _ _ _ _ _ Hrun Hnew) as (r & Hr & Hrest).
      eapply IH; [done|]. apply settle_child. by left.
Qed.

Lemma forEachElement_settles
    (rec : Node → list Element → BuildState → result BuildState)
    (fuel : nat) (higher before after : list Element) (c : Element)
    (st st' : BuildState) :
  forEachElement rec fuel dom higher (before ++ c :: after) st = Ok st' →
  NoDup (before ++ c :: after) →
  (∀ e, e ∈ before ++ c :: after → e ∉ processedElements st) →
  ∃ r, resolves dom (list_to_set after) (parentElement dom c) higher r ∧
       ∀ p, r = Some p → child (st_elementsByParent st') p c.
Proof.
  revert st. induction before as [|b before IH]; intros st Hrun Hnd Hnew;
    simpl in *.
  - destruct (forEachElement_step _ _ _ _ _ _ _ Hrun) as (r & Hr & Hrest).
    { apply Hnew. by left. }
    exists r. split; [done|]. intros p ->.
    eapply forEachElement_child_kept; [done|]. apply settle_child. by right.
  - destruct (forEachElement_step _ _ _ _ _ _ _ Hrun) as (r & Hr & Hrest).
    { apply Hnew. by left. }
    apply NoDup_cons in Hnd as [Hb Hnd].
    apply (IH _ Hrest Hnd). intros e He [->|Hin]%settle_processed; [done|].
    revert Hin. apply Hnew. by right.
Qed.

Lemma resolves_top (pp : gset Element) (p : Element) :
  ¬ resolves dom pp None [] (Some p).
Proof. inversion 1 as [| |h rest higher r Hpop|]; by simplify_eq. Qed.

(** On such a page the run of the builder over the hit test of a scope that
    answers alone. *)
Lemma elementTreeFromPoint_plain (fuel : nat) (x y : Z) (top : Node)
    (tree : ElementTree) :
  answersAlone dom x y top →
  elementTreeFromPoint fuel dom x y top = Ok (Some tree) →
  ∃ f rec st,
    forEachElement rec f dom [] (elementsFromPoint dom top x y) initialState
      = Ok st ∧
    elementsByParent tree = st_elementsByParent st.
Proof.
  intros Halone. unfold elementTreeFromPoint.
  intros (st & Hst & Hret)%bind_Ok.
  destruct (st_root st) as [r|]; [|done]. injection Hret as <-.
  destruct fuel as [|fuel]; [done|]. cbn [recurse] in Hst.
  rewrite query_alone in Hst by done. simpl in Hst. by eexists _, _, st.
Qed.

(** A hit element with a hit ancestor is listed under the nearest one. *)
Lemma forEachElement_nearest
    (rec : Node → list Element → BuildState → result BuildState)
    (fuel : nat) (l : list Element) (st' : BuildState) (c t : Element) :
  forEachElement rec fuel dom [] l initialState = Ok st' →
  NoDup l → descendantsFirst dom l →
  c ∈ l → t ∈ l → tc (parentElementOf dom) c t →
  ∃ p, child (st_elementsByParent st') p c ∧ p ∈ l ∧
       tc (parentElementOf dom) c p ∧ rtc (parentElementOf dom) p t.
Proof.
  intros Hrun Hnd Hfirst Hc Ht Hct.
  apply list_elem_of_split in Hc as (before & after & ->).
  pose proof (Hfirst _ _ _ _ eq_refl Hct Ht) as Hafter.
  destruct (forEachElement_settles _ _ _ _ _ _ _ _ Hrun Hnd)
    as (r & Hr & Hchild).
  { intros e _. simpl. apply not_elem_of_empty. }
  apply parentElementOf_tc_inv in Hct as (q & Hq & Hqt). rewrite Hq in Hr.
  destruct r as [p|].
  - apply resolves_nearest in Hr as (Hqp & Hp & Hnear).
    apply elem_of_list_to_set in Hp.
    exists p. split; [by apply Hchild|]. split.
    { apply elem_of_app. right. by right. }
    split; [by eapply parentElementOf_tc|].
    apply Hnear; [done|]. by apply elem_of_list_to_set.
  - apply resolves_exhausted in Hr as [Hnone _].
    destruct (Hnone q t eq_refl Hqt). by apply elem_of_list_to_set.
Qed.

(** What is listed under an element has it as nearest hit ancestor. *)
Lemma forEachElement_child_nearest
    (rec : Node → list Element → BuildState → result BuildState)
    (fuel : nat) (l : list Element) (st' : BuildState) (p c : Element) :
  forEachElement rec fuel dom [] l initialState = Ok st' →
  descendantsFirst dom l →
  child (st_elementsByParent st') p c → nearestHitAncestor dom l c p.
Proof.
  intros Hrun Hfirst Hc.
  destruct (forEachElement_child_inv _ _ _ _ _ _ _ _ Hrun Hc)
    as [(l0 & Hl0 & _)|(before & after & Hl & Hres)].
  { simpl in Hl0. by rewrite lookup_empty in Hl0. }
  destruct (parentElement dom c) as [q|] eqn:Hq;
    [|by apply resolves_top in Hres].
  apply resolves_nearest in Hres as (Hqp & Hp & Hnear).
  apply elem_of_list_to_set in Hp.
  split_and!.
  - rewrite Hl. apply elem_of_app. right. by left.
  - rewrite Hl. apply elem_of_app. right. by right.
  - by eapply parentElementOf_tc.
  - intros a Ha Hca.
    pose proof (Hfirst _ _ _ _ Hl Hca Ha) as Hafter.
    apply parentElementOf_tc_inv in Hca as (q' & Hq' & Hq'a).
    simplify_eq. apply Hnear; [done|]. by apply elem_of_list_to_set.
Qed.

(** One element lies below another in the map exactly when both were hit
    and it is a DOM descendant. *)
Lemma forEachElement_below
    (rec : Node → list Element → BuildState → result BuildState)
    (fuel : nat) (l : list Element) (st' : BuildState) (t e : Element) :
  forEachElement rec fuel dom [] l initialState = Ok st' →
  NoDup l → descendantsFirst dom l →
  tc (child (st_elementsByParent st')) t e ↔
  e ∈ l ∧ t ∈ l ∧ tc (parentElementOf dom) e t.
Proof.
  intros Hrun Hnd Hfirst.
  pose proof (λ p c, forEachElement_child_nearest _ _ _ _ p c Hrun Hfirst)
    as Hto.
  split.
  - induction 1 as [t e Hte|t c e Htc _ (He & Hc & Hec)].
    + by destruct (Hto _ _ Hte) as (? & ? & ? & _).
    + destruct (Hto _ _ Htc) as (_ & Ht & Hct & _).
      split; [done|]. split; [done|]. by etrans.
  - intros (He & Ht & Het).
    remember (level (ElementNode e)) as n eqn:Hn.
    revert e Hn He Het. induction (lt_wf n) as [n _ IH]. intros e -> He Het.
    destruct (forEachElement_nearest _ _ _ _ _ _ Hrun Hnd Hfirst He Ht Het)
      as (p & Hchild & Hp & Hep & Hpt).
    apply rtc_tc in Hpt as [->|Hpt]; [by apply tc_once|].
    eapply tc_r; [|done].
    eapply (IH (level (ElementNode p))); try done.
    apply parentElementOf_tc_inv in Hep as (q & Hq & Hqp).
    apply (parentElement_level dom level _ _ Hlayered) in Hq.
    destruct (parentElementOf_level _ _ Hqp); [subst; lia|lia].
Qed.

(** X20.  On a page without open shadow roots whose hit test lists
    descendants before their ancestors, the returned map is the DOM tree
    restricted to the hit elements: an element is listed under its nearest
    hit ancestor and nowhere else, and one element lies below another in
    the map exactly when both were hit and it is a DOM descendant. *)
Theorem elementTreeFromPoint_restricts_dom (fuel : nat) (x y : Z)
    (top : Node) (tree : ElementTree) :
  answersAlone dom x y top →
  NoDup (elementsFromPoint dom top x y) →
  descendantsFirst dom (elementsFromPoint dom top x y) →
  elementTreeFromPoint fuel dom x y top = Ok (Some tree) →
  (∀ p c, child (elementsByParent tree) p c ↔
          nearestHitAncestor dom (elementsFromPoint dom top x y) c p) ∧
  (∀ t e, tc (child (elementsByParent tree)) t e ↔
          e ∈ elementsFromPoint dom top x y ∧
          t ∈ elementsFromPoint dom top x y ∧
          tc (parentElementOf dom) e t).
Proof.
  intros Halone Hnd Hfirst Htree.
  destruct (elementTreeFromPoint_plain _ _ _ _ _ Halone Htree)
    as (f & rec & st & Hrun & ->).
  split.
  - intros p c. split; [by eapply forEachElement_child_nearest|].
    intros (Hc & Hp & Hcp & Hnear).
    destruct (forEachElement_nearest _ _ _ _ _ _ Hrun Hnd Hfirst Hc Hp Hcp)
      as (p' & Hchild & Hp' & Hcp' & Hp'p).
    by rewrite (parentElementOf_antisym p p' (Hnear _ Hp' Hcp') Hp'p).
  - intros t e. by eapply forEachElement_below.
Qed.

Section ShadowlessRedispatch.
Context {World : Type}.
Context (dispatchEvent : Element → MouseEvent → World → World * bool).
Context (mouseEventInitDictBuilder : MouseEvent → MouseEventInit).

(** X21.  On such a page, when no clone is cancelled, the listener serves
    exactly the hit elements that are DOM descendants of the current target
    and off the default path, provided the current target was hit itself. *)
Theorem dispatchToUnderlyingElements_serves_hit_descendants
    (fuel : nat) (ev : MouseEvent) (w : World) (target : Element)
    (tree : ElementTree) (r : Effects World) :
  defaultPrevented ev = false →
  currentTarget ev = Some (ElementNode target) →
  findRootNode fuel dom (ElementNode target) = Ok Document →
  NoDup (elementsFromPoint dom Document (x ev) (y ev)) →
  descendantsFirst dom (elementsFromPoint dom Document (x ev) (y ev)) →
  elementTreeFromPoint fuel dom (x ev) (y ev) Document = Ok (Some tree) →
  dispatchToUnderlyingElements dispatchEvent mouseEventInitDictBuilder
    fuel dom ev w = Ok r →
  Forall (λ p, p.2 = false) (dispatched r) →
  ∀ e, e ∈ (dispatched r).*1 ↔
       e ∈ elementsFromPoint dom Document (x ev) (y ev) ∧
       target ∈ elementsFromPoint dom Document (x ev) (y ev) ∧
       tc (parentElementOf dom) e target ∧
       ¬ OnDefaultPath (elementsByParent tree) target e.
Proof.
  intros Hprev Htarget Hd Hnd Hfirst Htree Hrun Hnone e.
  rewrite (dispatch_resolved _ _ _ _ _ _ target Document Hprev) in Hrun;
    [|by rewrite Htarget|done].
  simpl in Hrun. rewrite Htree in Hrun. simpl in Hrun.
  apply bind_Ok in Hrun as (flat & Hflat & Hrun).
  apply bind_Ok in Hrun as (path & Hpath & [= <-]).
  destruct (dispatchLoop_uncancelled _ _ _ _ _ _ _ Hnone) as [-> _].
  rewrite list_elem_of_filter.
  pose proof (getDefaultPathElementSet_spec _ _ _ _ Hpath e) as Hspec.
  assert (answersAlone dom (x ev) (y ev) Document) as Halone by by left.
  destruct (elementTreeFromPoint_plain _ _ _ _ _ Halone Htree)
    as (f & rec & st & Hloop & Hmap).
  pose proof (forEachElement_below _ _ _ _ target e Hloop Hnd Hfirst) as Hbelow.
  rewrite <- Hmap in Hbelow.
  split.
  - intros [Hoff Hin].
    assert (¬ OnDefaultPath (elementsByParent tree) target e) as Hnot
      by by rewrite <- Hspec.
    pose proof (flattenElementTree_below _ _ _ _ _ Hflat Hin) as Hrtc.
    apply rtc_tc in Hrtc as [<-|Htc]; [destruct Hnot; constructor|].
    apply Hbelow in Htc as (? & ? & ?). done.
  - intros (He & Ht & Het & Hnot). split; [by rewrite Hspec|].
    eapply flattenElementTree_covers; [done|]. apply tc_rtc.
    by apply Hbelow.
Qed.
End ShadowlessRedispatch.
End Shadowless.

(** ** The overlay page *)

Lemma overlayPage_layered : layered overlayPage overlayLevel.
Proof.
  split.
  - intros [| |e|] p; try done. simpl.
    destruct e as [|[|[|[|[|[|e]]]]]]; intros [= <-]; simpl; lia.
  - intros host. simpl. lia.
Qed.

Lemma overlayLevel_bound (n : Node) : overlayLevel n ≤ 6.
Proof.
  destruct n as [|e|e|]; simpl; try lia;
    destruct e as [|[|[|[|[|[|e]]]]]]; lia.
Qed.

Lemma nestedShadowLevel_bound (n : Node) : nestedShadowLevel n ≤ 8.
Proof.
  destruct n as [|e|e|]; simpl; try lia;
    destruct e as [|[|[|[|[|e]]]]]; lia.
Qed.

Lemma nestedShadowPage_hosts (gecko : bool) (e : Element) :
  hasOpenShadowRoot (nestedShadowPage gecko) e = true →
  e ∈ ({[2; 3]} : gset Element).
Proof.
  destruct e as [|[|[|[|e]]]]; simpl; done.
Qed.

Lemma overlayPage_tree :
  elementTreeFromPoint 8 overlayPage 0 0 Document
  = Ok (Some {| root := 0; elementsByParent := overlayTree |}).
Proof. by vm_compute. Qed.

(** Where only the document answers the hit test, a sorted answer makes
    every normalized list sorted. *)
Lemma document_only_stackingOrdered (dom : DOM) (x y : Z)
    (pos : Element → nat) :
  (∀ scope, scope ≠ Document → elementsFromPoint dom scope x y = []) →
  StronglySorted (λ a b, pos a < pos b) (elementsFromPoint dom Document x y) →
  stackingOrdered dom x y pos.
Proof.
  intros Hother Hsorted fuel.
  induction fuel as [|fuel IH]; intros scope l; [done|].
  cbn [engineIndependentElementsFromPoint].
  destruct scope as [|host|e|n].
  - by intros [= <-].
  - rewrite Hother by done. simpl.
    intros (higherDom & _ & Hrest)%bind_Ok.
    destruct (negb (isDocumentOrShadowRoot higherDom)); [done|].
    apply bind_Ok in Hrest as (higher & Hhigher%IH & [= <-]). simpl.
    unfold trimHost. destruct (String.eqb _ _); [|done].
    destruct (strictEq _ _); [|done].
    destruct higher as [|a higher]; [done|]. simpl. rewrite drop_0.
    by apply StronglySorted_inv in Hhigher as [? _].
  - rewrite Hother by done. intros [= <-]. constructor.
  - rewrite Hother by done. intros [= <-]. constructor.
Qed.

Lemma overlayPage_stackingOrdered :
  stackingOrdered overlayPage 0 0 overlayPos.
Proof.
  apply document_only_stackingOrdered.
  - by intros [| | |].
  - repeat constructor; simpl; lia.
Qed.

Lemma descendantsFirstCheck_sound (dom : DOM) (level : Node → nat)
    (fuel : nat) (l : list Element) :
  layered dom level → (∀ n, level n ≤ fuel) →
  descendantsFirstCheck fuel dom l = true → descendantsFirst dom l.
Proof.
  intros Hlayered Hbound Hcheck before c after a -> Hup Ha.
  unfold descendantsFirstCheck in Hcheck. rewrite forallb_forall in Hcheck.
  assert (In (length before) (seq 0 (length (before ++ c :: after)))) as Hin.
  { apply in_seq. rewrite length_app. simpl. lia. }
  apply Hcheck in Hin. rewrite list_lookup_middle in Hin by done.
  rewrite forallb_forall in Hin. specialize (Hin a).
  rewrite bool_decide_eq_true in Hin.
  replace (drop (S (length before)) (before ++ c :: after)) with after in Hin.
  - apply Hin; [|done]. apply list_elem_of_In. by eapply tc_ancestors.
  - change (before ++ c :: after) with (before ++ [c] ++ after).
    rewrite app_assoc.
    rewrite drop_app_length'; [done|]. rewrite length_app. simpl. lia.
Qed.

Lemma overlayPage_descendantsFirst :
  descendantsFirst overlayPage (elementsFromPoint overlayPage Document 0 0).
Proof.
  apply (descendantsFirstCheck_sound _ overlayLevel 6).
  - apply overlayPage_layered.
  - apply overlayLevel_bound.
  - by vm_compute.
Qed.

(** ** Instances *)

Lemma layeredPage_run :
  dispatchToUnderlyingElements (cancelAt 100) eventInit 10 layeredPage
    (clickAt (Some (ElementNode 2)) false) 0
  = Ok {| world := 4;
          dispatched := [(6, false); (5, false); (4, false); (3, false)];
          original := clickAt (Some (ElementNode 2)) false |}.
Proof. by vm_compute. Qed.

Lemma layeredPage_run_cancelled :
  dispatchToUnderlyingElements (cancelAt 4) eventInit 10 layeredPage
    (clickAt (Some (ElementNode 2)) false) 0
  = Ok {| world := 3;
          dispatched := [(6, false); (5, false); (4, true)];
          original := preventDefault (clickAt (Some (ElementNode 2)) false) |}.
Proof. by vm_compute. Qed.

Lemma overlayPage_run :
  dispatchToUnderlyingElements (cancelAt 100) eventInit 8 overlayPage
    (clickAt (Some (ElementNode 1)) false) 0
  = Ok {| world := 2;
          dispatched := [(5, false); (3, false)];
          original := clickAt (Some (ElementNode 1)) false |}.
Proof. by vm_compute. Qed.

Lemma findRootNode_root_of_chain_witness :
  findRootNode 5 (nestedShadowPage true) (ElementNode 1) = Ok Document.
Proof.
  destruct (findRootNode_root_of_chain 5 (nestedShadowPage true)
              (ElementNode 2) Document eq_refl) as (_ & _ & _ & H).
  apply (H (ElementNode 1)). by apply rtc_once.
Defined.

Lemma findRootNode_terminates_witness :
  ∃ r, findRootNode 7 (nestedShadowPage true) (ElementNode 4) = Ok r ∧
       parentNode (nestedShadowPage true) r = None.
Proof.
  destruct (findRootNode_terminates (nestedShadowPage true) nestedShadowLevel
              7 (ElementNode 4) (nestedShadowPage_layered true))
    as (r & Hr & _ & Hnone); [simpl; lia|].
  exists r. split; [exact Hr|exact Hnone].
Defined.

Lemma addToKeyedList_appends_witness :
  addToKeyedList (addToKeyedList ∅ 2 7) 2 5 !! 2 = Some [7; 5] ∧
  addToKeyedList (addToKeyedList ∅ 2 7) 3 5 !! 2 = Some [7].
Proof.
  destruct (addToKeyedList_appends ∅ 2 7) as (_ & _ & _ & Htwice & Hcomm).
  split; [exact (Htwice 5)|].
  rewrite (Hcomm 3 5) by lia.
  by destruct (addToKeyedList_appends (addToKeyedList ∅ 3 5) 2 7) as (-> & _).
Defined.

Lemma engineIndependentElementsFromPoint_extends_hit_test_witness :
  elementsFromPoint (nestedShadowPage true) (ShadowRootOf 3) 0 0
    `prefix_of` [4; 3; 2; 1; 0].
Proof.
  exact (proj1 (engineIndependentElementsFromPoint_extends_hit_test 9
                  (nestedShadowPage true) 0 0 (ShadowRootOf 3)
                  [4; 3; 2; 1; 0] eq_refl)).
Defined.

Lemma elementTreeFromPoint_parent_behind_and_visible_witness :
  (∃ f scope l,
     engineIndependentElementsFromPoint f (nestedShadowPage true) 0 0 scope
       = Ok l ∧ behind l 4 3) ∧
  (tc (parentElementOf (nestedShadowPage true)) 4 3 ∨
   ∃ h, hasOpenShadowRoot (nestedShadowPage true) h = true ∧
        rtc (parentElementOf (nestedShadowPage true)) h 3).
Proof.
  apply (proj2 (elementTreeFromPoint_parent_behind_and_visible 10
                  (nestedShadowPage true) 0 0 Document _
                  (nestedShadowPage_tree true)) 3 4).
  exists [4]. split; [reflexivity|by left].
Defined.

Lemma elementTreeFromPoint_root_has_no_ancestor_behind_witness :
  ∃ f scope before after,
    engineIndependentElementsFromPoint f (nestedShadowPage true) 0 0 scope
      = Ok (before ++ 0 :: after) ∧
    ∀ a, tc (parentElementOf (nestedShadowPage true)) 0 a → a ∉ after.
Proof.
  exact (elementTreeFromPoint_root_has_no_ancestor_behind 10
           (nestedShadowPage true) 0 0 Document _
           (nestedShadowPage_tree true)).
Defined.

Lemma elementTreeFromPoint_nearest_ancestor_behind_witness :
  tc (parentElementOf overlayPage) 3 1.
Proof.
  refine (proj1 (elementTreeFromPoint_nearest_ancestor_behind 8 overlayPage
                   0 0 Document _ (λ _, eq_refl) overlayPage_tree 1 3 _)).
  exists [4; 3]. split; [reflexivity|]. right. by left.
Defined.

Lemma elementTreeFromPoint_null_iff_nothing_hit_witness :
  engineIndependentElementsFromPoint 10 (nestedShadowPage true) 0 0 Document
  ≠ Ok [].
Proof.
  intros Hnone.
  by apply (proj1 (elementTreeFromPoint_null_iff_nothing_hit 10
                     (nestedShadowPage true) 0 0 0 Document _
                     (nestedShadowPage_reaches_root true)
                     (nestedShadowPage_tree true))) in Hnone.
Defined.

Lemma flattenElementTree_lists_descendants_witness :
  last [8; 7; 6; 5; 4; 3; 2] = Some 2 ∧ rtc (child layeredTree) 2 6.
Proof.
  destruct (flattenElementTree_lists_descendants 3 layeredTree 2
              [8; 7; 6; 5; 4; 3; 2] eq_refl) as [Hlast Hlists].
  split; [exact Hlast|]. apply Hlists. do 2 right. by left.
Defined.

Lemma flattenElementTree_descendants_first_witness :
  ∃ l1 l2 l3, [8; 7; 6; 5; 4; 3; 2] = l1 ++ 6 :: l2 ++ 5 :: l3.
Proof.
  apply (proj2 (flattenElementTree_descendants_first 3 layeredTree 2
                  [8; 7; 6; 5; 4; 3; 2] eq_refl) 5 6).
  - apply rtc_once. exists [7; 5; 3]. split; [reflexivity|]. right. by left.
  - apply tc_once. exists [6]. split; [reflexivity|by left].
Defined.

Lemma getDefaultPathElementSet_first_child_chain_witness :
  ∃ dp, getDefaultPathElementSet 3 layeredTree 2 = Ok dp ∧
        2 ∈ dp ∧
        ∃ a, head [8; 7; 6; 5; 4; 3; 2] = Some a ∧ a ∈ dp.
Proof.
  eexists. split; [reflexivity|].
  destruct (getDefaultPathElementSet_first_child_chain 3 layeredTree 2 _
              eq_refl) as (Hroot & _ & _ & Hhead).
  split; [exact Hroot|].
  destruct (Hhead 3 [8; 7; 6; 5; 4; 3; 2] eq_refl) as (a & Ha & Hin & _).
  by exists a.
Defined.

Lemma dispatchToUnderlyingElements_serves_only_below_witness :
  ∃ tree,
    elementTreeFromPoint 10 layeredPage 0 0 Document = Ok (Some tree) ∧
    tc (child (elementsByParent tree)) 2 6.
Proof.
  destruct (dispatchToUnderlyingElements_serves_only_below (cancelAt 100)
              eventInit 10 layeredPage (clickAt (Some (ElementNode 2)) false)
              0 _ 6 layeredPage_run)
    as (target & d & tree & Htarget & Hd & Htree & Hbelow & _).
  { do 0 right. by left. }
  injection Htarget as <-. injection Hd as <-. by exists tree.
Defined.

Lemma dispatchToUnderlyingElements_serves_once_deepest_first_witness :
  ∃ r, dispatchToUnderlyingElements (cancelAt 100) eventInit 8 overlayPage
         (clickAt (Some (ElementNode 1)) false) 0 = Ok r ∧
       NoDup (dispatched r).*1 ∧ (dispatched r).*1 = [5; 3].
Proof.
  eexists. split; [exact overlayPage_run|].
  destruct (dispatchToUnderlyingElements_serves_once_deepest_first
              (cancelAt 100) eventInit 8 overlayPage overlayPos
              (clickAt (Some (ElementNode 1)) false) 0 _
              overlayPage_stackingOrdered overlayPage_run) as [Honce _].
  split; [exact Honce|reflexivity].
Defined.

Lemma dispatchToUnderlyingElements_touches_only_defaultPrevented_witness :
  ∃ r, dispatchToUnderlyingElements (cancelAt 4) eventInit 10 layeredPage
         (clickAt (Some (ElementNode 2)) false) 0 = Ok r ∧
       original r = preventDefault (clickAt (Some (ElementNode 2)) false).
Proof.
  eexists. split; [exact layeredPage_run_cancelled|].
  exact (proj1 (dispatchToUnderlyingElements_touches_only_defaultPrevented
                  (cancelAt 4) eventInit 10 layeredPage
                  (clickAt (Some (ElementNode 2)) false) 0 _
                  layeredPage_run_cancelled)).
Defined.

Lemma layeredPage_run_recorded :
  dispatchToUnderlyingElements (recording (cancelAt 100)) eventInit 10
    layeredPage (clickAt (Some (ElementNode 2)) false) (0, [])
  = Ok {| world :=
            (4, (λ e, (e, constructMouseEvent
                            (clickAt (Some (ElementNode 2)) false)
                            "click" (setBubbles false clickInit)))
                <$> [6; 5; 4; 3]);
          dispatched := [(6, false); (5, false); (4, false); (3, false)];
          original := clickAt (Some (ElementNode 2)) false |}.
Proof. by vm_compute. Qed.

Lemma dispatchToUnderlyingElements_delivers_clone_witness :
  ∃ r0, dispatchToUnderlyingElements (cancelAt 100) eventInit 10 layeredPage
          (clickAt (Some (ElementNode 2)) false) 0 = Ok r0 ∧
        world r0 = 4 ∧
        dispatched r0
        = [(6, false); (5, false); (4, false); (3, false)].
Proof.
  destruct (dispatchToUnderlyingElements_delivers_clone (cancelAt 100)
              eventInit 10 layeredPage (clickAt (Some (ElementNode 2)) false)
              0 _ layeredPage_run_recorded)
    as ((r0 & Hrun & Hworld & Hserved & _) & _).
  exists r0. split; [exact Hrun|]. split; [exact Hworld|exact Hserved].
Defined.

Lemma elementTreeFromPoint_terminates_witness :
  (∃ t, elementTreeFromPoint 32 (nestedShadowPage true) 0 0 Document = Ok t) ∨
  elementTreeFromPoint 32 (nestedShadowPage true) 0 0 Document
  = Throw "Expected root node to be a DocumentOrShadowRoot"%string.
Proof.
  apply (elementTreeFromPoint_terminates (nestedShadowPage true)
           nestedShadowLevel 8 {[2; 3]} 32 0 0 Document
           (nestedShadowPage_layered true) nestedShadowLevel_bound
           (nestedShadowPage_hosts true)).
  change (size ({[2; 3]} : gset Element)) with 2. lia.
Defined.

Lemma overlayPos_bound (e : Element) : overlayPos e < 8.
Proof. do 6 (destruct e as [|e]; [simpl; lia|]). simpl. lia. Qed.

Lemma dispatchToUnderlyingElements_terminates_witness :
  (∃ r, dispatchToUnderlyingElements (cancelAt 100) eventInit 8 overlayPage
          (clickAt (Some (ElementNode 1)) false) 0 = Ok r) ∨
  throws (dispatchToUnderlyingElements (cancelAt 100) eventInit 8 overlayPage
            (clickAt (Some (ElementNode 1)) false) 0).
Proof.
  apply (dispatchToUnderlyingElements_terminates (cancelAt 100) eventInit
           overlayPage overlayLevel 6 ∅ overlayPos 8
           (clickAt (Some (ElementNode 1)) false) 0
           overlayPage_layered overlayLevel_bound).
  - intros e. simpl. discriminate.
  - exact overlayPage_stackingOrdered.
  - exact overlayPos_bound.
  - change (size (∅ : gset Element)) with 0. lia.
Defined.

Lemma elementTreeFromPoint_restricts_dom_witness :
  nearestHitAncestor overlayPage [4; 5; 3; 1; 0] 3 1 ∧
  tc (child overlayTree) 1 5.
Proof.
  destruct (elementTreeFromPoint_restricts_dom overlayPage overlayLevel
              overlayPage_layered (λ _, eq_refl) 8 0 0 Document
              {| root := 0; elementsByParent := overlayTree |})
    as [Hchild Hbelow].
  - by left.
  - apply (bool_decide_unpack _). by vm_compute.
  - exact overlayPage_descendantsFirst.
  - exact overlayPage_tree.
  - split.
    + apply Hchild. exists [4; 3]. split; [reflexivity|]. right. by left.
    + apply Hbelow. split; [right; by left|]. split; [do 3 right; by left|].
      eapply tc_l; [|eapply tc_l; [|apply tc_once]]; reflexivity.
Defined.

Lemma dispatchToUnderlyingElements_serves_hit_descendants_witness :
  ∃ r, dispatchToUnderlyingElements (cancelAt 100) eventInit 8 overlayPage
         (clickAt (Some (ElementNode 1)) false) 0 = Ok r ∧
       3 ∈ (dispatched r).*1.
Proof.
  eexists. split; [exact overlayPage_run|].
  apply (dispatchToUnderlyingElements_serves_hit_descendants overlayPage
           overlayLevel overlayPage_layered (λ _, eq_refl) (cancelAt 100)
           eventInit 8 (clickAt (Some (ElementNode 1)) false) 0 1
           {| root := 0; elementsByParent := overlayTree |} _
           eq_refl eq_refl eq_refl).
  - apply (bool_decide_unpack _). by vm_compute.
  - exact overlayPage_descendantsFirst.
  - exact overlayPage_tree.
  - exact overlayPage_run.
  - by repeat constructor.
  - split; [do 2 right; by left|]. split; [do 3 right; by left|].
    split.
    + eapply tc_l; [|apply tc_once]; reflexivity.
    + intros Hon.
      by apply (getDefaultPathElementSet_spec 8 overlayTree 1 _ eq_refl)
        in Hon.
Defined.


Lemma stepUp_first_visible_candidate_witness :
  visibilityChain 6 overlayPage (Some 2) [] = [2; 1; 0] ∧
  stepUp 3 overlayPage (list_to_set [1; 0]) 3 (Some 2) [] initialState
  = Ok (attach 1 3 initialState) ∧
  visibilityChain 8 (nestedShadowPage true) None [2; 3] = [3; 2; 1; 0].
Proof.
  split; [reflexivity|]. split; [|reflexivity].
  destruct (stepUp_first_visible_candidate overlayPage overlayLevel 6
              (list_to_set [1; 0]) 3 (Some 2) [] initialState
              overlayPage_layered overlayLevel_bound) as (Hsettles & Hends & _).
  destruct (Hends 7) as [st' Hrun]; [simpl; lia|].
  pose proof (Hsettles 7 st' Hrun) as Hst'. vm_compute in Hst'. subst st'.
  reflexivity.
Defined.
